(** * Connector expansion (pyomo/core/plugins/transform/expand_connectors.py)

    A shallow embedding of the connector-expansion transformation and the
    properties of it that the specification states.  Python objects that the
    code shares and mutates (ComponentSet instances, connectors, variables,
    blocks) live in explicit stores and are referred to by identity. *)

From Stdlib Require Import ZArith Lia OrdersEx.
From stdpp Require Import gmap strings list sorting relations.

Open Scope Z_scope.
Open Scope string_scope.
Open Scope list_scope.
Open Scope nat_scope.

(** ** Part I.  The equivalence-class builder: [_collect_connectors], scan loop *)

(** Modelled from the spec: the class ComponentSet (pyomo.core.kernel) is not
    among the sources.  The specification has a connector class as "a set of
    Connectors", and the code uses it through [add], [update], [len],
    membership and iteration.  A set is kept as the list of its members,
    without repetition; the order of the list stands for the order in which
    iterating the set yields its members, which the sources do not fix.
    Here a member that is added goes last; what is proved of the classes
    below depends on membership only, and the functions that iterate a
    connector set take it as a list in whatever order it is yielded. *)
Definition cs_add (c : nat) (s : list nat) : list nat :=
  if decide (c ∈ s) then s else s ++ [c].

Definition cs_update (s src : list nat) : list nat :=
  foldl (λ acc i, cs_add i acc) s src.

Inductive comp_type := IsConstraint | IsConnection.

(** One active component yielded by [component_data_objects]: its identity,
    its type, and the connectors that [itr] yields for it
    ([identify_components(comp.body, ...)] or [comp.connectors]). *)
Record comp := Comp {
  comp_id : nat;
  comp_kind : comp_type;
  comp_itr : list nat
}.

(** The local variables of [_collect_connectors], with the ComponentSet
    objects that [connector_groups] and [matched_connectors] point to held in
    [heap] (address -> members); [id(s)] of a set is its address. *)
Record scan_state := ScanState {
  connector_list : list nat;
  constraint_list : list (comp * list nat);
  connection_list : list (comp * list nat);
  groupID : nat;
  connector_groups : gmap nat (nat * nat);
  matched_connectors : gmap nat nat;
  found : list nat;
  heap : gmap nat (list nat);
  next_addr : nat
}.

Definition scan_init : scan_state :=
  ScanState [] [] [] 0 ∅ ∅ [] ∅ 0.

(** Dereference a ComponentSet. *)
Definition deref (h : gmap nat (list nat)) (a : nat) : list nat :=
  default [] (h !! a).

(** [for i in src: matched_connectors[i] = ref] *)
Definition repoint (ref : nat) (src : list nat) (mc : gmap nat nat) : gmap nat nat :=
  foldl (λ m i, <[i := ref]> m) mc src.

(** The body of [for c in itr] (lines 58-95); [ref] is the local variable of
    that name, [None] for Python's None. *)
Definition visit (c : nat) (st : scan_state * option nat) : scan_state * option nat :=
  let '(s, ref) := st in
  let found' := cs_add c (found s) in
  match matched_connectors s !! c with
  | Some mref =>
      match ref with
      | None =>
          (ScanState (connector_list s) (constraint_list s) (connection_list s)
             (groupID s) (connector_groups s) (matched_connectors s) found'
             (heap s) (next_addr s), Some mref)
      | Some r =>
          if decide (r = mref) then
            (ScanState (connector_list s) (constraint_list s) (connection_list s)
               (groupID s) (connector_groups s) (matched_connectors s) found'
               (heap s) (next_addr s), Some r)
          else
            let src := mref in
            let '(r, src) :=
              if decide (length (deref (heap s) r) < length (deref (heap s) src))
              then (src, r) else (r, src) in
            let members := deref (heap s) src in
            (ScanState (connector_list s) (constraint_list s) (connection_list s)
               (groupID s)
               (delete src (connector_groups s))
               (repoint r members (matched_connectors s))
               found'
               (<[r := cs_update (deref (heap s) r) members]> (heap s))
               (next_addr s), Some r)
      end
  | None =>
      let connector_list' := connector_list s ++ [c] in
      match ref with
      | None =>
          let r := next_addr s in
          (ScanState connector_list' (constraint_list s) (connection_list s)
             (S (groupID s))
             (<[r := (groupID s, r)]> (connector_groups s))
             (<[c := r]> (matched_connectors s))
             found'
             (<[r := cs_add c []]> (heap s))
             (S (next_addr s)), Some r)
      | Some r =>
          (ScanState connector_list' (constraint_list s) (connection_list s)
             (groupID s) (connector_groups s)
             (<[c := r]> (matched_connectors s))
             found'
             (<[r := cs_add c (deref (heap s) r)]> (heap s))
             (next_addr s), Some r)
      end
  end.

(** The body of [for comp in instance.component_data_objects(...)]
    (lines 51-101). *)
Definition scan_comp (s : scan_state) (cp : comp) : scan_state :=
  let '(s1, ref) := foldl (λ st c, visit c st) (s, None) (comp_itr cp) in
  match ref with
  | None => s1
  | Some _ =>
      match comp_kind cp with
      | IsConstraint =>
          ScanState (connector_list s1) (constraint_list s1 ++ [(cp, found s1)])
            (connection_list s1) (groupID s1) (connector_groups s1)
            (matched_connectors s1) [] (heap s1) (next_addr s1)
      | IsConnection =>
          ScanState (connector_list s1) (constraint_list s1)
            (connection_list s1 ++ [(cp, found s1)]) (groupID s1)
            (connector_groups s1) (matched_connectors s1) [] (heap s1)
            (next_addr s1)
      end
  end.

Definition scan (comps : list comp) : scan_state :=
  foldl scan_comp scan_init comps.

(** Python's [sorted] on a list with key [key]: a stable insertion sort. *)
Section sorted.
Context {A K : Type} (key : A → K) (leb : K → K → bool).

Fixpoint sorted_insert (x : A) (l : list A) : list A :=
  match l with
  | [] => [x]
  | y :: l' => if leb (key y) (key x) then y :: sorted_insert x l' else x :: l
  end.

Definition sorted_by (l : list A) : list A :=
  foldl (λ acc x, sorted_insert x acc) [] l.

End sorted.

(** [sorted(itervalues(connector_groups))] (line 105): the records are
    tuples [(groupID, set)] and group IDs are compared first. *)
Definition sorted_groups (vals : list (nat * nat)) : list (nat * nat) :=
  sorted_by fst Nat.leb vals.

Definition group_values (s : scan_state) : list (nat * nat) :=
  snd <$> map_to_list (connector_groups s).

(** The classes at the end of the scan, in the order of line 105. *)
Definition classes (s : scan_state) : list (list nat) :=
  (λ g, deref (heap s) g.2) <$> sorted_groups (group_values s).

(** The relation the specification speaks of: two connectors appeared
    together in one constraint or connection. *)
Definition co_occur (comps : list comp) (c d : nat) : Prop :=
  ∃ cp, cp ∈ comps ∧ c ∈ comp_itr cp ∧ d ∈ comp_itr cp.

(** Two connectors point to the same ComponentSet in [matched_connectors]. *)
Definition same_class (s : scan_state) (c d : nat) : Prop :=
  ∃ a, matched_connectors s !! c = Some a ∧ matched_connectors s !! d = Some a.

(** A list of classes partitions the connectors of [universe]. *)
Definition partitions (universe : list nat) (cls : list (list nat)) : Prop :=
  (∀ c, c ∈ universe ↔ ∃ cl, cl ∈ cls ∧ c ∈ cl) ∧
  (∀ cl, cl ∈ cls → cl ≠ [] ∧ NoDup cl) ∧
  (∀ i j cl1 cl2 c, cls !! i = Some cl1 → cls !! j = Some cl2 →
     c ∈ cl1 → c ∈ cl2 → i = j).

(** The same co-occurrences discovered in another order: the components in
    another order, and each component yielding its connectors in another
    order. *)
Definition reordered (comps comps' : list comp) : Prop :=
  ∃ mid, comps ≡ₚ mid ∧
    Forall2 (λ a b, comp_itr a ≡ₚ comp_itr b) mid comps'.

(** The invariant of the scan: every connector seen points to a live group
    whose set holds it, and every live group is keyed by the address of its
    own set, which is not empty and whose members all point back to it. *)
Record scan_wf (s : scan_state) : Prop := ScanWf {
  wf_mc : ∀ c a, matched_connectors s !! c = Some a →
    ∃ g, connector_groups s !! a = Some (g, a) ∧ c ∈ deref (heap s) a;
  wf_grp : ∀ a g b, connector_groups s !! a = Some (g, b) →
    b = a ∧ a < next_addr s ∧ g < groupID s ∧
    deref (heap s) a ≠ [] ∧ NoDup (deref (heap s) a) ∧
    ∀ c, c ∈ deref (heap s) a → matched_connectors s !! c = Some a;
  wf_gid : ∀ a1 a2 g b1 b2,
    connector_groups s !! a1 = Some (g, b1) →
    connector_groups s !! a2 = Some (g, b2) → a1 = a2;
  wf_list : ∀ c, c ∈ connector_list s ↔ is_Some (matched_connectors s !! c);
  wf_nodup : NoDup (connector_list s)
}.

(** What one visit joins: the connector itself, its old class, and the
    class of the current reference set. *)
Definition joined (s : scan_state) (ref : option nat) (c x : nat) : Prop :=
  x = c ∨ same_class s x c ∨
  ∃ r, ref = Some r ∧ matched_connectors s !! x = Some r.

Definition clique (l : list nat) (x y : nat) : Prop := x ∈ l ∧ y ∈ l.

(** What one visit establishes. *)
Definition visit_post (s : scan_state) (ref : option nat) (c : nat)
    (s' : scan_state) (ref' : option nat) : Prop :=
  scan_wf s' ∧
  ∃ r', ref' = Some r' ∧ matched_connectors s' !! c = Some r' ∧
    (∀ r x, ref = Some r → matched_connectors s !! x = Some r →
       matched_connectors s' !! x = Some r') ∧
    (∀ x y, same_class s' x y ↔
       same_class s x y ∨ (joined s ref c x ∧ joined s ref c y)).

(** The state after lines 77-80 with [ref] bound to the set at [w] and [src]
    to the set at [l]. *)
Definition merged (s : scan_state) (fnd : list nat) (w l : nat) : scan_state :=
  ScanState (connector_list s) (constraint_list s) (connection_list s)
    (groupID s)
    (delete l (connector_groups s))
    (repoint w (deref (heap s) l) (matched_connectors s))
    fnd
    (<[w := cs_update (deref (heap s) w) (deref (heap s) l)]> (heap s))
    (next_addr s).

(** ** Part II.  The objects of a model

    Connectors, variables and blocks are Python objects that the
    transformation shares and mutates; each is named by its identity (a
    number) and kept in a store.  Dictionaries whose iteration order the code
    observes are association lists in iteration order, with one entry per
    key. *)

Section dict.
Context {V : Type}.

Fixpoint dict_get (k : string) (d : list (string * V)) : option V :=
  match d with
  | [] => None
  | (k', v) :: d' => if decide (k = k') then Some v else dict_get k d'
  end.

Definition dict_has (k : string) (d : list (string * V)) : bool :=
  bool_decide (is_Some (dict_get k d)).

(** [d[k] = v]: an existing key keeps its place, a new key goes last. *)
Fixpoint dict_set (k : string) (v : V) (d : list (string * V)) : list (string * V) :=
  match d with
  | [] => [(k, v)]
  | (k', v') :: d' =>
      if decide (k = k') then (k, v) :: d' else (k', v') :: dict_set k v d'
  end.

End dict.

(** The data of one element of a variable: [.domain], [.lb], [.ub].  Bounds
    are only stored and copied by the transformation. *)
Record VarData := mkVarData {
  vd_domain : string;
  vd_lb : option Z;
  vd_ub : option Z
}.

(** What a connector field may hold, as far as the transformation looks at
    it.  [v_is_indexed] is [None] when the object has no [is_indexed]
    attribute (line 127) and else what [is_indexed()] returns; [v_domain] and
    [v_bounds] are [None] when reading the attribute raises AttributeError
    (lines 205-212); [v_varlist] tells whether the object is a VarList (and
    so has [add]); [v_index_set] is [index_set()]; [v_data] holds the
    elements [v[i]], so that [len(v)] is its length. *)
Record Var := mkVar {
  v_is_indexed : option bool;
  v_varlist : bool;
  v_index_set : list nat;
  v_domain : option string;
  v_bounds : option (option Z * option Z);
  v_data : list (nat * VarData)
}.

(** A connector: [name], [parent_block()], and the dictionaries [vars]
    (field -> variable or None), [aggregators] (field -> rule), [extensives]
    (type -> field -> list of extensive variables) and
    [extensive_aggregators] (type -> function). *)
Record Connector := mkConnector {
  c_name : string;
  c_parent_block : nat;
  c_vars : list (string * option nat);
  c_aggregators : list (string * nat);
  c_extensives : list (string * list (string * list nat));
  c_extensive_aggregators : list (string * nat)
}.

(** The operands that the generated constraints are built from: the element
    that [add()] appended to a VarList, an element [v[args]] of a variable, a
    variable itself, and the value None. *)
Inductive term :=
| TAdd (v : nat) (i : nat)
| TGetItem (v : nat) (args : option (list nat))
| TVar (v : nat)
| TNone.

Inductive expr := EEq (lhs rhs : term).

(** [Constraint(index_set, rule=rule)] of [_add_connections]: the index set
    and what the closure [rule] refers to when the constraint is built (the
    field [k], the connector set, and [evar] if it is bound). *)
Record Constraint := mkConstraint {
  con_index_set : list nat;
  con_field : string;
  con_conn_set : list nat;
  con_evar : option nat
}.

(** What [add_component] attaches to a block here: a variable, by identity,
    or a constraint. *)
Inductive component :=
| CVar (v : nat)
| CConstraint (c : Constraint).

Record model := Model {
  m_conns : gmap nat Connector;
  m_vars : gmap nat Var;
  m_blocks : gmap nat (list (string * component));
  m_warnings : list string
}.

Definition no_connector : Connector := mkConnector "" 0 [] [] [] [].
Definition no_var : Var := mkVar None false [] None None [].

(** Objects named by an identity that the store does not hold do not occur
    in a run; the lookups below are made total with an empty object. *)
Definition get_conn (m : model) (c : nat) : Connector :=
  default no_connector (m_conns m !! c).

Definition get_var (m : model) (v : nat) : Var :=
  default no_var (m_vars m !! v).

Definition get_block (m : model) (b : nat) : list (string * component) :=
  default [] (m_blocks m !! b).

Inductive mismatch :=
| MissingVariable (cname k refname : string)
| MixedIndexing (k refname cname : string)
| IndexCountMismatch (k : string) (nref : Z) (refname : string) (n : Z) (cname : string)
| IndexSetMismatch (k refname cname : string).

Inductive exn :=
| ValueError (e : mismatch)
| KeyError (what : string)
| NameError (name : string)
| AttributeError (attr : string)
| TypeError
| IndexError
| StopIteration.

(** Computations that read and change the model and may raise. *)
Definition M (A : Type) : Type := model → exn + (A * model).

Definition ret {A} (a : A) : M A := λ m, inr (a, m).
Definition raise {A} (e : exn) : M A := λ _, inl e.
Definition bind {A B} (x : M A) (f : A → M B) : M B :=
  λ m, match x m with
       | inl e => inl e
       | inr (a, m') => f a m'
       end.
Definition gets {A} (f : model → A) : M A := λ m, inr (f m, m).
Definition modify (f : model → model) : M unit := λ m, inr (tt, f m).

#[global] Instance M_ret : MRet M := @ret.
#[global] Instance M_bind : MBind M := λ A B f x, bind x f.

(** [for x in l: body x] *)
Fixpoint for_each {A} (l : list A) (body : A → M unit) : M unit :=
  match l with
  | [] => ret tt
  | x :: l' => body x;; for_each l' body
  end.

Definition with_blocks (m : model) (b : nat) (l : list (string * component))
    : model :=
  Model (m_conns m) (m_vars m) (<[b := l]> (m_blocks m)) (m_warnings m).

Definition with_var (m : model) (v : nat) (V : Var) : model :=
  Model (m_conns m) (<[v := V]> (m_vars m)) (m_blocks m) (m_warnings m).

Definition with_conn (m : model) (c : nat) (C : Connector) : model :=
  Model (<[c := C]> (m_conns m)) (m_vars m) (m_blocks m) (m_warnings m).

(** Modelled from the spec: [add_component(name, component)] of the model
    mutation API, which is not among the sources.  The component is recorded
    in the block under the name, after the components the block already
    has. *)
Definition add_component (b : nat) (name : string) (c : component) : M unit :=
  modify (λ m, with_blocks m b (get_block m b ++ [(name, c)])).

Definition set_var (v : nat) (V : Var) : M unit :=
  modify (λ m, with_var m v V).

Definition set_conn (c : nat) (C : Connector) : M unit :=
  modify (λ m, with_conn m c C).

(** A new object gets an identity that no variable of the store has. *)
Definition new_var_id : M nat := gets (λ m, fresh (dom (m_vars m))).

(** ** Part III.  [_validate_and_expand_connector_set] *)

(** The shape code of lines 124-128 and 160-164: -2 for a field with an
    aggregator, -1 for a value that is not indexed, [len(v)] otherwise.
    (The -3 of line 161 is never reached: a None value has left the loop
    body at line 159.) *)
Definition shape_code (C : Connector) (k : string) (V : Var) : Z :=
  if dict_has k (c_aggregators C) then -2
  else if negb (bool_decide (is_Some (v_is_indexed V)))
          || negb (default false (v_is_indexed V)) then -1
  else Z.of_nat (length (v_data V)).

(** Lines 113-129: the reference maps a field to [(v, _len, c)]; the first
    connector that has the field assigned provides the entry. *)
Definition collect_field (m : model) (c : nat)
    (ref : list (string * (nat * Z * nat))) (kv : string * option nat)
    : list (string * (nat * Z * nat)) :=
  if dict_has kv.1 ref then ref
  else match kv.2 with
       | None => ref
       | Some v =>
           dict_set kv.1 (v, shape_code (get_conn m c) kv.1 (get_var m v), c) ref
       end.

Definition collect_fields (m : model) (connectors : list nat)
    : list (string * (nat * Z * nat)) :=
  foldl (λ ref c, foldl (collect_field m c) ref (c_vars (get_conn m c)))
        [] connectors.

(** [a ^ b] on index sets. *)
Definition sym_diff (a b : list nat) : list nat :=
  filter (λ i, i ∉ b) a ++ filter (λ i, i ∉ a) b.

(** Lines 148-181 for one connector [c] with a non-empty [vars]; the result
    is [c_is_partial]. *)
Fixpoint check_connector (m : model) (c : nat)
    (ref : list (string * (nat * Z * nat))) (c_is_partial : bool)
    : exn + bool :=
  match ref with
  | [] => inr c_is_partial
  | (k, (v0, n0, c0)) :: ref' =>
      let C := get_conn m c in
      match dict_get k (c_vars C) with
      | None =>
          inl (ValueError (MissingVariable (c_name C) k (c_name (get_conn m c0))))
      | Some None => check_connector m c ref' true
      | Some (Some v) =>
          let _len := shape_code C k (get_var m v) in
          if xorb (0 <=? _len)%Z (0 <=? n0)%Z then
            inl (ValueError (MixedIndexing k (c_name (get_conn m c0)) (c_name C)))
          else if (0 <=? _len)%Z && negb (_len =? n0)%Z then
            inl (ValueError (IndexCountMismatch k n0 (c_name (get_conn m c0))
                               _len (c_name C)))
          else if (0 <=? n0)%Z &&
                  (0 <? length (sym_diff (v_index_set (get_var m v0))
                                         (v_index_set (get_var m v)))) then
            inl (ValueError (IndexSetMismatch k (c_name (get_conn m c0)) (c_name C)))
          else check_connector m c ref' c_is_partial
      end
  end.

(** Lines 139-181: the result is [empty_or_partial]. *)
Fixpoint check_connectors (m : model) (connectors : list nat)
    (ref : list (string * (nat * Z * nat))) (empty_or_partial : list nat)
    : exn + list nat :=
  match connectors with
  | [] => inr empty_or_partial
  | c :: rest =>
      match c_vars (get_conn m c) with
      | [] => check_connectors m rest ref (empty_or_partial ++ [c])
      | _ :: _ =>
          match check_connector m c ref false with
          | inl e => inl e
          | inr partial =>
              check_connectors m rest ref
                (if partial then empty_or_partial ++ [c] else empty_or_partial)
          end
      end
  end.

(** Python compares strings by code point, character by character. *)
Definition str_leb (a b : string) : bool :=
  match String_as_OT.compare a b with
  | Gt => false
  | _ => true
  end.

(** [sorted(iteritems(ref))] (lines 186, 269, 366): items are compared by
    key first, and keys of a dictionary differ. *)
Definition sorted_items {V} (d : list (string * V)) : list (string * V) :=
  sorted_by fst str_leb d.

(** Lines 187-191. *)
Definition sort_empty_or_partial (m : model) (l : list nat) : list nat :=
  if decide (1 < length l)
  then sorted_by (λ c, c_name (get_conn m c)) str_leb l
  else l.

(** Modelled from the spec: the class Var is not among the sources.  The
    call at line 213 creates "a new variable (indexed if canonical shape-code
    >= 0 using the canonical index set, else scalar)": a scalar variable when
    [idx] is empty, else a variable indexed over [idx[0]]; [domain] and
    [bounds] given to the constructor apply to the variable and to each of
    its elements, and default to Reals and no bounds. *)
Definition Var_new (idx : option (list nat)) (dom : option string)
    (bnds : option (option Z * option Z)) : Var :=
  let d := default "Reals" dom in
  let b := default (None, None) bnds in
  mkVar (Some (bool_decide (is_Some idx))) false (default [] idx)
        (Some d) (Some b)
        ((λ i, (i, mkVarData d b.1 b.2)) <$> default [] idx).

Fixpoint data_get (i : nat) (d : list (nat * VarData)) : option VarData :=
  match d with
  | [] => None
  | (j, x) :: d' => if decide (i = j) then Some x else data_get i d'
  end.

Fixpoint data_set (i : nat) (x : VarData) (d : list (nat * VarData))
    : list (nat * VarData) :=
  match d with
  | [] => [(i, x)]
  | (j, y) :: d' => if decide (i = j) then (i, x) :: d' else (j, y) :: data_set i x d'
  end.

(** Lines 218-221 for one index: [v[0][i]] raises KeyError when the
    variable has no element at [i]. *)
Definition copy_element (v0 nv i : nat) : M unit :=
  V0 ← gets (λ m, get_var m v0);
  match data_get i (v_data V0) with
  | None => raise (KeyError "index")
  | Some x =>
      NV ← gets (λ m, get_var m nv);
      set_var nv (mkVar (v_is_indexed NV) (v_varlist NV) (v_index_set NV)
                    (v_domain NV) (v_bounds NV)
                    (data_set i (mkVarData (vd_domain x) (vd_lb x) (vd_ub x))
                       (v_data NV)))
  end.

(** Lines 196-222 for one connector and one item of [sorted_refs]. *)
Definition fill_field (c : nat) (kv : string * (nat * Z * nat)) : M unit :=
  let k := kv.1 in
  let v0 := kv.2.1.1 in
  let n0 := kv.2.1.2 in
  C ← gets (λ m, get_conn m c);
  match dict_get k (c_vars C) with
  | Some (Some _) => ret tt
  | _ =>
      V0 ← gets (λ m, get_var m v0);
      let idx := if (0 <=? n0)%Z then Some (v_index_set V0) else None in
      nv ← new_var_id;
      set_var nv (Var_new idx (v_domain V0) (v_bounds V0));;
      add_component (c_parent_block C) (c_name C +:+ ".auto." +:+ k) (CVar nv);;
      for_each (default [] idx) (copy_element v0 nv);;
      C' ← gets (λ m, get_conn m c);
      set_conn c (mkConnector (c_name C') (c_parent_block C')
                    (dict_set k (Some nv) (c_vars C'))
                    (c_aggregators C') (c_extensives C')
                    (c_extensive_aggregators C'))
  end.

(** Lines 194-222. *)
Definition fill_connectors (empty_or_partial : list nat)
    (sorted_refs : list (string * (nat * Z * nat))) : M unit :=
  for_each empty_or_partial (λ c, for_each sorted_refs (fill_field c)).

(** Modelled from the spec: the class ComponentSet (pyomo.core.kernel) is not
    among the sources.  The specification has a connector class as "a set of
    Connectors", and the code uses it as a mutable set ([add], [update],
    [len], membership, iteration).  [six.itervalues(d)] returns
    [d.itervalues()] or [iter(d.values())]; a set has neither method, so the
    attribute lookup raises AttributeError. *)
Definition itervalues_ComponentSet (connectors : list nat) : M (list nat) :=
  raise (AttributeError "values").

(** [', '.join(sorted(names))] *)
Definition join_names (names : list string) : string :=
  String.concat ", " (sorted_by id str_leb names).

Definition log_warning (msg : string) : M unit :=
  modify (λ m, Model (m_conns m) (m_vars m) (m_blocks m) (m_warnings m ++ [msg])).

(** Lines 112-224. *)
Definition validate_and_expand_connector_set (connectors : list nat)
    : M (list (string * (nat * Z * nat))) :=
  ref ← gets (λ m, collect_fields m connectors);
  match ref with
  | [] =>
      cs ← itervalues_ComponentSet connectors;
      names ← gets (λ m, (λ c, c_name (get_conn m c)) <$> cs);
      log_warning ("Cannot identify a reference connector: no connectors "
                   +:+ "in the connector set have assigned variables: ("
                   +:+ join_names names +:+ ")");;
      ret ref
  | _ :: _ =>
      checked ← gets (λ m, check_connectors m connectors ref []);
      match checked with
      | inl e => raise e
      | inr empty_or_partial =>
          let sorted_refs := sorted_items ref in
          eop ← gets (λ m, sort_empty_or_partial m empty_or_partial);
          fill_connectors eop sorted_refs;;
          ret ref
      end
  end.

(** A connector [c] disagrees with an entry [(k, (v, _len, c0))] of the
    canonical field reference, and the mismatch that names the
    disagreement. *)
Inductive disagreement (m : model) (c : nat)
    : string * (nat * Z * nat) → mismatch → Prop :=
| dis_missing k v0 n0 c0 :
    dict_get k (c_vars (get_conn m c)) = None →
    disagreement m c (k, (v0, n0, c0))
      (MissingVariable (c_name (get_conn m c)) k (c_name (get_conn m c0)))
| dis_mixed k v0 n0 c0 v :
    dict_get k (c_vars (get_conn m c)) = Some (Some v) →
    ((0 ≤ shape_code (get_conn m c) k (get_var m v))%Z ↔ ¬ (0 ≤ n0)%Z) →
    disagreement m c (k, (v0, n0, c0))
      (MixedIndexing k (c_name (get_conn m c0)) (c_name (get_conn m c)))
| dis_count k v0 n0 c0 v :
    dict_get k (c_vars (get_conn m c)) = Some (Some v) →
    (0 ≤ shape_code (get_conn m c) k (get_var m v))%Z →
    shape_code (get_conn m c) k (get_var m v) ≠ n0 →
    disagreement m c (k, (v0, n0, c0))
      (IndexCountMismatch k n0 (c_name (get_conn m c0))
         (shape_code (get_conn m c) k (get_var m v)) (c_name (get_conn m c)))
| dis_indices k v0 n0 c0 v :
    dict_get k (c_vars (get_conn m c)) = Some (Some v) →
    (0 ≤ n0)%Z →
    ¬ (∀ i, i ∈ v_index_set (get_var m v0) ↔ i ∈ v_index_set (get_var m v)) →
    disagreement m c (k, (v0, n0, c0))
      (IndexSetMismatch k (c_name (get_conn m c0)) (c_name (get_conn m c))).

(** A computation raises only exceptions of a given kind. *)
Definition only_raises {A} (P : exn → Prop) (x : M A) : Prop :=
  ∀ m e, x m = inl e → P e.

(** ** Example objects *)

Definition ex_scalar : Var :=
  mkVar (Some false) false [] (Some "NonNegativeReals") (Some (Some 0%Z, Some 10%Z)) [].

Definition ex_indexed : Var :=
  mkVar (Some true) false [1; 2] None None
    [(1, mkVarData "Reals" (Some 1%Z) None);
     (2, mkVarData "Binary" (Some 0%Z) (Some 1%Z))].

Definition ex_varlist : Var := mkVar (Some true) true [] None None [].

(** Two connectors that expose [x], one as a scalar and one indexed. *)
Definition ex_model_mixed : model :=
  Model (list_to_map
           [(1, mkConnector "a" 0 [("x", Some 10)] [] [] []);
            (2, mkConnector "b" 0 [("x", Some 11)] [] [] [])])
        (list_to_map [(10, ex_scalar); (11, ex_indexed)]) ∅ [].

(** ** Part IV.  Rewriting: [_add_connections], its [rule], and the
    substitution of [ExpandConnectors._apply_to] *)

(** [c.vars[k]] *)
Definition conn_var (c : nat) (k : string) : M (option nat) :=
  C ← gets (λ m, get_conn m c);
  match dict_get k (c_vars C) with
  | None => raise (KeyError k)
  | Some ov => mret ov
  end.

(** Modelled from the spec: the class VarList is not among the sources; an
    aggregator field is "backed by an accumulation rule (e.g., a growing
    list)".  [x.add()] for the value [x] of a field: a VarList appends a new
    element, whose index is one more than the number of elements it has, and
    returns it; None and objects without [add] raise AttributeError. *)
(** The VarList [V] after [V.add()]. *)
Definition Var_added (V : Var) : Var :=
  let i := S (length (v_data V)) in
  mkVar (v_is_indexed V) (v_varlist V) (v_index_set V ++ [i])
        (v_domain V) (v_bounds V)
        (v_data V ++ [(i, mkVarData (default "Reals" (v_domain V))
                            (default (None, None) (v_bounds V)).1
                            (default (None, None) (v_bounds V)).2)]).

Definition varlist_add (ov : option nat) : M term :=
  match ov with
  | None => raise (AttributeError "add")
  | Some v =>
      V ← gets (λ m, get_var m v);
      if v_varlist V then
        set_var v (Var_added V);;
        mret (TAdd v (S (length (v_data V))))
      else raise (AttributeError "add")
  end.

(** [x[args]] for the value [x] of a field: a scalar variable accepts the
    index None, an indexed variable an index of its index set. *)
Definition var_getitem (ov : option nat) (args : option (list nat)) : M term :=
  match ov with
  | None => raise TypeError
  | Some v =>
      V ← gets (λ m, get_var m v);
      match v_is_indexed V, args with
      | None, _ => raise TypeError
      | Some false, None => mret (TGetItem v None)
      | Some false, Some _ => raise (KeyError "index")
      | Some true, Some [i] =>
          if decide (i ∈ v_index_set V) then mret (TGetItem v args)
          else raise (KeyError "index")
      | Some true, _ => raise (KeyError "index")
      end
  end.

(** Lines 297-302: the operand that [rule] appends to [tmp] for one
    connector. *)
Definition rule_term (k : string) (evar : option nat) (args : option (list nat))
    (c : nat) : M term :=
  C ← gets (λ m, get_conn m c);
  if dict_has k (c_aggregators C) then
    ov ← conn_var c k; varlist_add ov
  else if dict_has k (c_extensives C) then
    match evar with
    | Some e => mret (TVar e)
    | None => raise (NameError "evar")
    end
  else
    ov ← conn_var c k; var_getitem ov args.

(** Lines 295-302: [tmp]. *)
Fixpoint rule_terms (k : string) (evar : option nat) (args : option (list nat))
    (conn_set : list nat) : M (list term) :=
  match conn_set with
  | [] => mret []
  | c :: rest =>
      t ← rule_term k evar args c;
      ts ← rule_terms k evar args rest;
      mret (t :: ts)
  end.

(** Lines 291-303: [rule(m, *args)] for the closure over [k], [conn_set]
    and [evar]; [conn_set] is given in the order in which iterating it
    yields its members. *)
Definition rule (k : string) (conn_set : list nat) (evar : option nat)
    (args : list nat) : M expr :=
  let args' := match args with [] => None | _ :: _ => Some args end in
  tmp ← rule_terms k evar args' conn_set;
  match tmp with
  | t0 :: t1 :: _ => mret (EEq t0 t1)
  | _ => raise IndexError
  end.

(** The first [etype] of [c.extensives] whose dictionary has the field [k]
    (lines 276-277, left by [break]). *)
Definition extensive_type (C : Connector) (k : string) : option string :=
  fst <$> List.find (λ ed, dict_has k ed.2) (c_extensives C).

(** [c.extensives[etype][k].append(evar)] *)
Definition append_evar (c : nat) (etype k : string) (evar : nat) : M unit :=
  C ← gets (λ m, get_conn m c);
  let d := default [] (dict_get etype (c_extensives C)) in
  let l := default [] (dict_get k d) in
  set_conn c (mkConnector (c_name C) (c_parent_block C) (c_vars C)
                (c_aggregators C)
                (dict_set etype (dict_set k (l ++ [evar]) d) (c_extensives C))
                (c_extensive_aggregators C)).

(** Lines 275-286 for one connector; the state is [(cont, once, evar)]. *)
Definition extensive_step (blk : nat) (k : string)
    (st : bool * bool * option nat) (c : nat) : M (bool * bool * option nat) :=
  C ← gets (λ m, get_conn m c);
  match extensive_type C k with
  | None => mret st
  | Some etype =>
      if st.1.2 then
        match st.2 with
        | Some e => append_evar c etype k e;; mret (true, st.1.2, st.2)
        | None => raise (NameError "evar")
        end
      else
        ov ← conn_var c k;
        match ov with
        | None => raise (AttributeError "index_set")
        | Some v =>
            V ← gets (λ m, get_var m v);
            e ← new_var_id;
            set_var e (Var_new (Some (v_index_set V)) None None);;
            add_component blk k (CVar e);;
            append_evar c etype k e;;
            mret (st.1.1, true, Some e)
        end
  end.

Fixpoint extensive_steps (blk : nat) (k : string)
    (st : bool * bool * option nat) (conn_set : list nat)
    : M (bool * bool * option nat) :=
  match conn_set with
  | [] => mret st
  | c :: rest => st' ← extensive_step blk k st c; extensive_steps blk k st' rest
  end.

(** Lines 270-305 for one item [(k, v)] of the sorted reference; [evar] is
    the local variable of that name, which keeps its value from one field to
    the next. *)
Definition connect_field (blk : nat) (conn_set : list nat) (evar : option nat)
    (kv : string * (nat * Z * nat)) : M (option nat) :=
  extensive_steps blk kv.1 (false, false, evar) conn_set
  ≫= λ st : bool * bool * option nat,
  if st.1.1 then mret st.2
  else
    V0 ← gets (λ m, get_var m kv.2.1.1);
    add_component blk (kv.1 +:+ "_equality")
      (CConstraint (mkConstraint (v_index_set V0) kv.1 conn_set st.2));;
    mret st.2.

Fixpoint connect_fields (blk : nat) (conn_set : list nat) (evar : option nat)
    (items : list (string * (nat * Z * nat))) : M unit :=
  match items with
  | [] => mret tt
  | kv :: rest =>
      evar' ← connect_field blk conn_set evar kv;
      connect_fields blk conn_set evar' rest
  end.

(** Lines 260-305.  [conn_set] is the connector set in iteration order;
    [known_conn_sets] is keyed by the address of a class's set. *)
Definition add_connections (blk : nat) (conn_set : list nat)
    (matched : gmap nat nat)
    (known_conn_sets : gmap nat (list (string * (nat * Z * nat)))) : M unit :=
  let conn_set := if decide (length conn_set = 1) then conn_set ++ conn_set
                  else conn_set in
  match conn_set with
  | [] => raise StopIteration
  | conn :: _ =>
      match matched !! conn with
      | None => raise (KeyError "matched_connectors")
      | Some a =>
          match known_conn_sets !! a with
          | None => raise (KeyError "known_conn_sets")
          | Some ref => connect_fields blk conn_set None (sorted_items ref)
          end
      end
  end.

(** Lines 372-380 of [ExpandConnectors._apply_to]: the substitution for one
    field and one index. *)
Definition substitution_term (k : string) (n0 : Z) (idx : nat) (c : nat) : M term :=
  C ← gets (λ m, get_conn m c);
  if (0 <=? n0)%Z then
    ov ← conn_var c k; var_getitem ov (Some [idx])
  else if dict_has k (c_aggregators C) then
    ov ← conn_var c k; varlist_add ov
  else
    ov ← conn_var c k;
    match ov with
    | Some v => mret (TVar v)
    | None => mret TNone
    end.

Fixpoint substitution (k : string) (n0 : Z) (idx : nat) (conn_set : list nat)
    : M (list (nat * term)) :=
  match conn_set with
  | [] => mret []
  | c :: rest =>
      t ← substitution_term k n0 idx c;
      ts ← substitution k n0 idx rest;
      mret ((c, t) :: ts)
  end.

(** ** Part V.  [_implement_extensives] *)

(** The names that line 320 can resolve: the parameters and the local
    variables of [_implement_extensives], then the names that the module
    binds (its imports, [logger] and its three classes).  A name is paired
    with the connector it is bound to, if it is bound to one. *)
Definition scope_implement_extensives (ctr : nat) : list (string * option nat) :=
  [("self", None); ("connector_list", None); ("ctr", Some ctr); ("unit", None);
   ("etype", None); ("fcn", None); ("ctns", None);
   ("logging", None); ("logger", None); ("next", None); ("iteritems", None);
   ("itervalues", None); ("OrderedDict", None); ("EXPR", None);
   ("ComponentMap", None); ("ComponentSet", None); ("alias", None);
   ("Transformation", None); ("Connector", None); ("Constraint", None);
   ("ConstraintList", None); ("Var", None); ("VarList", None);
   ("Connection", None); ("Block", None); ("SortComponents", None);
   ("_ConnectorData", None); ("SimpleConnector", None);
   ("SimpleConnection", None); ("unique_component_name", None);
   ("_ConnExpansion", None); ("ExpandConnectors", None);
   ("ExpandConnections", None)].

(** Lines 320-329 for one [etype] of [ctr.extensives].  The call of the
    registered function at line 329 is a call into the user's model; only
    that it is reached is recorded here. *)
Definition implement_extensive (ctr : nat) (etype : string) : M unit :=
  match dict_get "c" (scope_implement_extensives ctr) with
  | None => raise (NameError "c")
  | Some None => raise (AttributeError "extensive_aggregators")
  | Some (Some c) =>
      C ← gets (λ m, get_conn m c);
      CTR ← gets (λ m, get_conn m ctr);
      if negb (dict_has etype (c_extensive_aggregators C)) then
        raise (KeyError ("No aggregator in extensive_aggregators for extensive "
                         +:+ "type '" +:+ etype +:+ "' in Connector '"
                         +:+ c_name CTR +:+ "'"))
      else
        match default [] (dict_get etype (c_extensives CTR)) with
        | [] => raise StopIteration
        | _ :: _ => mret tt
        end
  end.

(** Lines 316-329. *)
Definition implement_extensives (connector_list : list nat) : M unit :=
  for_each connector_list (λ ctr,
    C ← gets (λ m, get_conn m ctr);
    for_each (fst <$> c_extensives C) (implement_extensive ctr)).

(** Lines 103-107 of [_collect_connectors]: the classes are validated in the
    order of [sorted_groups], and [known_conn_sets] is keyed by the address
    of each class's set.  [vals] is [itervalues(connector_groups)] in the
    order the dictionary yields its values. *)
Fixpoint validate_classes (groups : list (nat * nat)) (h : gmap nat (list nat))
    (known : gmap nat (list (string * (nat * Z * nat))))
    : M (gmap nat (list (string * (nat * Z * nat)))) :=
  match groups with
  | [] => mret known
  | g :: rest =>
      ref ← validate_and_expand_connector_set (deref h g.2);
      validate_classes rest h (<[g.2 := ref]> known)
  end.

Definition validate_groups (vals : list (nat * nat)) (h : gmap nat (list nat))
    : M (gmap nat (list (string * (nat * Z * nat)))) :=
  validate_classes (sorted_groups vals) h ∅.

(** [_collect_connectors] (lines 28-110). *)
Definition collect_connectors (comps : list comp)
    : M (scan_state * gmap nat (list (string * (nat * Z * nat)))) :=
  let s := scan comps in
  known ← validate_groups (group_values s) (heap s);
  mret (s, known).

(** A class none of whose members has an assigned field. *)
Definition ex_model_unassigned : model :=
  Model (list_to_map
           [(1, mkConnector "a" 0 [] [] [] []);
            (2, mkConnector "b" 0 [("x", None)] [] [] [])])
        ∅ ∅ [].

(** A connector that declares an extensive field of a type for which no
    function is registered. *)
Definition ex_model_extensive : model :=
  Model (list_to_map
           [(1, mkConnector "e" 0 [("x", Some 10)] [] [("in", [("x", [])])] [])])
        (list_to_map [(10, ex_scalar)]) (list_to_map [(5, [])]) [].

(** Connector 1 exposes [flow] through an aggregator (the VarList 20),
    connector 2 through the scalar variable 21, connector 3 through an
    aggregator again (the VarList 22); all three expose the scalar [x]. *)
Definition ex_model_aggregator : model :=
  Model (list_to_map
           [(1, mkConnector "a" 0 [("flow", Some 20)] [("flow", 99)] [] []);
            (2, mkConnector "b" 0 [("flow", Some 21)] [] [] []);
            (3, mkConnector "c" 0 [("flow", Some 22)] [("flow", 98)] [] [])])
        (list_to_map [(20, ex_varlist); (21, ex_scalar); (22, ex_varlist)])
        (list_to_map [(5, [])]) [].

(** The connectors of a connector set whose field [k] has an aggregator and
    holds the variable [v]: the calls of [add()] that building [tmp] makes on
    [v]. *)
Definition adds_on (m : model) (k : string) (conn_set : list nat) (v : nat)
    : list nat :=
  filter (λ c, dict_has k (c_aggregators (get_conn m c)) = true ∧
               dict_get k (c_vars (get_conn m c)) = Some (Some v)) conn_set.

(** The components of a block after a computation, if it returns. *)
Definition block_after {A} (r : exn + (A * model)) (b : nat)
    : option (list (string * component)) :=
  match r with
  | inl _ => None
  | inr (_, m') => Some (get_block m' b)
  end.



(** Two variables that differ at most in the data of their elements. *)
Definition same_attrs (V V' : Var) : Prop :=
  v_is_indexed V' = v_is_indexed V ∧ v_varlist V' = v_varlist V ∧
  v_index_set V' = v_index_set V ∧ v_domain V' = v_domain V ∧
  v_bounds V' = v_bounds V.

(** The variable [NV] created for a field whose canonical entry has the
    variable [V0] and the shape code [n0]: it is indexed over the index set
    of [V0] when the shape code is not negative and scalar otherwise; its
    domain and bounds are those of [V0] where [V0] has the attribute (Reals
    and no bounds where it has not); when it is indexed, each of its elements
    has the domain and the bounds of the element of [V0] at the same index. *)
Definition mirrors (NV V0 : Var) (n0 : Z) : Prop :=
  v_varlist NV = false ∧
  v_is_indexed NV = Some (bool_decide (0 ≤ n0)%Z) ∧
  v_index_set NV = (if bool_decide (0 ≤ n0)%Z then v_index_set V0 else []) ∧
  v_domain NV = Some (default "Reals" (v_domain V0)) ∧
  v_bounds NV = Some (default (None, None) (v_bounds V0)) ∧
  ((0 ≤ n0)%Z → ∀ i, i ∈ v_index_set V0 →
     ∃ x, data_get i (v_data V0) = Some x ∧ data_get i (v_data NV) = Some x).

(** In the store [mi], reached from [m0], the connector [c] holds for the
    field of the entry [kv] a variable that did not exist in [m0], that is
    attached to the parent block of [c] under the name
    [<name of c>.auto.<field>], and that mirrors the canonical variable. *)
Definition filled (m0 mi : model) (c : nat) (kv : string * (nat * Z * nat))
    : Prop :=
  ∃ nv, m_vars m0 !! nv = None ∧ is_Some (m_vars mi !! nv) ∧
    dict_get kv.1 (c_vars (get_conn mi c)) = Some (Some nv) ∧
    (c_name (get_conn m0 c) +:+ ".auto." +:+ kv.1, CVar nv)
      ∈ get_block mi (c_parent_block (get_conn m0 c)) ∧
    mirrors (get_var mi nv) (get_var m0 kv.2.1.1) kv.2.1.2.

(** The connector lacks the field, or has it with the value None. *)
Definition unassigned (m : model) (c : nat) (k : string) : Prop :=
  dict_get k (c_vars (get_conn m c)) = None ∨
  dict_get k (c_vars (get_conn m c)) = Some None.

(** The invariant of lines 194-222. *)
Definition fill_inv (m0 : model) (refs : list (string * (nat * Z * nat)))
    (mi : model) : Prop :=
  (∀ v V, m_vars m0 !! v = Some V → m_vars mi !! v = Some V) ∧
  (∀ c, c_name (get_conn mi c) = c_name (get_conn m0 c) ∧
        c_parent_block (get_conn mi c) = c_parent_block (get_conn m0 c)) ∧
  (∀ c k,
     dict_get k (c_vars (get_conn mi c)) = dict_get k (c_vars (get_conn m0 c)) ∨
     (unassigned m0 c k ∧ ∃ kv, kv ∈ refs ∧ kv.1 = k ∧ filled m0 mi c kv)).

(** Connector 1 exposes [flow] through an aggregator (the VarList 20);
    connector 4 has no field at all. *)
Definition ex_model_empty : model :=
  Model (list_to_map
           [(1, mkConnector "a" 0 [("flow", Some 20)] [("flow", 99)] [] []);
            (4, mkConnector "d" 7 [] [] [] [])])
        (list_to_map [(20, ex_varlist)]) ∅ [].

(** Two connectors that expose the scalar [x]. *)
Definition ex_model_pair : model :=
  Model (list_to_map
           [(1, mkConnector "a" 0 [("x", Some 10)] [] [] []);
            (2, mkConnector "b" 0 [("x", Some 12)] [] [] [])])
        (list_to_map [(10, ex_scalar); (12, ex_scalar)])
        (list_to_map [(5, [])]) [].

(** The connector holds a variable for the field. *)
Definition assigned (m : model) (c : nat) (k : string) : Prop :=
  ∃ v, dict_get k (c_vars (get_conn m c)) = Some (Some v).


(** What the operand of [rule] for the member [c] needs in order to be
    built (lines 297-302): an aggregator field holds a VarList; an extensive
    field needs the extensive variable; any other field holds a variable
    that takes the index [args], None for a scalar one and an index of its
    index set for an indexed one. *)
Definition accessible (m : model) (k : string) (evar : option nat)
    (args : option (list nat)) (c : nat) : Prop :=
  if dict_has k (c_aggregators (get_conn m c)) then
    ∃ v, dict_get k (c_vars (get_conn m c)) = Some (Some v) ∧
         v_varlist (get_var m v) = true
  else if dict_has k (c_extensives (get_conn m c)) then is_Some evar
  else
    ∃ v, dict_get k (c_vars (get_conn m c)) = Some (Some v) ∧
      match v_is_indexed (get_var m v), args with
      | Some false, None => True
      | Some true, Some [i] => i ∈ v_index_set (get_var m v)
      | _, _ => False
      end.

(** The members of a list, each once, in the order of their first
    occurrences. *)
Fixpoint first_seen (l : list nat) : list nat :=
  match l with
  | [] => []
  | c :: l' => c :: filter (λ x, x ≠ c) (first_seen l')
  end.

Definition same_kind (a b : comp_type) : bool :=
  match a, b with
  | IsConstraint, IsConstraint | IsConnection, IsConnection => true
  | _, _ => false
  end.

(** The records [(comp, found)] that a scan of [comps] leaves for the
    components of one type: one for each component that yields a connector,
    in the order of the scan, with the connectors that the component
    yields. *)
Definition recorded (kind : comp_type) (comps : list comp)
    : list (comp * list nat) :=
  (λ cp, (cp, first_seen (comp_itr cp))) <$>
    filter (λ cp, same_kind (comp_kind cp) kind = true ∧ comp_itr cp ≠ []) comps.

(** The first connector, in the order in which the class yields its
    members, that holds a variable for the field [k], with the entry that
    line 129 makes for it. *)
Fixpoint first_writer (m : model) (k : string) (connectors : list nat)
    : option (nat * Z * nat) :=
  match connectors with
  | [] => None
  | c :: rest =>
      match dict_get k (c_vars (get_conn m c)) with
      | Some (Some v) => Some (v, shape_code (get_conn m c) k (get_var m v), c)
      | _ => first_writer m k rest
      end
  end.

(** The second store keeps what the first has: every variable as it is,
    every component of every block, with nothing put before it, the
    warnings, and of every connector the name, the parent block, the
    aggregators, the extensives and each field that holds a variable. *)
Definition extends (m m' : model) : Prop :=
  (∀ v V, m_vars m !! v = Some V → m_vars m' !! v = Some V) ∧
  (∀ b, get_block m b `prefix_of` get_block m' b) ∧
  m_warnings m' = m_warnings m ∧
  (∀ c, c_name (get_conn m' c) = c_name (get_conn m c) ∧
        c_parent_block (get_conn m' c) = c_parent_block (get_conn m c) ∧
        c_aggregators (get_conn m' c) = c_aggregators (get_conn m c) ∧
        c_extensives (get_conn m' c) = c_extensives (get_conn m c) ∧
        c_extensive_aggregators (get_conn m' c)
          = c_extensive_aggregators (get_conn m c)) ∧
  (∀ c k v, dict_get k (c_vars (get_conn m c)) = Some (Some v) →
            dict_get k (c_vars (get_conn m' c)) = Some (Some v)).

(** Connector 1 exposes [flow] through an aggregator (the VarList 20),
    connector 2 through the indexed variable 11. *)
Definition ex_model_aggregator_indexed : model :=
  Model (list_to_map
           [(1, mkConnector "a" 0 [("flow", Some 20)] [("flow", 99)] [] []);
            (2, mkConnector "b" 0 [("flow", Some 11)] [] [] [])])
        (list_to_map [(20, ex_varlist); (11, ex_indexed)]) ∅ [].

(** Connector 2 exposes the indexed [x]; connector 3 has the field with no
    variable assigned. *)
Definition ex_model_indexed_pair : model :=
  Model (list_to_map
           [(2, mkConnector "b" 0 [("x", Some 11)] [] [] []);
            (3, mkConnector "c" 6 [("x", None)] [] [] [])])
        (list_to_map [(11, ex_indexed)]) ∅ [].

(** ** Part VI.  The expansion of a constraint: [ExpandConnectors._apply_to] *)

(** [[f x for x in l]] for a computation [f], left to right. *)
Fixpoint map_M {A B} (f : A → M B) (l : list A) : M (list B) :=
  match l with
  | [] => mret []
  | x :: l' => y ← f x; ys ← map_M f l'; mret (y :: ys)
  end.

(** Modelled from the spec: the class Var is not among the sources.  For an
    indexed field the loop of line 371 runs over the canonical variable
    itself; "if field is indexed, iterate every index in the canonical index
    set".  For any other field [_iter] is the tuple [(v[0],)], and [idx] is
    bound once, to the canonical variable. *)
Definition field_iter (V0 : Var) (v0 : nat) (n0 : Z) : list nat :=
  if (0 <=? n0)%Z then v_index_set V0 else [v0].

(** Lines 367-384 for one item of the sorted reference.  The result is the
    list of the dictionaries [substitution] of the constraints given to
    [cList.add], one for each [idx]; each constraint has the bounds of the
    original one and its body with these substitutions, so the dictionary
    stands for it. *)
Definition expand_field (conn_set : list nat) (kv : string * (nat * Z * nat))
    : M (list (list (nat * term))) :=
  V0 ← gets (λ m, get_var m kv.2.1.1);
  map_M (λ idx, substitution kv.1 kv.2.1.2 idx conn_set)
        (field_iter V0 kv.2.1.1 kv.2.1.2).

(** Lines 364-384 for one record [(constraint, conn_set)]: the
    substitutions of the constraints that [cList] receives, in order.  The
    list container itself (lines 360-363) and the deactivation of the
    original constraint (line 385) are operations of the component
    containers. *)
Definition expand_constraint (conn_set : list nat) (matched : gmap nat nat)
    (known_conn_sets : gmap nat (list (string * (nat * Z * nat))))
    : M (list (list (nat * term))) :=
  match conn_set with
  | [] => raise StopIteration
  | connId :: _ =>
      match matched !! connId with
      | None => raise (KeyError "matched_connectors")
      | Some a =>
          match known_conn_sets !! a with
          | None => raise (KeyError "known_conn_sets")
          | Some ref =>
              ls ← map_M (expand_field conn_set) (sorted_items ref);
              mret (concat ls)
          end
      end
  end.

(** The operand that stands for the connector [c] in the constraint of the
    field of [kv] at [idx], when no aggregator is involved: the element at
    [idx] of the connector's variable for an indexed field, the variable
    itself otherwise. *)
Definition member_term (m : model) (kv : string * (nat * Z * nat)) (idx : nat)
    (c : nat) : nat * term :=
  (c, match dict_get kv.1 (c_vars (get_conn m c)) with
      | Some (Some v) =>
          if (0 <=? kv.2.1.2)%Z then TGetItem v (Some [idx]) else TVar v
      | _ => TNone
      end).

(** The constraints that one record expands to: for each field of the
    reference, in the order of the field names, one per index of the
    canonical index set when the field is indexed and one otherwise; each
    maps every connector of the record, in order. *)
Definition expanded_constraints (m m' : model) (conn_set : list nat)
    (ref : list (string * (nat * Z * nat))) : list (list (nat * term)) :=
  concat ((λ kv, (λ idx, member_term m' kv idx <$> conn_set)
                   <$> field_iter (get_var m kv.2.1.1) kv.2.1.1 kv.2.1.2)
            <$> sorted_items ref).

(** ** Part VII.  [_build_connections] *)

(** An OrderedDict keyed by the identity of a component: an association
    list in the order in which the keys were first set. *)
Section odict.
Context {V : Type}.

Fixpoint odict_get (k : nat) (d : list (nat * V)) : option V :=
  match d with
  | [] => None
  | (k', v) :: d' => if decide (k = k') then Some v else odict_get k d'
  end.

Fixpoint odict_set (k : nat) (v : V) (d : list (nat * V)) : list (nat * V) :=
  match d with
  | [] => [(k, v)]
  | (k', v') :: d' =>
      if decide (k = k') then (k, v) :: d' else (k', v') :: odict_set k v d'
  end.

End odict.

(** [_build_connections] (lines 226-258).  What it asks of the component
    containers is not among the sources and is left open here:
    [is_simple ctn] is [isinstance(ctn, SimpleConnection)];
    [parent_component ctn] is the identity of [ctn.parent_component()];
    [new_block ctn] stands for lines 236-242, and [new_indexed_block ictn]
    for lines 248-253 (a block is made, named, attached to the parent block
    and recorded as [_expanded_block]; the result is the block);
    [block_at blk ctn] is [blk[ctn.index()]]; [deactivate_connection] and
    [deactivate_component] are the calls of [deactivate()] at lines 245 and
    258. *)
Section build_connections.
Context (is_simple : comp → bool) (parent_component : comp → nat)
        (new_block : comp → M nat) (new_indexed_block : nat → M nat)
        (block_at : nat → comp → M nat)
        (deactivate_connection : comp → M unit)
        (deactivate_component : nat → M unit)
        (matched : gmap nat nat)
        (known_conn_sets : gmap nat (list (string * (nat * Z * nat)))).

(** Lines 232-234: the record joins the list of its parent component. *)
Definition add_indexed (indexed_ctns : list (nat * list (comp * list nat)))
    (r : comp * list nat) : list (nat * list (comp * list nat)) :=
  let lst := default [] (odict_get (parent_component r.1) indexed_ctns) in
  odict_set (parent_component r.1) (lst ++ [r]) indexed_ctns.

(** Lines 236-245 for one simple connection. *)
Definition expand_simple (r : comp * list nat) : M unit :=
  blk ← new_block r.1;
  add_connections blk r.2 matched known_conn_sets;;
  deactivate_connection r.1.

(** Lines 229-245; the result is [indexed_ctns]. *)
Fixpoint build_simple (connection_list : list (comp * list nat))
    (indexed_ctns : list (nat * list (comp * list nat)))
    : M (list (nat * list (comp * list nat))) :=
  match connection_list with
  | [] => mret indexed_ctns
  | r :: rest =>
      if is_simple r.1 then expand_simple r;; build_simple rest indexed_ctns
      else build_simple rest (add_indexed indexed_ctns r)
  end.

(** Lines 248-258 for one indexed connection and its records. *)
Definition expand_indexed (g : nat * list (comp * list nat)) : M unit :=
  blk ← new_indexed_block g.1;
  for_each g.2 (λ r,
    b ← block_at blk r.1;
    add_connections b r.2 matched known_conn_sets);;
  deactivate_component g.1.

Definition build_connections (connection_list : list (comp * list nat))
    : M unit :=
  indexed_ctns ← build_simple connection_list [];
  for_each indexed_ctns expand_indexed.

(** The records of the connections that are not simple, grouped: one group
    for each parent component, the groups in the order in which their
    parents first occur, and each group with the records of its parent in
    the order of the list. *)
Definition grouped (connection_list : list (comp * list nat))
    : list (nat * list (comp * list nat)) :=
  let indexed := filter (λ r, is_simple r.1 = false) connection_list in
  (λ p, (p, filter (λ r, parent_component r.1 = p) indexed))
    <$> first_seen ((λ r, parent_component r.1) <$> indexed).

End build_connections.

(** [c.extensives[etype][k]] for the type that lines 276-277 find for the
    field [k]: the extensive variables recorded for the field. *)
Definition evars_of (C : Connector) (k : string) : list nat :=
  match extensive_type C k with
  | Some etype =>
      default [] (dict_get k (default [] (dict_get etype (c_extensives C))))
  | None => []
  end.

(** The connector after [c.extensives[etype][k].append(evar)]. *)
Definition appended (C : Connector) (etype k : string) (evar : nat) : Connector :=
  mkConnector (c_name C) (c_parent_block C) (c_vars C) (c_aggregators C)
    (dict_set etype
       (dict_set k
          (default [] (dict_get k (default [] (dict_get etype (c_extensives C))))
           ++ [evar])
          (default [] (dict_get etype (c_extensives C))))
       (c_extensives C))
    (c_extensive_aggregators C).

(** The second store differs from the first, as far as connectors go, in
    the extensive variables recorded for the field [k] only: the connector
    [c] has [n c] times the variable [e] more, at the end. *)
Definition evar_appended (m m' : model) (k : string) (e : nat) (n : nat → nat)
    : Prop :=
  ∀ c,
    c_name (get_conn m' c) = c_name (get_conn m c) ∧
    c_parent_block (get_conn m' c) = c_parent_block (get_conn m c) ∧
    c_vars (get_conn m' c) = c_vars (get_conn m c) ∧
    c_aggregators (get_conn m' c) = c_aggregators (get_conn m c) ∧
    c_extensive_aggregators (get_conn m' c)
      = c_extensive_aggregators (get_conn m c) ∧
    fst <$> c_extensives (get_conn m' c) = fst <$> c_extensives (get_conn m c) ∧
    (∀ k', extensive_type (get_conn m' c) k' = extensive_type (get_conn m c) k') ∧
    evars_of (get_conn m' c) k = evars_of (get_conn m c) k ++ replicate (n c) e ∧
    (∀ k', k' ≠ k → evars_of (get_conn m' c) k' = evars_of (get_conn m c) k').

(** The members of a connector set that declare the field extensive, in the
    order of the set. *)
Definition declaring (m : model) (k : string) (conn_set : list nat) : list nat :=
  filter (λ c, is_Some (extensive_type (get_conn m c) k)) conn_set.

(** Connector 1 declares the scalar field [x] extensive, of the type [in];
    connector 2 exposes [x] as a plain scalar. *)
Definition ex_model_extensive_pair : model :=
  Model (list_to_map
           [(1, mkConnector "e" 0 [("x", Some 10)] [] [("in", [("x", [])])] []);
            (2, mkConnector "b" 0 [("x", Some 12)] [] [] [])])
        (list_to_map [(10, ex_scalar); (12, ex_scalar)])
        (list_to_map [(5, [])]) [].

(** The test of lines 142-159 for one connector: it is empty, or it has a
    field of the reference with the value None. *)
Definition needs_fill (m : model) (ref : list (string * (nat * Z * nat)))
    (c : nat) : bool :=
  bool_decide (c_vars (get_conn m c) = []) ||
  existsb (λ entry, bool_decide (dict_get entry.1 (c_vars (get_conn m c))
                                 = Some None)) ref.

(** The names under which variables are attached to the block [b] when the
    connectors of [eop] are filled in that order, each with the fields of
    [refs] in that order that it lacks. *)
Definition auto_names (m : model) (eop : list nat)
    (refs : list (string * (nat * Z * nat))) (b : nat) : list string :=
  concat ((λ c, concat ((λ kv,
             if decide (c_parent_block (get_conn m c) = b ∧ unassigned m c kv.1)
             then [c_name (get_conn m c) +:+ ".auto." +:+ kv.1] else [])
            <$> refs)) <$> eop).

(** * Properties *)

(** ** ComponentSet operations *)

Lemma elem_of_cs_add c x s : x ∈ cs_add c s ↔ x = c ∨ x ∈ s.
Proof.
  unfold cs_add. case_decide; set_solver.
Qed.

Lemma NoDup_cs_add c s : NoDup s → NoDup (cs_add c s).
Proof.
  intros Hs. unfold cs_add. case_decide; [done|].
  apply NoDup_app. split_and!; [done| |apply NoDup_singleton].
  intros x Hx Hx'. apply list_elem_of_singleton in Hx'. by subst.
Qed.

Lemma cs_add_not_nil c s : cs_add c s ≠ [].
Proof.
  unfold cs_add. case_decide as H.
  - intros ->. by apply not_elem_of_nil in H.
  - by destruct s.
Qed.

Lemma elem_of_cs_update s src x : x ∈ cs_update s src ↔ x ∈ s ∨ x ∈ src.
Proof.
  unfold cs_update. revert s. induction src as [|i src IH]; intros s; simpl.
  - set_solver.
  - rewrite IH, elem_of_cs_add. set_solver.
Qed.

Lemma NoDup_cs_update s src : NoDup s → NoDup (cs_update s src).
Proof.
  unfold cs_update. revert s. induction src as [|i src IH]; intros s Hs; simpl.
  - done.
  - by apply IH, NoDup_cs_add.
Qed.

Lemma lookup_repoint r src mc x :
  repoint r src mc !! x = if decide (x ∈ src) then Some r else mc !! x.
Proof.
  unfold repoint. revert mc. induction src as [|i src IH]; intros mc.
  - rewrite decide_False by apply not_elem_of_nil. done.
  - cbn [foldl]. rewrite IH. destruct (decide (x = i)) as [->|Hne].
    + rewrite lookup_insert_eq, (decide_True (P := i ∈ i :: src)) by left.
      by case_decide.
    + rewrite lookup_insert_ne by done.
      destruct (decide (x ∈ src)) as [Hin|Hin].
      * by rewrite decide_True by (by right).
      * rewrite decide_False; [done|]. intros [?|?]%elem_of_cons; done.
Qed.

(** ** The scan keeps its invariant and joins exactly what it should *)

Lemma same_class_sym s x y : same_class s x y → same_class s y x.
Proof. intros (a & ? & ?). by exists a. Qed.

Lemma same_class_trans s x y z :
  same_class s x y → same_class s y z → same_class s x z.
Proof. intros (a & ? & ?) (b & ? & ?). exists a. by simplify_eq. Qed.

Lemma same_class_refl s x a :
  matched_connectors s !! x = Some a → same_class s x x.
Proof. intros. by exists a. Qed.

Lemma scan_wf_init : scan_wf scan_init.
Proof.
  split; simpl; try done.
  - intros c. split; [by intros ?%not_elem_of_nil|].
    intros [? H]. by rewrite lookup_empty in H.
  - constructor.
Qed.

Lemma visit_seen_first s c m :
  scan_wf s → matched_connectors s !! c = Some m →
  ∃ s', visit c (s, None) = (s', Some m) ∧ visit_post s None c s' (Some m).
Proof.
  intros Hwf Hc. eexists. split.
  { unfold visit. rewrite Hc. reflexivity. }
  split.
  { destruct Hwf. by split. }
  exists m. simpl. split_and!; [done|done|done|].
  intros x y. split; [by left|]. intros [H|[Hx Hy]]; [done|].
  assert (∀ z, joined s None c z → same_class s z c) as Hj.
  { intros z [->|[?|(r & ? & ?)]]; [by eapply same_class_refl|done|done]. }
  eapply same_class_trans; [by apply Hj|]. by apply same_class_sym, Hj.
Qed.

Lemma visit_seen_same s c m :
  scan_wf s → matched_connectors s !! c = Some m →
  ∃ s', visit c (s, Some m) = (s', Some m) ∧ visit_post s (Some m) c s' (Some m).
Proof.
  intros Hwf Hc. eexists. split.
  { unfold visit. rewrite Hc. rewrite decide_True by done. reflexivity. }
  split.
  { destruct Hwf. by split. }
  exists m. simpl. split_and!; [done|done|naive_solver|].
  intros x y. split; [by left|]. intros [H|[Hx Hy]]; [done|].
  assert (∀ z, joined s (Some m) c z → matched_connectors s !! z = Some m) as Hj.
  { intros z [->|[(a & ? & ?)|(r & ? & ?)]]; by simplify_eq. }
  exists m. split; by apply Hj.
Qed.

Lemma deref_insert_eq h a v : deref (<[a := v]> h) a = v.
Proof. unfold deref. by rewrite lookup_insert_eq. Qed.

Lemma deref_insert_ne h a b v : a ≠ b → deref (<[a := v]> h) b = deref h b.
Proof. intros. unfold deref. by rewrite lookup_insert_ne. Qed.

Lemma visit_new_first s c :
  scan_wf s → matched_connectors s !! c = None →
  ∃ s', visit c (s, None) = (s', Some (next_addr s)) ∧
        visit_post s None c s' (Some (next_addr s)).
Proof.
  intros Hwf Hc. eexists. split.
  { unfold visit. rewrite Hc. reflexivity. }
  set (r := next_addr s).
  assert (∀ a g b, connector_groups s !! a = Some (g, b) → a ≠ r) as Hfresh.
  { intros a g b Ha. destruct (wf_grp s Hwf a g b Ha) as (_ & ? & _). unfold r. lia. }
  split.
  { split; simpl.
    - intros x a Hx. destruct (decide (x = c)) as [->|Hne].
      + rewrite lookup_insert_eq in Hx. simplify_eq. exists (groupID s).
        rewrite lookup_insert_eq, deref_insert_eq. split; [done|].
        apply elem_of_cs_add. by left.
      + rewrite lookup_insert_ne in Hx by done.
        destruct (wf_mc s Hwf x a Hx) as (g & Hg & Hin).
        exists g. pose proof (Hfresh _ _ _ Hg).
        by rewrite lookup_insert_ne, deref_insert_ne.
    - intros a g b Ha. destruct (decide (a = r)) as [->|Hne].
      + rewrite lookup_insert_eq in Ha. simplify_eq. rewrite deref_insert_eq.
        split_and!; [done|lia|lia|apply cs_add_not_nil|apply NoDup_cs_add; constructor|].
        intros x [->|Hx%not_elem_of_nil]%elem_of_cs_add; [|done].
        by rewrite lookup_insert_eq.
      + rewrite lookup_insert_ne in Ha by done.
        destruct (wf_grp s Hwf a g b Ha) as (? & ? & ? & ? & ? & Hm).
        rewrite deref_insert_ne by done.
        split_and!; [done|lia|lia|done|done|].
        intros x Hx. rewrite lookup_insert_ne; [by apply Hm|].
        intros <-. apply Hm in Hx. congruence.
    - intros a1 a2 g b1 b2 H1 H2.
      destruct (decide (a1 = r)) as [->|Hn1], (decide (a2 = r)) as [->|Hn2];
        [done| | |].
      + rewrite lookup_insert_eq in H1. rewrite lookup_insert_ne in H2 by done.
        simplify_eq. destruct (wf_grp s Hwf _ _ _ H2) as (_ & _ & ? & _). lia.
      + rewrite lookup_insert_eq in H2. rewrite lookup_insert_ne in H1 by done.
        simplify_eq. destruct (wf_grp s Hwf _ _ _ H1) as (_ & _ & ? & _). lia.
      + rewrite lookup_insert_ne in H1, H2 by done. by eapply (wf_gid s Hwf).
    - intros x. rewrite elem_of_app, list_elem_of_singleton, (wf_list s Hwf).
      destruct (decide (x = c)) as [->|Hne].
      + rewrite lookup_insert_eq. naive_solver.
      + rewrite lookup_insert_ne by done. naive_solver.
    - apply NoDup_app. split_and!; [apply (wf_nodup s Hwf)| |apply NoDup_singleton].
      intros x Hx ->%list_elem_of_singleton.
      apply (wf_list s Hwf) in Hx. rewrite Hc in Hx. by destruct Hx. }
  exists r. simpl. split_and!; [done|by rewrite lookup_insert_eq|done|].
  assert (∀ z, joined s None c z ↔ z = c) as Hj.
  { intros z. split; [|by left].
    intros [->|[(a & ? & ?)|(? & ? & ?)]]; [done|congruence|done]. }
  intros x y. rewrite !Hj. unfold same_class; simpl. split.
  - intros (a & Hx & Hy).
    destruct (decide (x = c)) as [->|Hnx], (decide (y = c)) as [->|Hny];
      [by right| | |].
    + rewrite lookup_insert_eq in Hx. rewrite lookup_insert_ne in Hy by done.
      simplify_eq. destruct (wf_mc s Hwf _ _ Hy) as (g & Hg & _).
      by destruct (Hfresh _ _ _ Hg).
    + rewrite lookup_insert_eq in Hy. rewrite lookup_insert_ne in Hx by done.
      simplify_eq. destruct (wf_mc s Hwf _ _ Hx) as (g & Hg & _).
      by destruct (Hfresh _ _ _ Hg).
    + rewrite lookup_insert_ne in Hx, Hy by done. left. by exists a.
  - intros [(a & Hx & Hy)|[-> ->]].
    + exists a. rewrite !lookup_insert_ne; [done| |]; congruence.
    + exists r. by rewrite lookup_insert_eq.
Qed.

Lemma visit_new_joined s c r :
  scan_wf s → matched_connectors s !! c = None →
  is_Some (connector_groups s !! r) →
  ∃ s', visit c (s, Some r) = (s', Some r) ∧ visit_post s (Some r) c s' (Some r).
Proof.
  intros Hwf Hc [[g0 b0] Hr]. eexists. split.
  { unfold visit. rewrite Hc. reflexivity. }
  destruct (wf_grp s Hwf r g0 b0 Hr) as (-> & Hr1 & Hr2 & Hr3 & Hr4 & Hr5).
  split.
  { split; simpl.
    - intros x a Hx. destruct (decide (x = c)) as [->|Hne].
      + rewrite lookup_insert_eq in Hx. simplify_eq. exists g0.
        rewrite deref_insert_eq. split; [done|]. apply elem_of_cs_add. by left.
      + rewrite lookup_insert_ne in Hx by done.
        destruct (wf_mc s Hwf x a Hx) as (g & Hg & Hin). exists g. split; [done|].
        destruct (decide (r = a)) as [->|Hra].
        * rewrite deref_insert_eq. apply elem_of_cs_add. by right.
        * by rewrite deref_insert_ne.
    - intros a g b Ha.
      destruct (wf_grp s Hwf a g b Ha) as (? & ? & ? & ? & ? & Hm).
      destruct (decide (r = a)) as [->|Hra].
      + rewrite deref_insert_eq.
        split_and!; [done|lia|lia|apply cs_add_not_nil|by apply NoDup_cs_add|].
        intros x [->|Hx]%elem_of_cs_add; [by rewrite lookup_insert_eq|].
        rewrite lookup_insert_ne; [by apply Hm|].
        intros <-. apply Hm in Hx. congruence.
      + rewrite deref_insert_ne by done.
        split_and!; [done|lia|lia|done|done|].
        intros x Hx. rewrite lookup_insert_ne; [by apply Hm|].
        intros <-. apply Hm in Hx. congruence.
    - apply (wf_gid s Hwf).
    - intros x. rewrite elem_of_app, list_elem_of_singleton, (wf_list s Hwf).
      destruct (decide (x = c)) as [->|Hne].
      + rewrite lookup_insert_eq. naive_solver.
      + rewrite lookup_insert_ne by done. naive_solver.
    - apply NoDup_app. split_and!; [apply (wf_nodup s Hwf)| |apply NoDup_singleton].
      intros x Hx ->%list_elem_of_singleton.
      apply (wf_list s Hwf) in Hx. rewrite Hc in Hx. by destruct Hx. }
  exists r. simpl. split_and!; [done|by rewrite lookup_insert_eq| |].
  { intros r' x [= <-] Hx. rewrite lookup_insert_ne; [done|]. congruence. }
  assert (∀ z, joined s (Some r) c z ↔
               z = c ∨ matched_connectors s !! z = Some r) as Hj.
  { intros z. split.
    - intros [->|[(a & ? & ?)|(? & ? & ?)]]; [by left|congruence|]. right. congruence.
    - intros [->|?]; [by left|]. right; right. by exists r. }
  assert (∀ z, z = c ∨ matched_connectors s !! z = Some r ↔
               <[c := r]> (matched_connectors s) !! z = Some r) as Hk.
  { intros z. destruct (decide (z = c)) as [->|Hne].
    - rewrite lookup_insert_eq. naive_solver.
    - rewrite lookup_insert_ne by done. naive_solver. }
  intros x y. rewrite !Hj, !Hk. unfold same_class; simpl. split.
  - intros (a & Hx & Hy). destruct (decide (a = r)) as [->|Hne]; [by right|].
    left. exists a.
    destruct (decide (x = c)) as [->|Hnx];
      [rewrite lookup_insert_eq in Hx; congruence|].
    destruct (decide (y = c)) as [->|Hny];
      [rewrite lookup_insert_eq in Hy; congruence|].
    by rewrite lookup_insert_ne in Hx, Hy by done.
  - intros [(a & Hx & Hy)|[Hx Hy]]; [|by exists r].
    exists a. rewrite !lookup_insert_ne; [done| |]; congruence.
Qed.

Lemma merged_lookup s fnd w l x :
  scan_wf s → is_Some (connector_groups s !! l) →
  matched_connectors (merged s fnd w l) !! x =
    if decide (matched_connectors s !! x = Some l) then Some w
    else matched_connectors s !! x.
Proof.
  intros Hwf [[g b] Hl]. simpl. rewrite lookup_repoint.
  destruct (wf_grp s Hwf l g b Hl) as (_ & _ & _ & _ & _ & Hm).
  destruct (decide (x ∈ deref (heap s) l)) as [Hin|Hin].
  - by rewrite decide_True by by apply Hm.
  - rewrite decide_False; [done|]. intros Hx.
    destruct (wf_mc s Hwf x l Hx) as (? & _ & ?). done.
Qed.

Lemma merged_wf s fnd w l :
  scan_wf s → w ≠ l →
  is_Some (connector_groups s !! w) → is_Some (connector_groups s !! l) →
  scan_wf (merged s fnd w l).
Proof.
  intros Hwf Hne [[gw bw] Hw] [[gl bl] Hl].
  pose proof (merged_lookup s fnd w l) as Hlk.
  destruct (wf_grp s Hwf w gw bw Hw) as (-> & Hw1 & Hw2 & Hw3 & Hw4 & Hw5).
  destruct (wf_grp s Hwf l gl bl Hl) as (-> & Hl1 & Hl2 & Hl3 & Hl4 & Hl5).
  split.
  - intros x a. rewrite Hlk by eauto. case_decide as Hx.
    + intros [= <-]. exists gw. split.
      * simpl. by rewrite lookup_delete_ne.
      * simpl. rewrite deref_insert_eq. apply elem_of_cs_update. right.
        by destruct (wf_mc s Hwf x l Hx) as (? & _ & ?).
    + intros Ha. destruct (wf_mc s Hwf x a Ha) as (g & Hg & Hin).
      exists g. simpl. split.
      * rewrite lookup_delete_ne; [done|]. congruence.
      * destruct (decide (w = a)) as [->|Hwa].
        -- rewrite deref_insert_eq. apply elem_of_cs_update. by left.
        -- by rewrite deref_insert_ne.
  - intros a g b. simpl. intros Ha.
    destruct (decide (l = a)) as [->|Hla]; [by rewrite lookup_delete_eq in Ha|].
    rewrite lookup_delete_ne in Ha by done.
    destruct (wf_grp s Hwf a g b Ha) as (? & ? & ? & ? & ? & Hm).
    destruct (decide (w = a)) as [->|Hwa].
    + rewrite deref_insert_eq. split_and!; [done|done|done| |by apply NoDup_cs_update|].
      * intros Hnil. destruct (deref (heap s) a) as [|z zs] eqn:E; [done|].
        assert (z ∈ cs_update (z :: zs) (deref (heap s) l)) as Hz
          by (apply elem_of_cs_update; left; left).
        rewrite Hnil in Hz. by apply not_elem_of_nil in Hz.
      * intros x Hx. fold (matched_connectors (merged s fnd a l) !! x).
        rewrite Hlk by eauto. case_decide; [done|].
        apply elem_of_cs_update in Hx as [Hx|Hx]; [by apply Hm|].
        by apply Hl5 in Hx.
    + rewrite deref_insert_ne by done. split_and!; [done..|].
      intros x Hx. fold (matched_connectors (merged s fnd w l) !! x).
      rewrite Hlk by eauto. apply Hm in Hx. rewrite decide_False; [done|]. congruence.
  - intros a1 a2 g b1 b2. simpl. intros H1 H2.
    apply lookup_delete_Some in H1 as [_ H1]. apply lookup_delete_Some in H2 as [_ H2].
    by eapply (wf_gid s Hwf).
  - intros x. rewrite Hlk by eauto. simpl. rewrite (wf_list s Hwf).
    case_decide as Hx; [|done]. rewrite Hx. split; eauto.
  - apply (wf_nodup s Hwf).
Qed.

Lemma merged_same_class s fnd w l x y :
  scan_wf s → is_Some (connector_groups s !! l) →
  same_class (merged s fnd w l) x y ↔
  same_class s x y ∨
  ((matched_connectors s !! x = Some w ∨ matched_connectors s !! x = Some l) ∧
   (matched_connectors s !! y = Some w ∨ matched_connectors s !! y = Some l)).
Proof.
  intros Hwf Hl. unfold same_class.
  setoid_rewrite (merged_lookup s fnd w l _ Hwf Hl). split.
  - intros (a & Hx & Hy). repeat case_decide; simplify_eq; eauto 6.
  - intros [(a & Hx & Hy)|[Hx Hy]].
    + destruct (decide (a = l)) as [->|Hne].
      * exists w. by rewrite !decide_True by done.
      * exists a. rewrite !decide_False; [done| |]; congruence.
    + exists w. split; case_decide; naive_solver.
Qed.

Lemma visit_merge s c r m :
  scan_wf s → matched_connectors s !! c = Some m → r ≠ m →
  is_Some (connector_groups s !! r) →
  ∃ s' w l, visit c (s, Some r) = (s', Some w) ∧
    s' = merged s (cs_add c (found s)) w l ∧
    (w, l) = (if decide (length (deref (heap s) r) < length (deref (heap s) m))
              then (m, r) else (r, m)) ∧
    visit_post s (Some r) c s' (Some w).
Proof.
  intros Hwf Hc Hne Hr.
  assert (is_Some (connector_groups s !! m)) as Hm.
  { destruct (wf_mc s Hwf c m Hc) as (g & ? & _). eauto. }
  assert (∀ z, joined s (Some r) c z ↔
    matched_connectors s !! z = Some r ∨ matched_connectors s !! z = Some m) as Hj.
  { intros z. split.
    - intros [->|[(a & ? & ?)|(? & ? & ?)]]; [by right|right; congruence|left; congruence].
    - intros [?|?]; [right; right; by exists r|right; left; by exists m]. }
  destruct (decide (length (deref (heap s) r) < length (deref (heap s) m)))
    as [Hlt|Hge].
  - exists (merged s (cs_add c (found s)) m r), m, r. split_and!; [|done|done|].
    { unfold visit. rewrite Hc. rewrite decide_False by done.
      rewrite decide_True by done. reflexivity. }
    split; [by apply merged_wf|]. exists m. split_and!; [done| | |].
    + rewrite merged_lookup by done. by case_decide.
    + intros r' x [= <-] Hx. rewrite merged_lookup by done. by case_decide.
    + intros x y. rewrite merged_same_class, !Hj by done. naive_solver.
  - exists (merged s (cs_add c (found s)) r m), r, m. split_and!; [|done|done|].
    { unfold visit. rewrite Hc. rewrite decide_False by done.
      rewrite (decide_False (P := _ < _)) by done. reflexivity. }
    split; [by apply merged_wf|]. exists r. split_and!; [done| | |].
    + rewrite merged_lookup by done. by rewrite decide_True.
    + intros r' x [= <-] Hx. rewrite merged_lookup by done. by case_decide.
    + intros x y. rewrite merged_same_class, !Hj by done. naive_solver.
Qed.

Lemma visit_spec s ref c :
  scan_wf s →
  (∀ r, ref = Some r → is_Some (connector_groups s !! r)) →
  ∃ s' r', visit c (s, ref) = (s', Some r') ∧ visit_post s ref c s' (Some r').
Proof.
  intros Hwf Hlive.
  destruct (matched_connectors s !! c) as [m|] eqn:Hc, ref as [r|].
  - destruct (decide (r = m)) as [->|Hne].
    + destruct (visit_seen_same s c m Hwf Hc) as (s' & ? & ?). eauto.
    + destruct (visit_merge s c r m Hwf Hc Hne) as (s' & w & l & ? & _ & _ & ?);
        eauto.
  - destruct (visit_seen_first s c m Hwf Hc) as (s' & ? & ?). eauto.
  - destruct (visit_new_joined s c r Hwf Hc) as (s' & ? & ?); eauto.
  - destruct (visit_new_first s c Hwf Hc) as (s' & ? & ?). eauto.
Qed.

Lemma visit_frame c s ref :
  found (visit c (s, ref)).1 = cs_add c (found s) ∧
  constraint_list (visit c (s, ref)).1 = constraint_list s ∧
  connection_list (visit c (s, ref)).1 = connection_list s.
Proof.
  unfold visit. destruct (matched_connectors s !! c), ref; simpl;
    repeat case_decide; done.
Qed.

(** ** Closures of symmetric relations *)

Lemma tc_mono {A} (R R' : relation A) x y :
  (∀ a b, R a b → R' a b) → tc R x y → tc R' x y.
Proof.
  intros HR. induction 1 as [a b H|a b d H _ IH].
  - by apply tc_once, HR.
  - eapply tc_l; [by apply HR|done].
Qed.

Lemma tc_least {A} (R S : relation A) x y :
  (∀ a b d, S a b → S b d → S a d) →
  (∀ a b, R a b → S a b) → tc R x y → S x y.
Proof.
  intros HS HR. induction 1 as [a b H|a b d H _ IH]; eauto.
Qed.

Lemma tc_sym {A} (R : relation A) x y :
  (∀ a b, R a b → R b a) → tc R x y → tc R y x.
Proof.
  intros HR. induction 1 as [a b H|a b d H _ IH].
  - by apply tc_once, HR.
  - eapply tc_r; [done|by apply HR].
Qed.

Lemma tc_trans' {A} (R : relation A) x y z : tc R x y → tc R y z → tc R x z.
Proof. intros. by etrans. Qed.

Lemma tc_prefix {A} (R S P : relation A) x y :
  (∀ a b, S a b ↔ tc R a b) →
  tc (λ a b, S a b ∨ P a b) x y ↔ tc (λ a b, R a b ∨ P a b) x y.
Proof.
  intros HS. split.
  - apply tc_least; [apply tc_trans'|].
    intros a b [H|H]; [|by apply tc_once; right].
    apply HS in H. eapply tc_mono; [|done]. naive_solver.
  - apply tc_mono. intros a b [H|H]; [left|by right]. by apply HS, tc_once.
Qed.

(** ** One component, then the whole scan *)

Lemma visit_fold s its :
  scan_wf s →
  ∃ s' ref', foldl (λ st c, visit c st) (s, None) its = (s', ref') ∧
    scan_wf s' ∧
    (its = [] → s' = s ∧ ref' = None) ∧
    (its ≠ [] → ∃ r', ref' = Some r' ∧
       ∀ x, x ∈ its → matched_connectors s' !! x = Some r') ∧
    (∀ x y, same_class s' x y ↔
       tc (λ a b, same_class s a b ∨ clique its a b) x y).
Proof.
  intros Hwf. induction its as [|c p IH] using rev_ind.
  - exists s, None. split_and!; [done..| |]; [done|].
    intros x y. split.
    + intros H. apply tc_once. by left.
    + apply tc_least; [apply same_class_trans|].
      intros a b [?|[[]%not_elem_of_nil _]]. done.
  - destruct IH as (sp & refp & Hfold & Hwfp & Hnil & Hcons & Hsame).
    assert (∀ r, refp = Some r → is_Some (connector_groups sp !! r)) as Hlive.
    { intros r ->. destruct p as [|c0 p'].
      - by destruct Hnil as [_ ?].
      - destruct Hcons as (r' & [= <-] & Hall); [done|].
        destruct (wf_mc sp Hwfp c0 r) as (g & ? & _); [apply Hall; left|]. eauto. }
    destruct (visit_spec sp refp c Hwfp Hlive)
      as (s' & r' & Hv & Hwf' & r'' & [= <-] & Hc' & Hkeep & Hsame').
    exists s', (Some r'). rewrite foldl_app. simpl. rewrite Hfold.
    assert (∀ x, x ∈ p ++ [c] → matched_connectors s' !! x = Some r') as Hall'.
    { intros x [Hx| ->%list_elem_of_singleton]%elem_of_app; [|done].
      destruct Hcons as (r & -> & Hall); [by intros ->; apply not_elem_of_nil in Hx|].
      eapply Hkeep; [done|]. by apply Hall. }
    split_and!; [done|done|by intros ?%app_nil; naive_solver|by eauto|].
    set (E := λ l a b, same_class s a b ∨ clique l a b).
    assert (∀ a b, tc (E p) a b → tc (E (p ++ [c])) a b) as Hmono.
    { intros a b H. eapply tc_mono; [|exact H].
      intros a' b' [?|[? ?]]; [by left|right]. unfold clique. set_solver. }
    assert (∀ a b, E (p ++ [c]) a b → E (p ++ [c]) b a) as Hsym.
    { intros a b [?|[? ?]]; [left; by apply same_class_sym|by right]. }
    intros x y. split.
    + intros Hxy. apply Hsame' in Hxy.
      assert (∀ z, joined sp refp c z → tc (E (p ++ [c])) z c) as Hj.
      { intros z [->|[Hz|(r & -> & Hz)]].
        - apply tc_once. right. unfold clique. set_solver.
        - by apply Hmono, Hsame.
        - destruct p as [|c0 p']; [by destruct Hnil as [_ ?]|].
          destruct Hcons as (r0 & [= <-] & Hall); [done|].
          eapply tc_r.
          + apply Hmono, Hsame. exists r. split; [done|]. apply Hall. by left.
          + right. unfold clique. set_solver. }
      destruct Hxy as [H|[Hx Hy]]; [by apply Hmono, Hsame|].
      eapply tc_trans'; [by apply Hj|]. apply tc_sym; [done|]. by apply Hj.
    + apply (tc_least _ (same_class s')); [apply same_class_trans|].
      intros a b [H|[Ha Hb]].
      * apply Hsame'. left. apply Hsame. apply tc_once. by left.
      * exists r'. split; by apply Hall'.
Qed.

Lemma scan_comp_spec s cp :
  scan_wf s →
  scan_wf (scan_comp s cp) ∧
  ∀ x y, same_class (scan_comp s cp) x y ↔
    tc (λ a b, same_class s a b ∨ clique (comp_itr cp) a b) x y.
Proof.
  intros Hwf.
  destruct (visit_fold s (comp_itr cp) Hwf)
    as (s1 & ref & Hfold & Hwf1 & _ & _ & Hsame).
  unfold scan_comp. rewrite Hfold.
  destruct ref as [r|]; [|done].
  destruct (comp_kind cp); (split; [by destruct Hwf1; split|apply Hsame]).
Qed.

Lemma co_occur_snoc comps cp a b :
  co_occur (comps ++ [cp]) a b ↔ co_occur comps a b ∨ clique (comp_itr cp) a b.
Proof.
  unfold co_occur, clique. split.
  - intros (cp' & [?| ->%list_elem_of_singleton]%elem_of_app & ? & ?); eauto.
  - intros [(cp' & ? & ? & ?)|[? ?]].
    + exists cp'. rewrite elem_of_app. eauto.
    + exists cp. rewrite elem_of_app, list_elem_of_singleton. eauto.
Qed.

Lemma scan_snoc comps cp : scan (comps ++ [cp]) = scan_comp (scan comps) cp.
Proof. unfold scan. by rewrite foldl_app. Qed.

Lemma scan_spec comps :
  scan_wf (scan comps) ∧
  ∀ x y, same_class (scan comps) x y ↔ tc (co_occur comps) x y.
Proof.
  induction comps as [|cp comps [IHwf IH]] using rev_ind.
  - split; [apply scan_wf_init|]. intros x y. split.
    + intros (a & H & _). simpl in H. by rewrite lookup_empty in H.
    + intros H. apply (tc_least _ (λ _ _, False)) in H; [done|done|].
      intros a b (cp & []%not_elem_of_nil & _).
  - rewrite scan_snoc.
    destruct (scan_comp_spec (scan comps) cp IHwf) as [Hwf Hsame].
    split; [done|]. intros x y. rewrite Hsame, (tc_prefix _ _ _ _ _ IH).
    split; apply tc_mono; intros a b; by rewrite co_occur_snoc.
Qed.

(** ** Python's sorted *)

Lemma NoDup_fmap_elem_inj {A B} (f : A → B) (l : list A) x y :
  NoDup (f <$> l) → x ∈ l → y ∈ l → f x = f y → x = y.
Proof.
  induction l as [|z l IH]; [by intros _ ?%not_elem_of_nil|].
  rewrite fmap_cons, NoDup_cons. intros [Hz Hl] Hx Hy Hf.
  apply elem_of_cons in Hx as [->|Hx], Hy as [->|Hy]; [done| | |by apply IH].
  - destruct Hz. rewrite Hf. by apply list_elem_of_fmap_2.
  - destruct Hz. rewrite <-Hf. by apply list_elem_of_fmap_2.
Qed.

Section sorted_facts.
Context {A K : Type} (key : A → K) (leb : K → K → bool).
Hypothesis leb_total : ∀ a b, leb a b = true ∨ leb b a = true.
Hypothesis leb_trans : ∀ a b d, leb a b = true → leb b d = true → leb a d = true.
Hypothesis leb_antisym : ∀ a b, leb a b = true → leb b a = true → a = b.

Lemma sorted_insert_perm x l : sorted_insert key leb x l ≡ₚ x :: l.
Proof.
  induction l as [|y l IH]; simpl; [done|].
  destruct (leb (key y) (key x)); [|done].
  rewrite IH. apply Permutation_swap.
Qed.


Lemma sorted_by_acc_perm acc l :
  foldl (λ acc x, sorted_insert key leb x acc) acc l ≡ₚ acc ++ l.
Proof.
  revert acc. induction l as [|x l IH]; intros acc; simpl.
  - by rewrite app_nil_r.
  - rewrite IH, sorted_insert_perm. simpl. apply Permutation_middle.
Qed.


Lemma sorted_by_perm l : sorted_by key leb l ≡ₚ l.
Proof. apply (sorted_by_acc_perm [] l). Qed.



End sorted_facts.

(** ** The classes of the final state *)

Lemma sorted_groups_perm vals : sorted_groups vals ≡ₚ vals.
Proof. apply sorted_by_perm. Qed.

Lemma elem_of_group_values s g b :
  (g, b) ∈ group_values s ↔ ∃ a, connector_groups s !! a = Some (g, b).
Proof.
  unfold group_values. rewrite list_elem_of_fmap. split.
  - intros ([a gb] & -> & H%elem_of_map_to_list). by exists a.
  - intros (a & H). exists (a, (g, b)). split; [done|]. by apply elem_of_map_to_list.
Qed.

Lemma NoDup_group_values s : scan_wf s → NoDup (fst <$> group_values s).
Proof.
  intros Hwf. unfold group_values. rewrite <-list_fmap_compose.
  apply NoDup_fmap_2_strong; [|apply NoDup_map_to_list].
  intros [a1 [g1 b1]] [a2 [g2 b2]] H1%elem_of_map_to_list H2%elem_of_map_to_list.
  simpl. intros <-.
  destruct (wf_grp s Hwf _ _ _ H1) as (-> & _), (wf_grp s Hwf _ _ _ H2) as (-> & _).
  by rewrite (wf_gid s Hwf _ _ _ _ _ H1 H2).
Qed.

Lemma elem_of_classes s cl :
  scan_wf s →
  cl ∈ classes s ↔
  ∃ a g, connector_groups s !! a = Some (g, a) ∧ cl = deref (heap s) a.
Proof.
  intros Hwf. unfold classes. rewrite list_elem_of_fmap. split.
  - intros ([g b] & -> & H). rewrite sorted_groups_perm in H.
    apply elem_of_group_values in H as (a & Ha).
    destruct (wf_grp s Hwf _ _ _ Ha) as (-> & _). by exists a, g.
  - intros (a & g & Ha & ->). exists (g, a). split; [done|].
    rewrite sorted_groups_perm. apply elem_of_group_values. by exists a.
Qed.

Lemma classes_partition s :
  scan_wf s → partitions (connector_list s) (classes s).
Proof.
  intros Hwf. split_and!.
  - intros c. rewrite (wf_list s Hwf). split.
    + intros [a Ha]. destruct (wf_mc s Hwf c a Ha) as (g & Hg & Hin).
      exists (deref (heap s) a). split; [|done]. apply elem_of_classes; eauto.
    + intros (cl & (a & g & Ha & ->)%elem_of_classes & Hin); [|done].
      destruct (wf_grp s Hwf _ _ _ Ha) as (_ & _ & _ & _ & _ & Hm). eauto.
  - intros cl (a & g & Ha & ->)%elem_of_classes; [|done].
    by destruct (wf_grp s Hwf _ _ _ Ha) as (_ & _ & _ & ? & ? & _).
  - intros i j cl1 cl2 c. unfold classes. rewrite !list_lookup_fmap.
    destruct (sorted_groups (group_values s) !! i) as [[g1 b1]|] eqn:Hi; [|done].
    destruct (sorted_groups (group_values s) !! j) as [[g2 b2]|] eqn:Hj; [|done].
    simpl. intros [= <-] [= <-] H1 H2.
    assert (∀ k g b, sorted_groups (group_values s) !! k = Some (g, b) →
              connector_groups s !! b = Some (g, b)) as Hrec.
    { intros k g b Hk. apply list_elem_of_lookup_2 in Hk.
      rewrite sorted_groups_perm in Hk.
      apply elem_of_group_values in Hk as (a & Ha).
      by destruct (wf_grp s Hwf _ _ _ Ha) as (-> & _). }
    pose proof (Hrec _ _ _ Hi) as Hg1. pose proof (Hrec _ _ _ Hj) as Hg2.
    destruct (wf_grp s Hwf _ _ _ Hg1) as (_ & _ & _ & _ & _ & Hm1).
    destruct (wf_grp s Hwf _ _ _ Hg2) as (_ & _ & _ & _ & _ & Hm2).
    apply Hm1 in H1. apply Hm2 in H2. simplify_eq.
    eapply NoDup_lookup; [|exact Hi|exact Hj].
    rewrite sorted_groups_perm. eapply NoDup_fmap_1, NoDup_group_values. done.
Qed.

Lemma same_class_classes s c d :
  scan_wf s →
  same_class s c d ↔ ∃ cl, cl ∈ classes s ∧ c ∈ cl ∧ d ∈ cl.
Proof.
  intros Hwf. split.
  - intros (a & Hc & Hd).
    destruct (wf_mc s Hwf c a Hc) as (g & Hg & Hin).
    destruct (wf_mc s Hwf d a Hd) as (_ & _ & Hin').
    exists (deref (heap s) a). split_and!; [|done..]. apply elem_of_classes; eauto.
  - intros (cl & (a & g & Ha & ->)%elem_of_classes & Hc & Hd); [|done].
    destruct (wf_grp s Hwf _ _ _ Ha) as (_ & _ & _ & _ & _ & Hm).
    exists a. eauto.
Qed.

Lemma discovered_iff comps c :
  c ∈ connector_list (scan comps) ↔ ∃ cp, cp ∈ comps ∧ c ∈ comp_itr cp.
Proof.
  destruct (scan_spec comps) as [Hwf Hsame].
  rewrite (wf_list _ Hwf). split.
  - intros [a Ha].
    assert (tc (co_occur comps) c c) as H by (apply Hsame; by exists a).
    assert (∃ y, co_occur comps c y) as (y & cp & ? & ? & _).
    { inversion H; eauto. }
    eauto.
  - intros (cp & Hcp & Hin).
    assert (same_class (scan comps) c c) as (a & Ha & _).
    { apply Hsame, tc_once. by exists cp. }
    eauto.
Qed.

Lemma co_occur_perm comps comps' x y :
  comps ≡ₚ comps' → co_occur comps x y ↔ co_occur comps' x y.
Proof. intros Hp. unfold co_occur. by setoid_rewrite Hp. Qed.

Lemma co_occur_itr_perm comps comps' x y :
  Forall2 (λ a b, comp_itr a ≡ₚ comp_itr b) comps comps' →
  co_occur comps x y ↔ co_occur comps' x y.
Proof.
  intros HF. unfold co_occur. split.
  - intros (cp & Hcp & Hx & Hy).
    apply list_elem_of_lookup in Hcp as [i Hi].
    destruct (Forall2_lookup_l _ _ _ _ _ HF Hi) as (cp' & Hi' & Hp).
    exists cp'. rewrite <-Hp. split; [|done]. by eapply list_elem_of_lookup_2.
  - intros (cp & Hcp & Hx & Hy).
    apply list_elem_of_lookup in Hcp as [i Hi].
    destruct (Forall2_lookup_r _ _ _ _ _ HF Hi) as (cp' & Hi' & Hp).
    exists cp'. rewrite Hp. split; [|done]. by eapply list_elem_of_lookup_2.
Qed.

Lemma scan_reordered comps comps' c d :
  reordered comps comps' →
  same_class (scan comps') c d ↔ same_class (scan comps) c d.
Proof.
  intros (mid & Hp & HF).
  destruct (scan_spec comps) as [_ H1], (scan_spec comps') as [_ H2].
  rewrite H1, H2.
  split; apply tc_mono; intros a b;
    rewrite (co_occur_perm _ _ _ _ Hp), (co_occur_itr_perm _ _ _ _ HF); done.
Qed.

(** The merge of lines 74-80, met while a component is being scanned. *)
Lemma visit_merge_law s pre st r c m :
  scan_wf s →
  foldl (λ st c, visit c st) (s, None) pre = (st, Some r) →
  matched_connectors st !! c = Some m → r ≠ m →
  ∃ w l,
    (w, l) = (if decide (length (deref (heap st) r) < length (deref (heap st) m))
              then (m, r) else (r, m)) ∧
    length (deref (heap st) l) ≤ length (deref (heap st) w) ∧
    (visit c (st, Some r)).2 = Some w ∧
    connector_groups (visit c (st, Some r)).1 = delete l (connector_groups st) ∧
    (∀ i, i ∈ deref (heap st) l →
       matched_connectors (visit c (st, Some r)).1 !! i = Some w) ∧
    (∀ i, i ∈ deref (heap (visit c (st, Some r)).1) w ↔
       i ∈ deref (heap st) w ∨ i ∈ deref (heap st) l).
Proof.
  intros Hwf Hfold Hc Hne.
  destruct (visit_fold s pre Hwf) as (st' & ref' & Hf & Hwf' & Hnil & Hcons & _).
  rewrite Hfold in Hf. simplify_eq.
  assert (is_Some (connector_groups st' !! r)) as Hr.
  { destruct pre as [|c0 pre]; [by destruct Hnil as [_ ?]|].
    destruct Hcons as (r' & [= <-] & Hall); [done|].
    destruct (wf_mc st' Hwf' c0 r) as (g & ? & _); [apply Hall; left|]. eauto. }
  assert (is_Some (connector_groups st' !! m)) as Hm.
  { destruct (wf_mc st' Hwf' c m Hc) as (g & ? & _). eauto. }
  destruct (visit_merge st' c r m Hwf' Hc Hne Hr) as (s2 & w & l & Hv & -> & Hwl & _).
  exists w, l. rewrite Hv. simpl. split_and!; [done| |done|done| |].
  - case_decide; simplify_eq; lia.
  - intros i Hi. by rewrite lookup_repoint, decide_True.
  - intros i. by rewrite deref_insert_eq, elem_of_cs_update.
Qed.

(** C1.  For every list of scanned components, in the state that the scan
    of [_collect_connectors] (lines 51-101) ends in: two connectors point to
    the same set exactly when they are related by the transitive closure of
    "appeared together in one constraint or connection"; the connectors
    discovered are those that some component yields; the groups of
    [connector_groups], taken in group-ID order, partition them, and two
    connectors are in the same class exactly when one group holds both; the
    classes are the same when the components, and the connectors of each, are
    met in another order.  When, in the middle of a component, the
    connector visited belongs to a set other than the reference set, the
    set with fewer members is merged into the other (the connector's own set
    on a tie): the reference becomes the larger set, the record of the
    smaller is deleted from [connector_groups], every member of the smaller
    is pointed to the larger, and the larger holds the members of both. *)
Theorem collect_connectors_classes (comps : list comp) :
  (∀ c d, same_class (scan comps) c d ↔ tc (co_occur comps) c d) ∧
  (∀ c, c ∈ connector_list (scan comps) ↔ ∃ cp, cp ∈ comps ∧ c ∈ comp_itr cp) ∧
  partitions (connector_list (scan comps)) (classes (scan comps)) ∧
  (∀ c d, same_class (scan comps) c d ↔
     ∃ cl, cl ∈ classes (scan comps) ∧ c ∈ cl ∧ d ∈ cl) ∧
  (∀ comps' c d, reordered comps comps' →
     same_class (scan comps') c d ↔ same_class (scan comps) c d) ∧
  (∀ pre st r c m,
     foldl (λ st c, visit c st) (scan comps, None) pre = (st, Some r) →
     matched_connectors st !! c = Some m → r ≠ m →
     ∃ w l,
       (w, l) = (if decide (length (deref (heap st) r) < length (deref (heap st) m))
                 then (m, r) else (r, m)) ∧
       length (deref (heap st) l) ≤ length (deref (heap st) w) ∧
       (visit c (st, Some r)).2 = Some w ∧
       connector_groups (visit c (st, Some r)).1 = delete l (connector_groups st) ∧
       (∀ i, i ∈ deref (heap st) l →
          matched_connectors (visit c (st, Some r)).1 !! i = Some w) ∧
       (∀ i, i ∈ deref (heap (visit c (st, Some r)).1) w ↔
          i ∈ deref (heap st) w ∨ i ∈ deref (heap st) l)).
Proof.
  destruct (scan_spec comps) as [Hwf Hsame].
  split_and!.
  - exact Hsame.
  - apply discovered_iff.
  - by apply classes_partition.
  - intros c d. by apply same_class_classes.
  - intros comps' c d. apply scan_reordered.
  - intros pre st r c m. by apply visit_merge_law.
Qed.

Lemma collect_connectors_classes_witness :
  ∃ w l,
    (w, l) = (1, 0) ∧
    connector_groups
      (visit 5 ((foldl (λ st c, visit c st)
         (scan [Comp 0 IsConstraint [1; 2]; Comp 1 IsConnection [3; 4; 5]], None)
         [2]).1, Some 0)).1 !! l = None ∧
    matched_connectors
      (visit 5 ((foldl (λ st c, visit c st)
         (scan [Comp 0 IsConstraint [1; 2]; Comp 1 IsConnection [3; 4; 5]], None)
         [2]).1, Some 0)).1 !! 1 = Some w.
Proof.
  destruct (collect_connectors_classes
              [Comp 0 IsConstraint [1; 2]; Comp 1 IsConnection [3; 4; 5]])
    as (_ & _ & _ & _ & _ & Hmerge).
  destruct (Hmerge [2]
              (foldl (λ st c, visit c st)
                 (scan [Comp 0 IsConstraint [1; 2]; Comp 1 IsConnection [3; 4; 5]],
                  None) [2]).1
              0 5 1) as (w & l & Hwl & _ & _ & Hdel & Hmem & _).
  - vm_compute. reflexivity.
  - vm_compute. reflexivity.
  - lia.
  - exists w, l. split; [exact Hwl|]. split.
    + rewrite Hdel. apply lookup_delete_eq.
    + apply Hmem. vm_compute in Hwl. injection Hwl as -> ->.
      vm_compute. apply list_elem_of_In. simpl. tauto.
Defined.

(** ** The monad *)

Lemma bind_inr {A B} (x : M A) (f : A → M B) m b m' :
  (x ≫= f) m = inr (b, m') ↔ ∃ a m1, x m = inr (a, m1) ∧ f a m1 = inr (b, m').
Proof.
  unfold mbind, M_bind, bind. destruct (x m) as [e|[a m1]]; naive_solver.
Qed.

Lemma bind_inl {A B} (x : M A) (f : A → M B) m e :
  (x ≫= f) m = inl e ↔
  x m = inl e ∨ ∃ a m1, x m = inr (a, m1) ∧ f a m1 = inl e.
Proof.
  unfold mbind, M_bind, bind. destruct (x m) as [e'|[a m1]]; naive_solver.
Qed.

Lemma only_raises_bind {A B} P (x : M A) (f : A → M B) :
  only_raises P x → (∀ a, only_raises P (f a)) → only_raises P (x ≫= f).
Proof.
  intros Hx Hf m e [?|(a & m1 & _ & ?)]%bind_inl; [by eapply Hx|by eapply Hf].
Qed.

Lemma only_raises_gets {A} P (f : model → A) : only_raises P (gets f).
Proof. by intros m e. Qed.

Lemma only_raises_modify P f : only_raises P (modify f).
Proof. by intros m e. Qed.

Lemma only_raises_ret {A} P (a : A) : only_raises P (mret a).
Proof. by intros m e. Qed.

Lemma only_raises_for_each {A} P (l : list A) body :
  (∀ x, only_raises P (body x)) → only_raises P (for_each l body).
Proof.
  intros Hb. induction l as [|x l IH]; simpl.
  - apply only_raises_ret.
  - by apply only_raises_bind.
Qed.

(** ** Validation *)

Lemma fill_raises_no_ValueError eop refs :
  only_raises (λ e, ∀ mm, e ≠ ValueError mm) (fill_connectors eop refs).
Proof.
  apply only_raises_for_each; intros c.
  apply only_raises_for_each; intros kv. unfold fill_field.
  apply only_raises_bind; [apply only_raises_gets|]. intros C.
  assert (∀ v0 nv i, only_raises (λ e, ∀ mm, e ≠ ValueError mm)
                       (copy_element v0 nv i)) as Hcopy.
  { intros v0 nv i. unfold copy_element.
    apply only_raises_bind; [apply only_raises_gets|]. intros V0.
    destruct (data_get i (v_data V0)).
    - apply only_raises_bind; [apply only_raises_gets|]. intros NV.
      apply only_raises_modify.
    - by intros m e [= <-]. }
  destruct (dict_get kv.1 (c_vars C)) as [[?|]|];
    [apply only_raises_ret| |];
    (apply only_raises_bind; [apply only_raises_gets|]; intros V0;
     apply only_raises_bind; [apply only_raises_gets|]; intros nv;
     apply only_raises_bind; [apply only_raises_modify|]; intros _;
     apply only_raises_bind; [apply only_raises_modify|]; intros _;
     apply only_raises_bind; [by apply only_raises_for_each|]; intros _;
     apply only_raises_bind; [apply only_raises_gets|]; intros C';
     apply only_raises_modify).
Qed.

Lemma sym_diff_length a b :
  (0 <? length (sym_diff a b)) = false ↔ ∀ i, i ∈ a ↔ i ∈ b.
Proof.
  rewrite Nat.ltb_ge. unfold sym_diff. rewrite length_app. split.
  - intros H i.
    assert (filter (λ i, i ∉ b) a = []) as Ha by (apply length_zero_iff_nil; lia).
    assert (filter (λ i, i ∉ a) b = []) as Hb by (apply length_zero_iff_nil; lia).
    split; intros Hi.
    + destruct (decide (i ∈ b)) as [|Hn]; [done|].
      assert (i ∈ filter (λ i, i ∉ b) a) as Hf by by apply list_elem_of_filter.
      rewrite Ha in Hf. by apply not_elem_of_nil in Hf.
    + destruct (decide (i ∈ a)) as [|Hn]; [done|].
      assert (i ∈ filter (λ i, i ∉ a) b) as Hf by by apply list_elem_of_filter.
      rewrite Hb in Hf. by apply not_elem_of_nil in Hf.
  - intros H.
    assert (filter (λ i, i ∉ b) a = []) as ->.
    { apply elem_of_nil_inv. intros i [? ?]%list_elem_of_filter. naive_solver. }
    assert (filter (λ i, i ∉ a) b = []) as ->.
    { apply elem_of_nil_inv. intros i [? ?]%list_elem_of_filter. naive_solver. }
    done.
Qed.

Lemma check_connector_inl m c ref p e :
  check_connector m c ref p = inl e →
  ∃ entry mm, entry ∈ ref ∧ e = ValueError mm ∧ disagreement m c entry mm.
Proof.
  revert p. induction ref as [|[k [[v0 n0] c0]] ref IH]; intros p; simpl; [done|].
  assert (∀ p, check_connector m c ref p = inl e →
    ∃ entry mm, entry ∈ (k, (v0, n0, c0)) :: ref ∧ e = ValueError mm ∧
                disagreement m c entry mm) as IH'.
  { intros p' (entry & mm & ? & ? & ?)%IH. exists entry, mm. split; [by right|done]. }
  destruct (dict_get k (c_vars (get_conn m c))) as [[v|]|] eqn:Hk.
  - destruct (xorb _ _) eqn:Hx.
    { intros [= <-]. eexists _, _. split; [left|]. split; [done|].
      eapply dis_mixed; [done|].
      destruct (Z.leb_spec 0 (shape_code (get_conn m c) k (get_var m v))),
        (Z.leb_spec 0 n0); simpl in Hx; try done; lia. }
    destruct (_ && negb _) eqn:Hc.
    { intros [= <-]. eexists _, _. split; [left|]. split; [done|].
      apply andb_true_iff in Hc as [H1%Z.leb_le H2%negb_true_iff%Z.eqb_neq].
      by eapply dis_count. }
    destruct (_ && (0 <? _)) eqn:Hi; [|by apply IH'].
    intros [= <-]. eexists _, _. split; [left|]. split; [done|].
    apply andb_true_iff in Hi as [H1%Z.leb_le H2].
    eapply dis_indices; [done..|]. intros Heq%sym_diff_length. congruence.
  - apply IH'.
  - intros [= <-]. eexists _, _. split; [left|]. split; [done|]. by apply dis_missing.
Qed.

Lemma check_connector_inr m c ref p b entry mm :
  check_connector m c ref p = inr b → entry ∈ ref → ¬ disagreement m c entry mm.
Proof.
  revert p. induction ref as [|[k [[v0 n0] c0]] ref IH]; intros p; simpl.
  { by intros _ ?%not_elem_of_nil. }
  intros Hchk [->|Hin]%elem_of_cons.
  - intros Hd. inversion Hd as [???? Hk|????? Hk Hm|????? Hk H1 H2|????? Hk H1 H2];
      subst; rewrite Hk in Hchk; [done|..].
    + destruct (Z.leb_spec 0 (shape_code (get_conn m c) k (get_var m v))),
        (Z.leb_spec 0 n0); simpl in Hchk; try done; lia.
    + destruct (xorb _ _); [done|].
      apply Z.leb_le in H1. apply Z.eqb_neq in H2. by rewrite H1, H2 in Hchk.
    + destruct (xorb _ _); [done|]. destruct (_ && negb _); [done|].
      apply Z.leb_le in H1. rewrite H1 in Hchk. simpl in Hchk.
      destruct (0 <? _) eqn:Hs; [done|]. by pose proof (proj1 (sym_diff_length _ _) Hs).
  - destruct (dict_get k (c_vars (get_conn m c))) as [[v|]|]; [| |done].
    + destruct (xorb _ _); [done|]. destruct (_ && negb _); [done|].
      destruct (_ && (0 <? _)); [done|]. by eapply IH.
    + by eapply IH.
Qed.

Lemma check_connectors_inl m connectors ref eop e :
  check_connectors m connectors ref eop = inl e →
  ∃ c entry mm, c ∈ connectors ∧ c_vars (get_conn m c) ≠ [] ∧ entry ∈ ref ∧
    e = ValueError mm ∧ disagreement m c entry mm.
Proof.
  revert eop. induction connectors as [|c rest IH]; intros eop; simpl; [done|].
  assert (∀ eop, check_connectors m rest ref eop = inl e →
    ∃ c' entry mm, c' ∈ c :: rest ∧ c_vars (get_conn m c') ≠ [] ∧ entry ∈ ref ∧
      e = ValueError mm ∧ disagreement m c' entry mm) as IH'.
  { intros eop' (c' & entry & mm & ? & ?)%IH. exists c', entry, mm.
    split; [by right|done]. }
  destruct (c_vars (get_conn m c)) as [|kv vars] eqn:Hv; [apply IH'|].
  destruct (check_connector m c ref false) as [e'|partial] eqn:Hc; [|apply IH'].
  intros [= <-]. apply check_connector_inl in Hc as (entry & mm & ? & ? & ?).
  exists c, entry, mm. rewrite Hv. split_and!; [by left|done..].
Qed.

Lemma check_connectors_inr m connectors ref eop eop' c entry mm :
  check_connectors m connectors ref eop = inr eop' →
  c ∈ connectors → c_vars (get_conn m c) ≠ [] → entry ∈ ref →
  ¬ disagreement m c entry mm.
Proof.
  revert eop. induction connectors as [|c' rest IH]; intros eop; simpl.
  { by intros _ ?%not_elem_of_nil. }
  intros Hchk [->|Hin]%elem_of_cons Hne Hentry.
  - destruct (c_vars (get_conn m c')) as [|kv vars] eqn:Hv; [done|].
    destruct (check_connector m c' ref false) as [e'|partial] eqn:Hc; [done|].
    by eapply check_connector_inr.
  - destruct (c_vars (get_conn m c')) as [|kv vars] eqn:Hv; [by eapply IH|].
    destruct (check_connector m c' ref false) as [e'|partial] eqn:Hc; [done|].
    by eapply IH.
Qed.

Lemma validate_unfold connectors m :
  validate_and_expand_connector_set connectors m =
  match collect_fields m connectors with
  | [] => inl (AttributeError "values")
  | e :: r =>
      match check_connectors m connectors (e :: r) [] with
      | inl err => inl err
      | inr eop =>
          (fill_connectors (sort_empty_or_partial m eop) (sorted_items (e :: r));;
           mret (e :: r)) m
      end
  end.
Proof.
  unfold validate_and_expand_connector_set.
  unfold mbind at 1, M_bind at 1, bind at 1, gets at 1.
  destruct (collect_fields m connectors) as [|e r]; [done|].
  unfold mbind at 1, M_bind at 1, bind at 1, gets at 1.
  destruct (check_connectors m connectors (e :: r) []) as [err|eop]; done.
Qed.

Lemma validate_ValueError connectors m mm :
  validate_and_expand_connector_set connectors m = inl (ValueError mm) ↔
  check_connectors m connectors (collect_fields m connectors) [] =
    inl (ValueError mm) ∧ collect_fields m connectors ≠ [].
Proof.
  rewrite validate_unfold.
  destruct (collect_fields m connectors) as [|e r] eqn:Href.
  { split; [done|]. by intros [_ ?]. }
  destruct (check_connectors m connectors (e :: r) []) as [err|eop].
  { split; [by intros [= ->]|by intros [[= ->] _]]. }
  split; [|by intros [? _]].
  intros [H|(_ & m1 & _ & ?)]%bind_inl; [|done].
  by destruct (fill_raises_no_ValueError _ _ _ _ H mm).
Qed.



(** ** A class without assigned fields *)

Lemma collect_fields_unassigned m connectors :
  (∀ c kv, c ∈ connectors → kv ∈ c_vars (get_conn m c) → kv.2 = None) →
  collect_fields m connectors = [].
Proof.
  unfold collect_fields. induction connectors as [|c rest IH] using rev_ind;
    intros Hnone; [done|].
  rewrite foldl_app. simpl.
  rewrite IH by (intros c' kv ? ?; apply (Hnone c' kv); [apply elem_of_app; by left|done]).
  assert (∀ kv, kv ∈ c_vars (get_conn m c) → kv.2 = None) as Hc.
  { intros kv. apply Hnone. apply elem_of_app. right. by left. }
  induction (c_vars (get_conn m c)) as [|kv vars IHv]; [done|].
  simpl. unfold collect_field at 2.
  rewrite (Hc kv) by left. simpl. apply IHv. intros kv' ?. apply Hc. by right.
Qed.

(** C6 (what the code does).  For a class none of whose members has an
    assigned field the reference is empty, and
    [_validate_and_expand_connector_set] raises AttributeError while it
    builds the warning (line 135 asks the set for its values); it logs no
    warning and returns no reference. *)
Theorem validate_unassigned_raises (m : model) (connectors : list nat) :
  (∀ c kv, c ∈ connectors → kv ∈ c_vars (get_conn m c) → kv.2 = None) →
  validate_and_expand_connector_set connectors m = inl (AttributeError "values").
Proof.
  intros H. rewrite validate_unfold. by rewrite collect_fields_unassigned.
Qed.

Lemma validate_unassigned_raises_witness :
  validate_and_expand_connector_set [1; 2] ex_model_unassigned =
    inl (AttributeError "values").
Proof.
  apply validate_unassigned_raises.
  intros c kv Hc Hkv.
  apply list_elem_of_In in Hc. simpl in Hc.
  destruct Hc as [<-|[<-|[]]]; vm_compute in Hkv;
    apply list_elem_of_In in Hkv; simpl in Hkv.
  - destruct Hkv.
  - destruct Hkv as [<-|[]]. reflexivity.
Defined.

(** ** [_implement_extensives] *)

(** C5 (what the code does).  As soon as a connector of [connector_list]
    declares an extensive type, [_implement_extensives] raises NameError for
    the name [c] of line 320, whatever the table of registered functions
    holds; it raises no KeyError. *)
Theorem implement_extensives_raises_NameError (m : model) (connector_list : list nat) :
  (∃ ctr, ctr ∈ connector_list ∧ c_extensives (get_conn m ctr) ≠ []) →
  implement_extensives connector_list m = inl (NameError "c").
Proof.
  intros (ctr & Hin & Hne). unfold implement_extensives.
  induction connector_list as [|c rest IH]; [by apply not_elem_of_nil in Hin|].
  simpl. unfold mbind at 1, M_bind at 1, bind at 1.
  unfold mbind at 1, M_bind at 1, bind at 1, gets at 1.
  destruct (c_extensives (get_conn m c)) as [|[etype d] exts] eqn:Hc.
  - simpl. apply IH. apply elem_of_cons in Hin as [->|?]; [|done]. by rewrite Hc in Hne.
  - reflexivity.
Qed.

Lemma implement_extensives_raises_NameError_witness :
  implement_extensives [1] ex_model_extensive = inl (NameError "c").
Proof.
  apply implement_extensives_raises_NameError.
  exists 1. split; [left|]. vm_compute. discriminate.
Defined.

(** ** Running the computations *)

Lemma run_bind {A B} (x : M A) (f : A → M B) m :
  (x ≫= f) m = match x m with inl e => inl e | inr (a, m') => f a m' end.
Proof. reflexivity. Qed.

Lemma run_gets {A} (f : model → A) m : gets f m = inr (f m, m).
Proof. reflexivity. Qed.

Lemma run_ret {A} (a : A) m : (mret a : M A) m = inr (a, m).
Proof. reflexivity. Qed.


Lemma get_var_lookup m v V : m_vars m !! v = Some V → get_var m v = V.
Proof. unfold get_var. by intros ->. Qed.

Lemma dict_has_nil {V} k : dict_has k ([] : list (string * V)) = false.
Proof. reflexivity. Qed.

Lemma dict_has_false {V} k (d : list (string * V)) :
  dict_has k d = false ↔ dict_get k d = None.
Proof.
  unfold dict_has. rewrite bool_decide_eq_false.
  destruct (dict_get k d); split; try done.
  intros []. eauto.
Qed.

Lemma dict_has_true {V} k (d : list (string * V)) :
  dict_has k d = true ↔ is_Some (dict_get k d).
Proof. unfold dict_has. by rewrite bool_decide_eq_true. Qed.

(** ** An aggregator on one side, a plain variable on the other *)



Lemma conn_var_run c k m ov :
  dict_get k (c_vars (get_conn m c)) = Some ov → conn_var c k m = inr (ov, m).
Proof. intros H. unfold conn_var. by rewrite run_bind, run_gets, H. Qed.

Lemma varlist_add_run v m :
  v_varlist (get_var m v) = true →
  varlist_add (Some v) m =
    inr (TAdd v (S (length (v_data (get_var m v)))),
         with_var m v (Var_added (get_var m v))).
Proof. intros H. unfold varlist_add. by rewrite run_bind, run_gets, H. Qed.

Lemma var_getitem_scalar_run v m :
  v_is_indexed (get_var m v) = Some false →
  var_getitem (Some v) None m = inr (TGetItem v None, m).
Proof. intros H. unfold var_getitem. by rewrite run_bind, run_gets, H. Qed.


Lemma rule_term_plain_run k evar c m v :
  dict_has k (c_aggregators (get_conn m c)) = false →
  dict_has k (c_extensives (get_conn m c)) = false →
  dict_get k (c_vars (get_conn m c)) = Some (Some v) →
  v_is_indexed (get_var m v) = Some false →
  rule_term k evar None c m = inr (TGetItem v None, m).
Proof.
  intros Hagg Hext Hv Hs. unfold rule_term.
  rewrite run_bind, run_gets, Hagg, Hext, run_bind, (conn_var_run _ _ _ _ Hv).
  by apply var_getitem_scalar_run.
Qed.



Lemma get_conn_with_var m v V c : get_conn (with_var m v V) c = get_conn m c.
Proof. reflexivity. Qed.

Lemma get_var_with_var_eq m v V : get_var (with_var m v V) v = V.
Proof. unfold get_var. simpl. by rewrite lookup_insert_eq. Qed.

Lemma get_var_with_var_ne m v V w :
  v ≠ w → get_var (with_var m v V) w = get_var m w.
Proof. intros. unfold get_var. simpl. by rewrite lookup_insert_ne. Qed.

Lemma get_block_with_conn m c C b : get_block (with_conn m c C) b = get_block m b.
Proof. reflexivity. Qed.

Lemma get_var_with_conn m c C v : get_var (with_conn m c C) v = get_var m v.
Proof. reflexivity. Qed.

Lemma get_conn_with_conn_eq m c C : get_conn (with_conn m c C) c = C.
Proof. unfold get_conn. simpl. by rewrite lookup_insert_eq. Qed.

Lemma get_conn_with_conn_ne m c C c' :
  c ≠ c' → get_conn (with_conn m c C) c' = get_conn m c'.
Proof. intros. unfold get_conn. simpl. by rewrite lookup_insert_ne. Qed.

Lemma get_var_with_blocks m b l v : get_var (with_blocks m b l) v = get_var m v.
Proof. reflexivity. Qed.

Section aggregator_scenario.
Variables (m : model) (a p : nat) (k : string) (va vp : nat).
Variables (A P : Connector) (VA VP : Var).
Hypothesis HA : m_conns m !! a = Some A.
Hypothesis HP : m_conns m !! p = Some P.
Hypothesis HAvars : c_vars A = [(k, Some va)].
Hypothesis HPvars : c_vars P = [(k, Some vp)].
Hypothesis HAagg : dict_has k (c_aggregators A) = true.
Hypothesis HPagg : dict_has k (c_aggregators P) = false.
Hypothesis HPext : dict_has k (c_extensives P) = false.
Hypothesis HVA : m_vars m !! va = Some VA.
Hypothesis HVP : m_vars m !! vp = Some VP.
Hypothesis HVAlist : v_varlist VA = true.
Hypothesis HVAindexed : v_is_indexed VA = Some true.
Hypothesis HVPscalar : v_is_indexed VP = Some false.









End aggregator_scenario.



(** ** The rule relates the first two connectors *)

Lemma var_getitem_pure ov args m t m' :
  var_getitem ov args m = inr (t, m') → m' = m.
Proof.
  unfold var_getitem. destruct ov as [v|]; [|done].
  rewrite run_bind, run_gets.
  destruct (v_is_indexed (get_var m v)) as [[]|]; [| |done].
  - destruct args as [[|i [|]]|]; try done. case_decide; [|done]. by intros [= _ <-].
  - destruct args; [done|]. by intros [= _ <-].
Qed.

Lemma conn_var_inr c k m ov m' :
  conn_var c k m = inr (ov, m') →
  m' = m ∧ dict_get k (c_vars (get_conn m c)) = Some ov.
Proof.
  unfold conn_var. rewrite run_bind, run_gets.
  destruct (dict_get k (c_vars (get_conn m c))); [|done]. by intros [= <- <-].
Qed.

Lemma rule_term_effect k evar args c m t m1 :
  rule_term k evar args c m = inr (t, m1) →
  m_conns m1 = m_conns m ∧
  ∀ v, length (v_data (get_var m1 v)) =
       length (v_data (get_var m v)) + length (adds_on m k [c] v).
Proof.
  unfold rule_term. rewrite run_bind, run_gets. unfold adds_on.
  destruct (dict_has k (c_aggregators (get_conn m c))) eqn:Hagg.
  - rewrite run_bind. destruct (conn_var c k m) as [|[ov m0]] eqn:Hv; [done|].
    apply conn_var_inr in Hv as [-> Hv].
    destruct ov as [v|]; [|done]. unfold varlist_add. rewrite run_bind, run_gets.
    destruct (v_varlist (get_var m v)); [|done].
    intros [= <- <-]. split; [done|]. intros w.
    destruct (decide (v = w)) as [<-|Hne].
    + rewrite get_var_with_var_eq. rewrite filter_cons_True by done.
      simpl. rewrite length_app. simpl. lia.
    + rewrite get_var_with_var_ne by done.
      rewrite filter_cons_False by (intros [_ ?]; congruence). simpl. lia.
  - assert (∀ v, filter (λ c, dict_has k (c_aggregators (get_conn m c)) = true ∧
               dict_get k (c_vars (get_conn m c)) = Some (Some v)) [c] = []) as Hnil.
    { intros v. rewrite filter_cons_False; [done|]. intros [? _]. congruence. }
    destruct (dict_has k (c_extensives (get_conn m c))).
    + destruct evar; [|done]. intros [= <- <-]. split; [done|].
      intros v. rewrite Hnil. simpl. lia.
    + rewrite run_bind. destruct (conn_var c k m) as [|[ov m0]] eqn:Hv; [done|].
      apply conn_var_inr in Hv as [-> Hv].
      intros ->%var_getitem_pure. split; [done|].
      intros v. rewrite Hnil. simpl. lia.
Qed.

Lemma adds_on_conns m m1 k conn_set v :
  m_conns m1 = m_conns m → adds_on m1 k conn_set v = adds_on m k conn_set v.
Proof. intros H. unfold adds_on, get_conn. by rewrite H. Qed.

Lemma rule_terms_effect k evar args conn_set m tmp m' :
  rule_terms k evar args conn_set m = inr (tmp, m') →
  length tmp = length conn_set ∧
  m_conns m' = m_conns m ∧
  ∀ v, length (v_data (get_var m' v)) =
       length (v_data (get_var m v)) + length (adds_on m k conn_set v).
Proof.
  revert m tmp. induction conn_set as [|c rest IH]; intros m tmp; simpl.
  - intros [= <- <-]. split_and!; [done..|]. intros v. unfold adds_on. simpl. lia.
  - rewrite run_bind. destruct (rule_term k evar args c m) as [|[t m1]] eqn:Ht; [done|].
    rewrite run_bind.
    destruct (rule_terms k evar args rest m1) as [|[ts m2]] eqn:Hts; [done|].
    intros [= <- <-].
    apply rule_term_effect in Ht as [Hc1 Hl1].
    apply IH in Hts as (Hlen & Hc2 & Hl2).
    split_and!; [simpl; by rewrite Hlen|congruence|].
    intros v. rewrite Hl2, Hl1, (adds_on_conns _ _ _ _ _ Hc1).
    unfold adds_on. rewrite (filter_app _ [c] rest), length_app. lia.
Qed.

Lemma rule_terms_cons k evar args c rest m tmp m' :
  rule_terms k evar args (c :: rest) m = inr (tmp, m') →
  ∃ t ts m1, rule_term k evar args c m = inr (t, m1) ∧
    rule_terms k evar args rest m1 = inr (ts, m') ∧ tmp = t :: ts.
Proof.
  simpl. rewrite run_bind.
  destruct (rule_term k evar args c m) as [|[t m1]] eqn:Ht; [done|].
  rewrite run_bind.
  destruct (rule_terms k evar args rest m1) as [|[ts m2]] eqn:Hts; [done|].
  intros [= <- <-]. by exists t, ts, m1.
Qed.

Lemma rule_first_two_inr k evar args c0 c1 c2 rest m body m' :
  rule k (c0 :: c1 :: c2 :: rest) evar args m = inr (body, m') →
  ∃ t0 t1 ts m1 m2,
    rule_term k evar (match args with [] => None | _ :: _ => Some args end) c0 m
      = inr (t0, m1) ∧
    rule_term k evar (match args with [] => None | _ :: _ => Some args end) c1 m1
      = inr (t1, m2) ∧
    rule_terms k evar (match args with [] => None | _ :: _ => Some args end)
      (c2 :: rest) m2 = inr (ts, m') ∧
    length ts = S (length rest) ∧
    body = EEq t0 t1 ∧
    (∀ v, length (v_data (get_var m' v)) =
          length (v_data (get_var m v)) +
          length (adds_on m k (c0 :: c1 :: c2 :: rest) v)) ∧
    (∀ c v, c ∈ c2 :: rest →
       dict_has k (c_aggregators (get_conn m c)) = true →
       dict_get k (c_vars (get_conn m c)) = Some (Some v) →
       length (v_data (get_var m v)) < length (v_data (get_var m' v))).
Proof.
  unfold rule. rewrite run_bind.
  set (args' := match args with [] => None | _ :: _ => Some args end).
  destruct (rule_terms k evar args' (c0 :: c1 :: c2 :: rest) m)
    as [|[tmp mf]] eqn:Hterms; [done|].
  pose proof (rule_terms_effect _ _ _ _ _ _ _ Hterms) as (Hlen & _ & Hadds).
  pose proof Hterms as (t0 & ts0 & m1 & H0 & Hrest & ->)%rule_terms_cons.
  apply rule_terms_cons in Hrest as (t1 & ts & m2 & H1 & H2 & ->).
  intros [= <- <-].
  exists t0, t1, ts, m1, m2. split_and!; [done..| |done|exact Hadds|].
  - simpl in Hlen. lia.
  - intros c v Hin Hagg Hv. rewrite Hadds.
    assert (c ∈ adds_on m k (c0 :: c1 :: c2 :: rest) v) as Hc.
    { apply list_elem_of_filter. split; [done|]. by do 2 right. }
    destruct (adds_on m k (c0 :: c1 :: c2 :: rest) v);
      [by apply not_elem_of_nil in Hc|simpl; lia].
Qed.

Lemma accessible_added m k evar args v c :
  accessible m k evar args c →
  accessible (with_var m v (Var_added (get_var m v))) k evar args c.
Proof.
  unfold accessible. rewrite !get_conn_with_var.
  destruct (dict_has k (c_aggregators (get_conn m c))).
  - intros (w & Hw & Hl). exists w. split; [done|].
    destruct (decide (v = w)) as [->|Hne].
    + by rewrite get_var_with_var_eq.
    + by rewrite get_var_with_var_ne.
  - destruct (dict_has k (c_extensives (get_conn m c))); [done|].
    intros (w & Hw & Hidx). exists w. split; [done|].
    destruct (decide (v = w)) as [->|Hne].
    + rewrite get_var_with_var_eq. simpl.
      destruct (v_is_indexed (get_var m w)) as [[]|]; [|done..].
      destruct args as [[|i [|]]|]; try done. apply elem_of_app. by left.
    + by rewrite get_var_with_var_ne.
Qed.

Lemma rule_term_returns k evar args c m :
  accessible m k evar args c →
  ∃ t m1, rule_term k evar args c m = inr (t, m1) ∧
    ∀ c', accessible m k evar args c' → accessible m1 k evar args c'.
Proof.
  unfold accessible at 1. unfold rule_term. rewrite run_bind, run_gets.
  destruct (dict_has k (c_aggregators (get_conn m c))).
  - intros (v & Hv & Hl).
    rewrite run_bind, (conn_var_run _ _ _ _ Hv), (varlist_add_run _ _ Hl).
    do 2 eexists. split; [reflexivity|]. intros c'. apply accessible_added.
  - destruct (dict_has k (c_extensives (get_conn m c))).
    + intros [e ->]. by exists (TVar e), m.
    + intros (v & Hv & Hidx). rewrite run_bind, (conn_var_run _ _ _ _ Hv).
      unfold var_getitem. rewrite run_bind, run_gets.
      destruct (v_is_indexed (get_var m v)) as [[]|]; [| |done].
      * destruct args as [[|i [|]]|]; try done.
        rewrite decide_True by done. by do 2 eexists.
      * destruct args; [done|]. by do 2 eexists.
Qed.

Lemma rule_terms_returns k evar args conn_set m :
  (∀ c, c ∈ conn_set → accessible m k evar args c) →
  ∃ tmp m', rule_terms k evar args conn_set m = inr (tmp, m').
Proof.
  revert m. induction conn_set as [|c rest IH]; intros m Hacc; simpl.
  - by do 2 eexists.
  - destruct (rule_term_returns k evar args c m) as (t & m1 & Ht & Hkeep).
    { apply Hacc. left. }
    destruct (IH m1) as (ts & m2 & Hts).
    { intros c' Hc'. apply Hkeep, Hacc. by right. }
    exists (t :: ts), m2. by rewrite run_bind, Ht, run_bind, Hts.
Qed.

(** C10.  Take a connector set of three or more members, each of which can
    give its operand for the field (an aggregator field holds a VarList, an
    extensive field has the extensive variable, any other field a variable
    that takes the index).  Then [rule] returns; the operands [tmp] were
    built for every member, in the order the set yields them; the body
    returned is [tmp[0] == tmp[1]], the operands of the first two members;
    the operands of the other members are in no part of it.  Building them
    has nevertheless called [add()] once for every member whose field has an
    aggregator, the members after the second included: each VarList has
    grown by the number of members that hold it. *)
Theorem rule_relates_first_two
    (k : string) (evar : option nat) (args : list nat)
    (c0 c1 c2 : nat) (rest : list nat) (m : model) :
  (∀ c, c ∈ c0 :: c1 :: c2 :: rest →
     accessible m k evar (match args with [] => None | _ :: _ => Some args end) c) →
  ∃ t0 t1 ts m1 m2 m',
    rule k (c0 :: c1 :: c2 :: rest) evar args m = inr (EEq t0 t1, m') ∧
    rule_term k evar (match args with [] => None | _ :: _ => Some args end) c0 m
      = inr (t0, m1) ∧
    rule_term k evar (match args with [] => None | _ :: _ => Some args end) c1 m1
      = inr (t1, m2) ∧
    rule_terms k evar (match args with [] => None | _ :: _ => Some args end)
      (c2 :: rest) m2 = inr (ts, m') ∧
    length ts = S (length rest) ∧
    (∀ v, length (v_data (get_var m' v)) =
          length (v_data (get_var m v)) +
          length (adds_on m k (c0 :: c1 :: c2 :: rest) v)) ∧
    (∀ c v, c ∈ c2 :: rest →
       dict_has k (c_aggregators (get_conn m c)) = true →
       dict_get k (c_vars (get_conn m c)) = Some (Some v) →
       length (v_data (get_var m v)) < length (v_data (get_var m' v))).
Proof.
  intros Hacc.
  assert (∃ body m', rule k (c0 :: c1 :: c2 :: rest) evar args m = inr (body, m'))
    as (body & m' & Hrun).
  { destruct (rule_terms_returns _ _ _ _ _ Hacc) as (tmp & m' & Hterms).
    pose proof (rule_terms_effect _ _ _ _ _ _ _ Hterms) as (Hlen & _).
    unfold rule. rewrite run_bind, Hterms.
    destruct tmp as [|t0 [|t1 tmp]]; [done..|]. by do 2 eexists. }
  destruct (rule_first_two_inr _ _ _ _ _ _ _ _ _ _ Hrun)
    as (t0 & t1 & ts & m1 & m2 & H0 & H1 & H2 & Hlen & -> & Hadds & Hgrow).
  by exists t0, t1, ts, m1, m2, m'.
Qed.

Lemma rule_relates_first_two_witness :
  ∃ t0 t1 m',
    rule "flow" [1; 2; 3] None [] ex_model_aggregator = inr (EEq t0 t1, m') ∧
    length (v_data (get_var ex_model_aggregator 22)) <
      length (v_data (get_var m' 22)).
Proof.
  destruct (rule_relates_first_two "flow" None [] 1 2 3 [] ex_model_aggregator)
    as (t0 & t1 & ts & m1 & m2 & m' & Hrun & _ & _ & _ & _ & _ & Hgrow).
  - intros c Hc. unfold accessible.
    apply elem_of_cons in Hc as [->|Hc]; [|apply elem_of_cons in Hc as [->|Hc]];
      [| |apply list_elem_of_singleton in Hc as ->].
    + exists 20. split; vm_compute; reflexivity.
    + exists 21. split; vm_compute; [reflexivity|exact I].
    + exists 22. split; vm_compute; reflexivity.
  - exists t0, t1, m'. split; [exact Hrun|].
    apply (Hgrow 3 22).
    + left.
    + reflexivity.
    + reflexivity.
Defined.

(** ** A connection of a connector to itself *)

Lemma dict_get_set_eq {V} k (x : V) d : dict_get k (dict_set k x d) = Some x.
Proof.
  induction d as [|[k' v'] d IH]; simpl.
  - by rewrite decide_True.
  - destruct (decide (k = k')) as [->|Hne]; simpl.
    + by rewrite decide_True.
    + by rewrite decide_False.
Qed.

Lemma dict_get_set_ne {V} k k' (x : V) d :
  k ≠ k' → dict_get k' (dict_set k x d) = dict_get k' d.
Proof.
  intros Hne. induction d as [|[k0 v0] d IH]; simpl.
  - by rewrite decide_False.
  - destruct (decide (k = k0)) as [->|Hne0]; simpl.
    + by rewrite !(decide_False (P := k' = k0)).
    + destruct (decide (k' = k0)); [done|apply IH].
Qed.

Lemma find_dict_set_hit {V} (Q : string * V → bool) exts etype dnew :
  fst <$> List.find Q exts = Some etype → Q (etype, dnew) = true →
  fst <$> List.find Q (dict_set etype dnew exts) = Some etype.
Proof.
  intros Hfind Hq. induction exts as [|[e d] exts IH]; [done|].
  simpl in *. destruct (decide (etype = e)) as [->|Hne]; simpl.
  - by rewrite Hq.
  - destruct (Q (e, d)); [simpl in Hfind; congruence|by apply IH].
Qed.

Lemma find_dict_set_same {V} (Q : string * V → bool) exts etype dold dnew :
  dict_get etype exts = Some dold → Q (etype, dnew) = Q (etype, dold) →
  fst <$> List.find Q (dict_set etype dnew exts) = fst <$> List.find Q exts.
Proof.
  intros Hget Hq. induction exts as [|[e d] exts IH]; [done|].
  simpl in *. destruct (decide (etype = e)) as [->|Hne]; simpl.
  - simplify_eq. rewrite Hq. by destruct (Q (e, dold)).
  - destruct (Q (e, d)); [done|by apply IH].
Qed.

Lemma find_dict_get {V} (Q : string * V → bool) exts etype :
  fst <$> List.find Q exts = Some etype → is_Some (dict_get etype exts).
Proof.
  induction exts as [|[e d] exts IH]; [done|]. simpl.
  destruct (decide (etype = e)); [by eauto|].
  destruct (Q (e, d)); [simpl; congruence|done].
Qed.

Lemma append_evar_extensive C k etype e k' :
  extensive_type C k = Some etype →
  extensive_type
    (mkConnector (c_name C) (c_parent_block C) (c_vars C) (c_aggregators C)
       (dict_set etype
          (dict_set k
             (default [] (dict_get k (default [] (dict_get etype (c_extensives C))))
              ++ [e])
             (default [] (dict_get etype (c_extensives C))))
          (c_extensives C))
       (c_extensive_aggregators C)) k' =
  extensive_type C k'.
Proof.
  unfold extensive_type. simpl. intros Hk.
  destruct (find_dict_get _ _ _ Hk) as [d Hd]. rewrite Hd. simpl.
  destruct (decide (k = k')) as [<-|Hne].
  - rewrite Hk. apply find_dict_set_hit; [done|].
    simpl. apply dict_has_true. rewrite dict_get_set_eq. eauto.
  - eapply find_dict_set_same; [done|]. simpl.
    unfold dict_has. by rewrite dict_get_set_ne.
Qed.




















(** ** Filling in empty and partial connectors *)

Lemma for_each_keep {A} (l : list A) (body : A → M unit)
    (I : model → Prop) (Q : model → Prop) m m' :
  (∀ y m1 m2, y ∈ l → I m1 → body y m1 = inr (tt, m2) → I m2) →
  (∀ y m1 m2, y ∈ l → I m1 → Q m1 → body y m1 = inr (tt, m2) → Q m2) →
  I m → Q m → for_each l body m = inr (tt, m') → I m' ∧ Q m'.
Proof.
  revert m. induction l as [|y l IH]; intros m Hstep Hkeep Hm Hq; simpl.
  - by intros [= <-].
  - rewrite run_bind. destruct (body y m) as [|[[] m1]] eqn:Hy; [done|].
    apply IH.
    + intros z ma mb Hz. apply Hstep. by right.
    + intros z ma mb Hz. apply Hkeep. by right.
    + eapply Hstep; [left|done..].
    + eapply Hkeep; [left|done..].
Qed.

Lemma for_each_inv {A} (l : list A) (body : A → M unit)
    (I : model → Prop) (Q : A → model → Prop) m m' :
  (∀ x m1 m2, x ∈ l → I m1 → body x m1 = inr (tt, m2) → I m2 ∧ Q x m2) →
  (∀ x y m1 m2, y ∈ l → I m1 → Q x m1 → body y m1 = inr (tt, m2) → Q x m2) →
  I m → for_each l body m = inr (tt, m') →
  I m' ∧ ∀ x, x ∈ l → Q x m'.
Proof.
  revert m. induction l as [|y l IH]; intros m Hstep Hkeep Hm; simpl.
  - intros [= <-]. split; [done|]. by intros x ?%not_elem_of_nil.
  - rewrite run_bind. destruct (body y m) as [|[[] m1]] eqn:Hy; [done|].
    intros Hrest. destruct (Hstep y m m1 ltac:(left) Hm Hy) as [Hm1 Hq].
    destruct (IH m1) as [Hm' Hall]; [| |done|done|].
    + intros z ma mb Hz. apply Hstep. by right.
    + intros x z ma mb Hz. apply Hkeep. by right.
    + split; [done|]. intros x [->|Hx]%elem_of_cons; [|by apply Hall].
      eapply (for_each_keep l body I (Q y) m1 m'); [| |done..].
      * intros z ma mb Hz Hma Hb. eapply Hstep; [by right|done..].
      * intros z ma mb Hz. apply Hkeep. by right.
Qed.

Lemma data_get_set_eq i x d : data_get i (data_set i x d) = Some x.
Proof.
  induction d as [|[j y] d IH]; simpl.
  - by rewrite decide_True.
  - destruct (decide (i = j)) as [->|Hne]; simpl.
    + by rewrite decide_True.
    + by rewrite decide_False.
Qed.

Lemma data_get_set_ne i j x d : i ≠ j → data_get j (data_set i x d) = data_get j d.
Proof.
  intros Hne. induction d as [|[j0 y] d IH]; simpl.
  - by rewrite decide_False.
  - destruct (decide (i = j0)) as [->|Hne0]; simpl.
    + by rewrite !(decide_False (P := j = j0)).
    + destruct (decide (j = j0)); [done|apply IH].
Qed.

Lemma copy_element_inr v0 nv i m m' :
  copy_element v0 nv i m = inr (tt, m') →
  ∃ x, data_get i (v_data (get_var m v0)) = Some x ∧
    m' = with_var m nv
           (mkVar (v_is_indexed (get_var m nv)) (v_varlist (get_var m nv))
              (v_index_set (get_var m nv)) (v_domain (get_var m nv))
              (v_bounds (get_var m nv)) (data_set i x (v_data (get_var m nv)))).
Proof.
  unfold copy_element. rewrite run_bind, run_gets.
  destruct (data_get i (v_data (get_var m v0))) as [x|]; [|done].
  rewrite run_bind, run_gets. intros [= <-]. exists x. split; [done|].
  by destruct x.
Qed.

Lemma copy_loop v0 nv idx m m' :
  v0 ≠ nv → is_Some (m_vars m !! nv) →
  for_each idx (copy_element v0 nv) m = inr (tt, m') →
  (m_conns m' = m_conns m ∧ m_blocks m' = m_blocks m ∧
   (∀ w, w ≠ nv → m_vars m' !! w = m_vars m !! w) ∧
   is_Some (m_vars m' !! nv) ∧
   same_attrs (get_var m nv) (get_var m' nv)) ∧
  ∀ i, i ∈ idx →
    ∃ x, data_get i (v_data (get_var m v0)) = Some x ∧
         data_get i (v_data (get_var m' nv)) = Some x.
Proof.
  intros Hne Hnv.
  apply (for_each_inv idx (copy_element v0 nv)
    (λ mi, m_conns mi = m_conns m ∧ m_blocks mi = m_blocks m ∧
           (∀ w, w ≠ nv → m_vars mi !! w = m_vars m !! w) ∧
           is_Some (m_vars mi !! nv) ∧ same_attrs (get_var m nv) (get_var mi nv))
    (λ i mi, ∃ x, data_get i (v_data (get_var m v0)) = Some x ∧
                  data_get i (v_data (get_var mi nv)) = Some x)).
  - intros i m1 m2 _ (Hc & Hb & Hv & Hs & Ha) (x & Hx & ->)%copy_element_inr.
    assert (get_var m1 v0 = get_var m v0) as Hv0.
    { unfold get_var. by rewrite Hv. }
    split.
    + split_and!; simpl; [done|done| | |].
      * intros w Hw. rewrite lookup_insert_ne by done. by apply Hv.
      * rewrite lookup_insert_eq. eauto.
      * rewrite get_var_with_var_eq. done.
    + exists x. rewrite <-Hv0. split; [done|].
      rewrite get_var_with_var_eq. simpl. apply data_get_set_eq.
  - intros i j m1 m2 _ (Hc & Hb & Hv & Hs & Ha) (x & Hx & Hx')
      (y & Hy & ->)%copy_element_inr.
    assert (get_var m1 v0 = get_var m v0) as Hv0.
    { unfold get_var. by rewrite Hv. }
    exists x. split; [done|]. rewrite get_var_with_var_eq. simpl.
    destruct (decide (j = i)) as [->|Hji].
    + rewrite data_get_set_eq. congruence.
    + by rewrite data_get_set_ne.
  - split_and!; [done..|]. by split_and!.
Qed.

Lemma fill_field_inr c kv m m' :
  fill_field c kv m = inr (tt, m') →
  (∃ nv0, dict_get kv.1 (c_vars (get_conn m c)) = Some (Some nv0) ∧ m' = m) ∨
  (unassigned m c kv.1 ∧
   ∃ m3,
     for_each
       (default [] (if (0 <=? kv.2.1.2)%Z
                    then Some (v_index_set (get_var m kv.2.1.1)) else None))
       (copy_element kv.2.1.1 (fresh (dom (m_vars m))))
       (with_blocks
          (with_var m (fresh (dom (m_vars m)))
             (Var_new (if (0 <=? kv.2.1.2)%Z
                       then Some (v_index_set (get_var m kv.2.1.1)) else None)
                (v_domain (get_var m kv.2.1.1)) (v_bounds (get_var m kv.2.1.1))))
          (c_parent_block (get_conn m c))
          (get_block m (c_parent_block (get_conn m c)) ++
           [(c_name (get_conn m c) +:+ ".auto." +:+ kv.1,
             CVar (fresh (dom (m_vars m))))]))
     = inr (tt, m3) ∧
     m' = with_conn m3 c
            (mkConnector (c_name (get_conn m3 c)) (c_parent_block (get_conn m3 c))
               (dict_set kv.1 (Some (fresh (dom (m_vars m)))) (c_vars (get_conn m3 c)))
               (c_aggregators (get_conn m3 c)) (c_extensives (get_conn m3 c))
               (c_extensive_aggregators (get_conn m3 c)))).
Proof.
  unfold fill_field. cbv zeta. rewrite run_bind, run_gets.
  destruct (dict_get kv.1 (c_vars (get_conn m c))) as [[nv0|]|] eqn:Hk.
  - intros [= <-]. left. eauto.
  - rewrite run_bind, run_gets. unfold new_var_id. rewrite run_bind, run_gets.
    rewrite run_bind. unfold set_var, modify at 1.
    rewrite run_bind. unfold add_component, modify at 1.
    rewrite run_bind.
    match goal with |- context [for_each ?l ?b ?s] =>
      destruct (for_each l b s) as [|[[] m3]] eqn:Hloop; [done|] end.
    rewrite run_bind, run_gets. unfold set_conn, modify. intros [= <-].
    right. split; [by right|]. exists m3. split; [exact Hloop|done].
  - rewrite run_bind, run_gets. unfold new_var_id. rewrite run_bind, run_gets.
    rewrite run_bind. unfold set_var, modify at 1.
    rewrite run_bind. unfold add_component, modify at 1.
    rewrite run_bind.
    match goal with |- context [for_each ?l ?b ?s] =>
      destruct (for_each l b s) as [|[[] m3]] eqn:Hloop; [done|] end.
    rewrite run_bind, run_gets. unfold set_conn, modify. intros [= <-].
    right. split; [by left|]. exists m3. split; [exact Hloop|done].
Qed.

Lemma fresh_var_None m : m_vars m !! fresh (dom (m_vars m)) = None.
Proof. apply not_elem_of_dom, is_fresh. Qed.

Lemma fill_field_step m0 refs c kv mi mi' :
  kv ∈ refs → is_Some (m_vars m0 !! kv.2.1.1) →
  fill_inv m0 refs mi → fill_field c kv mi = inr (tt, mi') →
  fill_inv m0 refs mi' ∧
  ∃ nv, dict_get kv.1 (c_vars (get_conn mi' c)) = Some (Some nv).
Proof.
  intros Hkv [V0 HV0] (Hvars & Hnames & Hstatus) Hrun.
  apply fill_field_inr in Hrun as [(nv0 & Hk & ->)|(Hun & m3 & Hloop & ->)].
  { split; [done|eauto]. }
  set (nv := fresh (dom (m_vars mi))) in *.
  set (k := kv.1) in *. set (v0 := kv.2.1.1) in *.
  assert (m_vars mi !! nv = None) as Hfresh by apply fresh_var_None.
  assert (m_vars m0 !! nv = None) as Hfresh0.
  { destruct (m_vars m0 !! nv) as [V|] eqn:E; [|done].
    apply Hvars in E. congruence. }
  assert (v0 ≠ nv) as Hne by (intros E; rewrite E in HV0; congruence).
  assert (get_var mi v0 = V0) as HV0i.
  { apply get_var_lookup. by apply Hvars. }
  assert (get_var m0 v0 = V0) as HV0'.
  { by apply get_var_lookup. }
  rewrite HV0i in Hloop.
  apply copy_loop in Hloop as ((Hc3 & Hb3 & Hv3 & Hs3 & Ha3) & Hdata);
    [|done|simpl; rewrite lookup_insert_eq; eauto].
  simpl in Hc3, Hb3, Hv3.
  assert (∀ c', get_conn m3 c' = get_conn mi c') as Hconn3.
  { intros c'. unfold get_conn. by rewrite Hc3. }
  assert (∀ w, w ≠ nv → get_var m3 w = get_var mi w) as Hvar3.
  { intros w Hw. unfold get_var. rewrite Hv3 by done.
    by rewrite lookup_insert_ne. }
  assert (∀ b x, x ∈ get_block mi b → x ∈ get_block m3 b) as Hblk3.
  { intros b x Hx. unfold get_block at 1. rewrite Hb3.
    destruct (decide (c_parent_block (get_conn mi c) = b)) as [<-|Hpb].
    - rewrite lookup_insert_eq. simpl. apply elem_of_app. by left.
    - by rewrite lookup_insert_ne. }
  assert (unassigned m0 c k) as Hun0.
  { destruct (Hstatus c k) as [Heq|(_ & kv' & _ & Hk' & nv' & _ & _ & Hf & _)].
    - unfold unassigned. by rewrite <-Heq.
    - rewrite Hk' in Hf. destruct Hun as [Hun|Hun]; congruence. }
  rewrite !Hconn3.
  set (C' := mkConnector _ _ _ _ _ _).
  split.
  - split_and!.
    + intros v V Hv. simpl. rewrite Hv3.
      * rewrite lookup_insert_ne; [by apply Hvars|]. intros <-. congruence.
      * intros ->. congruence.
    + intros c'. destruct (decide (c = c')) as [<-|Hcc].
      * rewrite get_conn_with_conn_eq. simpl. apply Hnames.
      * rewrite get_conn_with_conn_ne by done. rewrite Hconn3. apply Hnames.
    + intros c' k'.
      destruct (decide (c = c' ∧ k = k')) as [[<- <-]|Hother].
      * right. split; [done|]. exists kv. split_and!; [done..|].
        exists nv. rewrite get_conn_with_conn_eq, get_block_with_conn,
          get_var_with_conn. simpl.
        split_and!; [done|done|apply dict_get_set_eq| |].
        -- destruct (Hnames c) as [<- <-]. unfold get_block.
           rewrite Hb3. simpl. rewrite lookup_insert_eq. simpl.
           apply elem_of_app. right. left.
        -- destruct Ha3 as (A1 & A2 & A3 & A4 & A5).
           rewrite get_var_with_blocks, get_var_with_var_eq in A1, A2, A3, A4, A5.
           simpl in A1, A2, A3, A4, A5.
           fold v0. rewrite HV0'.
           unfold mirrors. rewrite A1, A2, A3, A4, A5.
           destruct (Z.leb_spec 0 kv.2.1.2) as [Hn|Hn].
           ++ rewrite !bool_decide_eq_true_2 by done. simpl.
              split_and!; [done..|]. intros _ i Hi.
              destruct (Hdata i Hi) as (x & Hx & Hx').
              exists x. split; [|done].
              rewrite get_var_with_blocks, get_var_with_var_ne in Hx by done.
              by rewrite HV0i in Hx.
           ++ rewrite !(bool_decide_eq_false_2 (0 ≤ _)%Z) by lia. simpl.
              split_and!; [done..|]. intros ?. lia.
      * assert (dict_get k' (c_vars (get_conn (with_conn m3 c C') c')) =
                dict_get k' (c_vars (get_conn mi c'))) as Hsame.
        { destruct (decide (c = c')) as [<-|Hcc].
          - rewrite get_conn_with_conn_eq. simpl.
            apply dict_get_set_ne. intros ->. by apply Hother.
          - by rewrite get_conn_with_conn_ne, Hconn3. }
        rewrite Hsame.
        destruct (Hstatus c' k') as [Heq|(Hu & kv' & Hin & Hk' & nv' & F1 & F2 & F3 & F4 & F5)];
          [by left|right].
        split; [done|]. exists kv'. split_and!; [done..|].
        assert (nv' ≠ nv) as Hnn by (intros ->; destruct F2; congruence).
        exists nv'. rewrite get_block_with_conn, get_var_with_conn.
        split_and!; [done| | | |].
        -- simpl. rewrite Hv3 by done. by rewrite lookup_insert_ne.
        -- rewrite Hk'. rewrite Hsame. by rewrite <-Hk'.
        -- by apply Hblk3.
        -- by rewrite Hvar3.
  - exists nv. rewrite get_conn_with_conn_eq. simpl. apply dict_get_set_eq.
Qed.

Lemma copy_loop_conns v0 nv idx m m' :
  for_each idx (copy_element v0 nv) m = inr (tt, m') → m_conns m' = m_conns m.
Proof.
  intros H.
  apply (for_each_inv idx (copy_element v0 nv)
           (λ mi, m_conns mi = m_conns m) (λ _ _, True)) in H as [? _]; try done.
  intros i m1 m2 _ Hc (x & _ & ->)%copy_element_inr. done.
Qed.

Lemma fill_field_keeps c kv mi mi' c' k' :
  fill_field c kv mi = inr (tt, mi') →
  (∃ nv, dict_get k' (c_vars (get_conn mi c')) = Some (Some nv)) →
  ∃ nv, dict_get k' (c_vars (get_conn mi' c')) = Some (Some nv).
Proof.
  intros [(nv0 & Hk & ->)|(Hun & m3 & Hloop & ->)]%fill_field_inr (nv & Hnv);
    [eauto|].
  apply copy_loop_conns in Hloop. simpl in Hloop.
  assert (∀ c0, get_conn m3 c0 = get_conn mi c0) as Hconn3.
  { intros c0. unfold get_conn. by rewrite Hloop. }
  exists nv. destruct (decide (c = c')) as [<-|Hcc].
  - rewrite get_conn_with_conn_eq. simpl. rewrite Hconn3.
    rewrite dict_get_set_ne; [done|]. intros <-.
    destruct Hun as [Hun|Hun]; congruence.
  - by rewrite get_conn_with_conn_ne, Hconn3.
Qed.

Lemma fill_inv_init m0 refs : fill_inv m0 refs m0.
Proof. split_and!; [done|done|]. intros c k. by left. Qed.

Lemma fill_connectors_spec m0 eop refs m' :
  (∀ kv, kv ∈ refs → is_Some (m_vars m0 !! kv.2.1.1)) →
  fill_connectors eop refs m0 = inr (tt, m') →
  fill_inv m0 refs m' ∧
  ∀ c, c ∈ eop → ∀ kv, kv ∈ refs →
    ∃ nv, dict_get kv.1 (c_vars (get_conn m' c)) = Some (Some nv).
Proof.
  intros Hstore Hrun. unfold fill_connectors in Hrun.
  apply (for_each_inv eop _ (fill_inv m0 refs)
    (λ c mi, ∀ kv, kv ∈ refs →
       ∃ nv, dict_get kv.1 (c_vars (get_conn mi c)) = Some (Some nv)))
    in Hrun; [done| | |apply fill_inv_init].
  - intros c m1 m2 _ Hinv1 Hinner.
    apply (for_each_inv refs _ (fill_inv m0 refs)
      (λ kv mi, ∃ nv, dict_get kv.1 (c_vars (get_conn mi c)) = Some (Some nv)))
      in Hinner; [done| | |done].
    + intros kv ma mb Hin Hinva Hf.
      by apply (fill_field_step m0 refs c kv ma mb Hin (Hstore kv Hin)).
    + intros kv kv' ma mb _ _ Hq Hf. by eapply fill_field_keeps.
  - intros c c' m1 m2 _ Hinv1 Hq Hinner kv Hkv. specialize (Hq kv Hkv).
    eapply (for_each_keep refs _ (fill_inv m0 refs)
      (λ mi, ∃ nv, dict_get kv.1 (c_vars (get_conn mi c)) = Some (Some nv)));
      [| |done|exact Hq|done].
    + intros kv' ma mb Hin Hinva Hf.
      by apply (fill_field_step m0 refs c' kv' ma mb Hin (Hstore kv' Hin)).
    + intros kv' ma mb _ _ Hqa Hf. by eapply fill_field_keeps.
Qed.

Lemma dict_get_None_keys {V} k (d : list (string * V)) :
  dict_get k d = None ↔ k ∉ fst <$> d.
Proof.
  induction d as [|[k' v] d IH]; simpl.
  - split; [intros _ []%not_elem_of_nil|done].
  - rewrite not_elem_of_cons. destruct (decide (k = k')) as [->|Hne]; naive_solver.
Qed.

Lemma dict_set_absent {V} k (v : V) d :
  dict_get k d = None → dict_set k v d = d ++ [(k, v)].
Proof.
  induction d as [|[k' v'] d IH]; simpl; [done|].
  destruct (decide (k = k')); [done|]. intros H. by rewrite IH.
Qed.

Lemma collect_field_keys m c ref kv :
  NoDup (fst <$> ref) → NoDup (fst <$> collect_field m c ref kv).
Proof.
  intros Hnd. unfold collect_field.
  destruct (dict_has kv.1 ref) eqn:Hhas; [done|].
  destruct kv.2 as [v|]; [|done].
  apply dict_has_false in Hhas. rewrite dict_set_absent by done.
  rewrite fmap_app. apply NoDup_app. split_and!; [done| |apply NoDup_singleton].
  intros k Hk ->%list_elem_of_singleton. by apply dict_get_None_keys in Hhas.
Qed.

Lemma collect_fields_keys m connectors : NoDup (fst <$> collect_fields m connectors).
Proof.
  unfold collect_fields.
  assert (∀ ref, NoDup (fst <$> ref) →
    NoDup (fst <$> foldl (λ ref c, foldl (collect_field m c) ref
                                     (c_vars (get_conn m c))) ref connectors)) as H.
  { induction connectors as [|c rest IH]; intros ref Href; simpl; [done|].
    apply IH. generalize (c_vars (get_conn m c)). intros vars. revert ref Href.
    induction vars as [|kv vars IHv]; intros ref Href; simpl; [done|].
    by apply IHv, collect_field_keys. }
  apply H. constructor.
Qed.

Lemma check_connector_partial m c ref p b :
  check_connector m c ref p = inr b →
  (p = true → b = true) ∧
  (∀ entry, entry ∈ ref →
     dict_get entry.1 (c_vars (get_conn m c)) = Some None → b = true).
Proof.
  revert p. induction ref as [|[k [[v0 n0] c0]] ref IH]; intros p; simpl.
  - intros [= <-]. split; [done|]. by intros entry ?%not_elem_of_nil.
  - destruct (dict_get k (c_vars (get_conn m c))) as [[v|]|] eqn:Hk; [| |done].
    + destruct (xorb _ _); [done|]. destruct (_ && negb _); [done|].
      destruct (_ && (0 <? _)); [done|].
      intros [Hp Hall]%IH. split; [done|].
      intros entry [->|Hin]%elem_of_cons; [simpl; congruence|by apply Hall].
    + intros [Hp Hall]%IH. split; [by intros _; apply Hp|].
      intros entry [->|Hin]%elem_of_cons; [by intros _; apply Hp|by apply Hall].
Qed.

Lemma check_connector_none m c ref p b entry :
  check_connector m c ref p = inr b → entry ∈ ref →
  dict_get entry.1 (c_vars (get_conn m c)) ≠ None.
Proof.
  intros Hchk Hin Hnone.
  destruct entry as [k [[v0 n0] c0]].
  by eapply (check_connector_inr _ _ _ _ _ _ _ Hchk Hin), dis_missing.
Qed.

Lemma check_connectors_eop m connectors ref acc eop :
  check_connectors m connectors ref acc = inr eop →
  (∀ c, c ∈ acc → c ∈ eop) ∧
  ∀ c entry, c ∈ connectors → entry ∈ ref →
    unassigned m c entry.1 → c ∈ eop.
Proof.
  revert acc. induction connectors as [|c rest IH]; intros acc; simpl.
  - intros [= <-]. split; [done|]. by intros c entry ?%not_elem_of_nil.
  - destruct (c_vars (get_conn m c)) as [|kv0 vars] eqn:Hvars.
    + intros [Hacc Hall]%IH. split.
      * intros c' Hc'. apply Hacc, elem_of_app. by left.
      * intros c' entry [->|Hin]%elem_of_cons Hentry Hun; [|by eapply Hall].
        apply Hacc, elem_of_app. right. left.
    + destruct (check_connector m c ref false) as [|partial] eqn:Hc; [done|].
      intros [Hacc Hall]%IH. split.
      * intros c' Hc'. apply Hacc. destruct partial; [|done].
        apply elem_of_app. by left.
      * intros c' entry [->|Hin]%elem_of_cons Hentry Hun; [|by eapply Hall].
        destruct Hun as [Hun|Hun].
        -- by destruct (check_connector_none _ _ _ _ _ _ Hc Hentry).
        -- destruct (check_connector_partial _ _ _ _ _ Hc) as [_ Hp].
           rewrite (Hp entry Hentry Hun) in Hacc.
           apply Hacc, elem_of_app. right. left.
Qed.

Lemma elem_of_sort_empty_or_partial m l c :
  c ∈ sort_empty_or_partial m l ↔ c ∈ l.
Proof.
  unfold sort_empty_or_partial. case_decide; [|done]. by rewrite sorted_by_perm.
Qed.

Lemma expansion_fills m connectors ref m' :
  validate_and_expand_connector_set connectors m = inr (ref, m') →
  (∀ kv, kv ∈ ref → is_Some (m_vars m !! kv.2.1.1)) →
  ∀ c kv, c ∈ connectors → kv ∈ ref → unassigned m c kv.1 →
    filled m m' c kv.
Proof.
  rewrite validate_unfold. intros Hrun Hstore c kv Hc Hkv Hun.
  pose proof (collect_fields_keys m connectors) as Hkeys.
  destruct (collect_fields m connectors) as [|e r] eqn:Href; [done|].
  destruct (check_connectors m connectors (e :: r) []) as [|eop] eqn:Hchk; [done|].
  rewrite run_bind in Hrun.
  destruct (fill_connectors _ _ m) as [|[[] m1]] eqn:Hfill; [done|].
  injection Hrun as <- <-.
  apply fill_connectors_spec in Hfill as [(_ & _ & Hstatus) Hassigned].
  2: { intros kv' Hkv'. apply Hstore. unfold sorted_items in Hkv'.
       by rewrite sorted_by_perm in Hkv'. }
  destruct (check_connectors_eop _ _ _ _ _ Hchk) as [_ Heop].
  assert (c ∈ sort_empty_or_partial m eop) as Hceop.
  { apply elem_of_sort_empty_or_partial. by eapply Heop. }
  assert (kv ∈ sorted_items (e :: r)) as Hkvs.
  { unfold sorted_items. by rewrite sorted_by_perm. }
  destruct (Hassigned c Hceop kv Hkvs) as [nv Hnv].
  destruct (Hstatus c kv.1) as [Heq|(_ & kv' & Hkv' & Hk' & Hfilled)].
  - rewrite Hnv in Heq. destruct Hun as [Hun|Hun]; congruence.
  - unfold sorted_items in Hkv'. rewrite sorted_by_perm in Hkv'.
    by rewrite <-(NoDup_fmap_elem_inj fst (e :: r) kv' kv Hkeys Hkv' Hkv Hk').
Qed.

Lemma for_each_returns {A} (l : list A) (body : A → M unit) (I : model → Prop) m :
  (∀ x m1, x ∈ l → I m1 → ∃ m2, body x m1 = inr (tt, m2) ∧ I m2) →
  I m → ∃ m', for_each l body m = inr (tt, m') ∧ I m'.
Proof.
  revert m. induction l as [|x l IH]; intros m Hstep Hm; simpl.
  - by exists m.
  - destruct (Hstep x m ltac:(left) Hm) as (m1 & Hx & Hm1).
    rewrite run_bind, Hx. apply IH; [|done].
    intros y m2 Hy. apply Hstep. by right.
Qed.

Lemma copy_loop_returns v0 nv idx V0 m :
  v0 ≠ nv → get_var m v0 = V0 →
  (∀ i, i ∈ idx → is_Some (data_get i (v_data V0))) →
  ∃ m', for_each idx (copy_element v0 nv) m = inr (tt, m').
Proof.
  intros Hne HV0 Hdata.
  destruct (for_each_returns idx (copy_element v0 nv)
              (λ mi, get_var mi v0 = V0) m) as (m' & ? & _); [|done|by eauto].
  intros i m1 Hi Hm1. unfold copy_element. rewrite run_bind, run_gets, Hm1.
  destruct (Hdata i Hi) as [x ->]. rewrite run_bind, run_gets.
  eexists. split; [reflexivity|]. by rewrite get_var_with_var_ne.
Qed.

Lemma fill_field_returns m0 refs c kv mi :
  kv ∈ refs →
  (∃ V0, m_vars m0 !! kv.2.1.1 = Some V0 ∧
     ((0 ≤ kv.2.1.2)%Z → ∀ i, i ∈ v_index_set V0 → is_Some (data_get i (v_data V0)))) →
  fill_inv m0 refs mi →
  ∃ mi', fill_field c kv mi = inr (tt, mi') ∧ fill_inv m0 refs mi'.
Proof.
  intros Hkv (V0 & HV0 & Hdense) Hinv.
  assert (∃ mi', fill_field c kv mi = inr (tt, mi')) as [mi' Hrun].
  { destruct Hinv as (Hvars & _ & _).
    pose proof (get_var_lookup _ _ _ (Hvars _ _ HV0)) as HV0i.
    unfold fill_field. cbv zeta. rewrite run_bind, run_gets.
    assert (kv.2.1.1 ≠ fresh (dom (m_vars mi))) as Hne.
    { intros E. pose proof (fresh_var_None mi) as Hf. rewrite <-E in Hf.
      rewrite (Hvars _ _ HV0) in Hf. done. }
    assert (∀ idx, (match idx with
                    | Some l => ∀ i, i ∈ l → is_Some (data_get i (v_data V0))
                    | None => True end) →
      ∀ m1, get_var m1 kv.2.1.1 = V0 →
      ∃ m', for_each (default [] idx)
              (copy_element kv.2.1.1 (fresh (dom (m_vars mi)))) m1 = inr (tt, m'))
      as Hloop.
    { intros idx Hidx m1 Hm1. eapply copy_loop_returns; [done..|].
      destruct idx as [l|]; [done|]. by intros i ?%not_elem_of_nil. }
    destruct (dict_get kv.1 (c_vars (get_conn mi c))) as [[nv0|]|];
      [by eexists| |].
    - rewrite run_bind, run_gets. unfold new_var_id. rewrite run_bind, run_gets.
      rewrite run_bind. unfold set_var, modify at 1.
      rewrite run_bind. unfold add_component, modify at 1. rewrite run_bind.
      rewrite HV0i.
      match goal with |- context [for_each (default [] ?idx) ?b ?st] =>
        destruct (Hloop idx) with (m1 := st) as [m3 ->] end.
      + destruct (Z.leb_spec 0 kv.2.1.2); [by apply Hdense|done].
      + rewrite get_var_with_blocks, get_var_with_var_ne by done. done.
      + rewrite run_bind, run_gets. by eexists.
    - rewrite run_bind, run_gets. unfold new_var_id. rewrite run_bind, run_gets.
      rewrite run_bind. unfold set_var, modify at 1.
      rewrite run_bind. unfold add_component, modify at 1. rewrite run_bind.
      rewrite HV0i.
      match goal with |- context [for_each (default [] ?idx) ?b ?st] =>
        destruct (Hloop idx) with (m1 := st) as [m3 ->] end.
      + destruct (Z.leb_spec 0 kv.2.1.2); [by apply Hdense|done].
      + rewrite get_var_with_blocks, get_var_with_var_ne by done. done.
      + rewrite run_bind, run_gets. by eexists. }
  exists mi'. split; [done|].
  by destruct (fill_field_step m0 refs c kv mi mi' Hkv ltac:(eauto) Hinv Hrun).
Qed.

Lemma fill_connectors_returns m0 eop refs :
  (∀ kv, kv ∈ refs →
     ∃ V0, m_vars m0 !! kv.2.1.1 = Some V0 ∧
       ((0 ≤ kv.2.1.2)%Z →
        ∀ i, i ∈ v_index_set V0 → is_Some (data_get i (v_data V0)))) →
  ∃ m', fill_connectors eop refs m0 = inr (tt, m').
Proof.
  intros Hstore. unfold fill_connectors.
  destruct (for_each_returns eop (λ c, for_each refs (fill_field c))
              (fill_inv m0 refs) m0) as (m' & ? & _);
    [|apply fill_inv_init|by eauto].
  intros c m1 _ Hm1. apply for_each_returns; [|done].
  intros kv m2 Hkv Hm2. by apply (fill_field_returns m0 refs c kv m2 Hkv (Hstore kv Hkv)).
Qed.

(** C4 (as amended).  Take a class whose canonical reference is not empty
    and with which no connector disagrees, in a store that holds the
    canonical variables, each indexed one with an element at every index of
    its index set.  Then validation and expansion return the reference, and
    every connector of the class that lacked a canonical field, or had it
    with the value None, holds for that field a variable that did not exist
    before; the variable is attached to the connector's parent block under
    the name [<fully-qualified name>.auto.<field>]; it is indexed over the
    canonical index set when the canonical shape code is not negative and
    scalar otherwise (also when the canonical field is an aggregator whose
    VarList is indexed); its domain and bounds are those of the canonical
    variable where that has them, and for an indexed field each element has
    the domain and bounds of the canonical element at the same index. *)
Theorem expansion_fills_unassigned_fields
    (m : model) (connectors : list nat) :
  collect_fields m connectors ≠ [] →
  (∀ c entry mm, c ∈ connectors → c_vars (get_conn m c) ≠ [] →
     entry ∈ collect_fields m connectors → ¬ disagreement m c entry mm) →
  (∀ kv, kv ∈ collect_fields m connectors →
     ∃ V0, m_vars m !! kv.2.1.1 = Some V0 ∧
       ((0 ≤ kv.2.1.2)%Z →
        ∀ i, i ∈ v_index_set V0 → is_Some (data_get i (v_data V0)))) →
  ∃ m', validate_and_expand_connector_set connectors m
          = inr (collect_fields m connectors, m') ∧
    ∀ c kv, c ∈ connectors → kv ∈ collect_fields m connectors →
      unassigned m c kv.1 → filled m m' c kv.
Proof.
  intros Hne Hagree Hstore.
  assert (∃ m', validate_and_expand_connector_set connectors m
                  = inr (collect_fields m connectors, m')) as [m' Hrun].
  { rewrite validate_unfold.
    destruct (collect_fields m connectors) as [|e r] eqn:Href; [done|].
    destruct (check_connectors m connectors (e :: r) []) as [err|eop] eqn:Hchk.
    - apply check_connectors_inl in Hchk as (c & entry & mm & ? & ? & ? & _ & ?).
      by destruct (Hagree c entry mm).
    - destruct (fill_connectors_returns m (sort_empty_or_partial m eop)
                  (sorted_items (e :: r))) as [m' Hfill].
      { intros kv Hkv. apply Hstore. unfold sorted_items in Hkv.
        by rewrite sorted_by_perm in Hkv. }
      exists m'. by rewrite run_bind, Hfill. }
  exists m'. split; [done|].
  apply (expansion_fills m connectors _ m' Hrun).
  intros kv Hkv. destruct (Hstore kv Hkv) as (V0 & -> & _). eauto.
Qed.

Lemma expansion_fills_unassigned_fields_witness :
  ∃ m', validate_and_expand_connector_set [1; 4] ex_model_empty
          = inr ([("flow", (20, (-2)%Z, 1))], m') ∧
        filled ex_model_empty m' 4 ("flow", (20, (-2)%Z, 1)).
Proof.
  assert (collect_fields ex_model_empty [1; 4] = [("flow", (20, (-2)%Z, 1))])
    as Href by (vm_compute; reflexivity).
  destruct (expansion_fills_unassigned_fields ex_model_empty [1; 4])
    as (m' & Hrun & Hall).
  - rewrite Href. discriminate.
  - intros c entry mm Hc Hvars Hentry.
    apply (check_connectors_inr ex_model_empty [1; 4]
             (collect_fields ex_model_empty [1; 4]) [] [4]); [|done..].
    vm_compute. reflexivity.
  - rewrite Href. intros kv ->%list_elem_of_singleton.
    exists ex_varlist. split; [vm_compute; reflexivity|]. simpl. lia.
  - rewrite Href in Hrun, Hall. exists m'. split; [exact Hrun|].
    apply Hall.
    + right. left.
    + left.
    + left. reflexivity.
Defined.

(** C4 (as stated) fails where the canonical field is an aggregator: the
    canonical variable of [flow] is the VarList 20, which is indexed, and the
    variable created for the empty connector 4 is scalar. *)
Lemma expansion_shape_counterexample :
  ∃ m' nv,
    validate_and_expand_connector_set [1; 4] ex_model_empty
      = inr ([("flow", (20, (-2)%Z, 1))], m') ∧
    dict_get "flow" (c_vars (get_conn m' 4)) = Some (Some nv) ∧
    v_is_indexed (get_var m' nv) = Some false ∧
    v_is_indexed (get_var ex_model_empty 20) = Some true.
Proof.
  eexists _, _. split_and!.
  - vm_compute. reflexivity.
  - vm_compute. reflexivity.
  - vm_compute. reflexivity.
  - reflexivity.
Qed.

(** ** The order of the generated output *)














(** ** Runs on small models *)

(** Four components: the third joins the classes of the first two (the class
    of 1 and 2 is merged into the larger class of 3, 4 and 5), the fourth
    connects connector 7 to itself. *)
Example scan_four_components :
  classes (scan [Comp 0 IsConstraint [1; 2]; Comp 1 IsConnection [3; 4; 5];
                 Comp 2 IsConstraint [2; 5; 6]; Comp 3 IsConnection [7; 7]])
  = [[3; 4; 5; 1; 2; 6]; [7]].
Proof. vm_compute. reflexivity. Qed.

Example scan_four_components_records :
  connection_list
    (scan [Comp 0 IsConstraint [1; 2]; Comp 1 IsConnection [3; 4; 5];
           Comp 2 IsConstraint [2; 5; 6]; Comp 3 IsConnection [7; 7]])
  = [(Comp 1 IsConnection [3; 4; 5], [3; 4; 5]);
     (Comp 3 IsConnection [7; 7], [7])].
Proof. vm_compute. reflexivity. Qed.

Example validate_mixed :
  validate_and_expand_connector_set [1; 2] ex_model_mixed
  = inl (ValueError (MixedIndexing "x" "a" "b")).
Proof. vm_compute. reflexivity. Qed.

Example validate_mixed_other_order :
  validate_and_expand_connector_set [2; 1] ex_model_mixed
  = inl (ValueError (MixedIndexing "x" "b" "a")).
Proof. vm_compute. reflexivity. Qed.

Example connect_aggregator_pair :
  block_after
    (add_connections 5 [1; 2] {[1 := 0; 2 := 0]}
       {[0 := [("flow", (20, (-2)%Z, 1))]]} ex_model_aggregator) 5
  = Some [("flow_equality", CConstraint (mkConstraint [] "flow" [1; 2] None))].
Proof. vm_compute. reflexivity. Qed.

Example rule_three_connectors :
  fst <$> (match rule "flow" [1; 2; 3] None [] ex_model_aggregator with
           | inl _ => None
           | inr r => Some r
           end)
  = Some (EEq (TAdd 20 1) (TGetItem 21 None)).
Proof. vm_compute. reflexivity. Qed.

(** * Further properties of the transformation *)

(** ** What the scan records *)

Lemma first_seen_cs_update acc l :
  cs_update acc l = acc ++ filter (λ x, x ∉ acc) (first_seen l).
Proof.
  revert acc. induction l as [|c l IH]; intros acc.
  - simpl. by rewrite app_nil_r.
  - change (cs_update acc (c :: l)) with (cs_update (cs_add c acc) l).
    rewrite IH. unfold cs_add. simpl. case_decide as Hc.
    + rewrite filter_cons_False by (intros H; by apply H).
      f_equal. rewrite list_filter_filter. apply list_filter_iff.
      intros x. split; [|by intros [? _]]. intros Hx. split; [done|].
      by intros ->.
    + rewrite filter_cons_True by done. rewrite <-app_assoc. simpl.
      do 2 f_equal. rewrite list_filter_filter. apply list_filter_iff.
      intros x. rewrite elem_of_app, list_elem_of_singleton. tauto.
Qed.

Lemma cs_update_first_seen l : cs_update [] l = first_seen l.
Proof.
  rewrite first_seen_cs_update. simpl.
  induction (first_seen l) as [|x l' IH]; [done|].
  rewrite filter_cons_True by apply not_elem_of_nil. by rewrite IH.
Qed.

Lemma cs_update_snoc s l c : cs_update s (l ++ [c]) = cs_add c (cs_update s l).
Proof. unfold cs_update. by rewrite foldl_app. Qed.

Lemma cs_update_app s l1 l2 : cs_update s (l1 ++ l2) = cs_update (cs_update s l1) l2.
Proof. unfold cs_update. by rewrite foldl_app. Qed.

Lemma visit_list c s ref :
  scan_wf s →
  connector_list (visit c (s, ref)).1 = cs_add c (connector_list s).
Proof.
  intros Hwf. unfold cs_add. unfold visit.
  destruct (matched_connectors s !! c) as [a|] eqn:Hc.
  - rewrite decide_True by (apply (wf_list s Hwf); eauto).
    destruct ref as [r|]; [|done]. repeat case_decide; done.
  - rewrite decide_False.
    + by destruct ref.
    + intros [a Ha]%(wf_list s Hwf). congruence.
Qed.

Lemma visit_fold_lists s its :
  scan_wf s →
  connector_list (foldl (λ st c, visit c st) (s, None) its).1
    = cs_update (connector_list s) its ∧
  found (foldl (λ st c, visit c st) (s, None) its).1 = cs_update (found s) its ∧
  constraint_list (foldl (λ st c, visit c st) (s, None) its).1
    = constraint_list s ∧
  connection_list (foldl (λ st c, visit c st) (s, None) its).1
    = connection_list s.
Proof.
  intros Hwf. induction its as [|c p IH] using rev_ind; [done|].
  destruct (visit_fold s p Hwf) as (sp & refp & Hfold & Hwfp & _).
  rewrite foldl_app, !cs_update_snoc. simpl. rewrite Hfold in IH |- *.
  simpl in IH. destruct IH as (<- & <- & <- & <-).
  destruct (visit_frame c sp refp) as (-> & -> & ->).
  by rewrite (visit_list c sp refp Hwfp).
Qed.

Lemma recorded_snoc kind comps cp :
  recorded kind (comps ++ [cp]) =
    recorded kind comps ++
    (if decide (same_kind (comp_kind cp) kind = true ∧ comp_itr cp ≠ [])
     then [(cp, first_seen (comp_itr cp))] else []).
Proof.
  unfold recorded. rewrite filter_app, fmap_app. f_equal.
  case_decide.
  - by rewrite filter_cons_True.
  - by rewrite filter_cons_False.
Qed.

Lemma scan_comp_lists s cp :
  scan_wf s → found s = [] →
  connector_list (scan_comp s cp) = cs_update (connector_list s) (comp_itr cp) ∧
  found (scan_comp s cp) = [] ∧
  constraint_list (scan_comp s cp) =
    constraint_list s ++ recorded IsConstraint [cp] ∧
  connection_list (scan_comp s cp) =
    connection_list s ++ recorded IsConnection [cp].
Proof.
  intros Hwf Hfound.
  destruct (visit_fold_lists s (comp_itr cp) Hwf) as (Hl & Hf & Hc & Hn).
  destruct (visit_fold s (comp_itr cp) Hwf)
    as (s1 & ref & Hfold & _ & Hnil & Hcons & _).
  unfold scan_comp. rewrite Hfold in *. simpl in *.
  rewrite Hfound, cs_update_first_seen in Hf.
  rewrite !(recorded_snoc _ [] cp).
  change (recorded IsConstraint []) with (@nil (comp * list nat)).
  change (recorded IsConnection []) with (@nil (comp * list nat)). simpl.
  destruct (comp_itr cp) as [|c0 its] eqn:Hits.
  - destruct Hnil as [-> ->]; [done|].
    rewrite !decide_False by (by intros [_ ?]). by rewrite !app_nil_r.
  - destruct Hcons as (r & -> & _); [done|].
    destruct (comp_kind cp); simpl;
      rewrite ?decide_True by done; rewrite ?decide_False by (by intros [? _]);
      rewrite ?app_nil_r, Hf, Hl, Hc, Hn; done.
Qed.

Lemma scan_lists comps :
  connector_list (scan comps) = first_seen (mjoin (comp_itr <$> comps)) ∧
  found (scan comps) = [] ∧
  constraint_list (scan comps) = recorded IsConstraint comps ∧
  connection_list (scan comps) = recorded IsConnection comps.
Proof.
  rewrite <-cs_update_first_seen.
  induction comps as [|cp comps IH] using rev_ind; [done|].
  destruct IH as (Hl & Hf & Hc & Hn).
  destruct (scan_spec comps) as [Hwf _].
  rewrite scan_snoc.
  destruct (scan_comp_lists (scan comps) cp Hwf Hf) as (-> & -> & -> & ->).
  rewrite Hl, Hc, Hn, fmap_app, join_app, cs_update_app. simpl.
  rewrite app_nil_r. rewrite !recorded_snoc.
  by rewrite !(recorded_snoc _ [] cp).
Qed.

(** X1.  [connector_list] is the discovery order: the connectors that the
    components yield, each once, in the order in which the scan first meets
    them. *)
Theorem connector_list_discovery_order (comps : list comp) :
  connector_list (scan comps) = first_seen (mjoin (comp_itr <$> comps)).
Proof. apply scan_lists. Qed.

(** X2.  The scan leaves one record [(comp, found)] for each component that
    yields at least one connector, constraints in [constraint_list] and
    connections in [connection_list], each list in the order of the scan;
    [found] holds the connectors of that component alone, because the
    accumulator is empty again when the next component starts.  A component
    that yields no connector leaves no record. *)
Theorem scan_records (comps : list comp) :
  constraint_list (scan comps) = recorded IsConstraint comps ∧
  connection_list (scan comps) = recorded IsConnection comps ∧
  found (scan comps) = [].
Proof. destruct (scan_lists comps) as (_ & ? & ? & ?). done. Qed.

Lemma elem_of_first_seen l x : x ∈ first_seen l ↔ x ∈ l.
Proof.
  rewrite <-cs_update_first_seen, elem_of_cs_update.
  split; [intros [[]%not_elem_of_nil|]; done|by right].
Qed.

Lemma NoDup_first_seen l : NoDup (first_seen l).
Proof. rewrite <-cs_update_first_seen. apply NoDup_cs_update. constructor. Qed.

Lemma elem_of_recorded kind comps cp fnd :
  (cp, fnd) ∈ recorded kind comps ↔
  cp ∈ comps ∧ same_kind (comp_kind cp) kind = true ∧ comp_itr cp ≠ [] ∧
  fnd = first_seen (comp_itr cp).
Proof.
  unfold recorded. rewrite list_elem_of_fmap. split.
  - intros (cp' & [= <- ->] & (? & ?)%list_elem_of_filter). naive_solver.
  - intros (? & ? & ? & ->). exists cp. split; [done|].
    by apply list_elem_of_filter.
Qed.

Lemma recorded_in_class comps cp fnd :
  (cp, fnd) ∈ constraint_list (scan comps) ++ connection_list (scan comps) →
  cp ∈ comps ∧ fnd ≠ [] ∧ NoDup fnd ∧ (∀ c, c ∈ fnd ↔ c ∈ comp_itr cp) ∧
  ∃ a g, connector_groups (scan comps) !! a = Some (g, a) ∧
    ∀ c, c ∈ fnd →
      matched_connectors (scan comps) !! c = Some a ∧
      c ∈ deref (heap (scan comps)) a.
Proof.
  destruct (scan_lists comps) as (_ & _ & -> & ->).
  destruct (scan_spec comps) as [Hwf Hsame].
  intros Hin.
  assert (cp ∈ comps ∧ comp_itr cp ≠ [] ∧ fnd = first_seen (comp_itr cp))
    as (Hcp & Hne & ->).
  { apply elem_of_app in Hin as [H|H]; apply elem_of_recorded in H; naive_solver. }
  split_and!; [done| |apply NoDup_first_seen|apply elem_of_first_seen|].
  { destruct (comp_itr cp); [done|]. simpl. done. }
  destruct (comp_itr cp) as [|c0 its] eqn:Hits; [done|].
  assert (∀ c, c ∈ c0 :: its → same_class (scan comps) c0 c) as Hcls.
  { intros c Hc. apply Hsame, tc_once. exists cp. rewrite Hits.
    split_and!; [done|left|done]. }
  destruct (Hcls c0) as (a & Ha & _); [left|].
  destruct (wf_mc _ Hwf c0 a Ha) as (g & Hg & _).
  exists a, g. split; [done|]. intros c Hc.
  apply (proj1 (elem_of_first_seen _ _)) in Hc.
  destruct (Hcls c Hc) as (a' & Ha' & Hc'). simplify_eq.
  split; [done|]. by destruct (wf_mc _ Hwf c a Hc') as (? & _ & ?).
Qed.

(** X3.  The connectors of one record lie in one class: the set [found]
    that the scan records for a component is not empty, holds each connector
    of the component once, and all its members point, in
    [matched_connectors], to one and the same live group, whose set holds
    them.  Whichever member [next(iter(conn_set))] yields (lines 267 and
    364), it leads to the same class. *)
Theorem recorded_set_in_one_class (comps : list comp) (cp : comp) (fnd : list nat) :
  (cp, fnd) ∈ constraint_list (scan comps) ++ connection_list (scan comps) →
  cp ∈ comps ∧ fnd ≠ [] ∧ NoDup fnd ∧ (∀ c, c ∈ fnd ↔ c ∈ comp_itr cp) ∧
  ∃ a g, connector_groups (scan comps) !! a = Some (g, a) ∧
    ∀ c, c ∈ fnd →
      matched_connectors (scan comps) !! c = Some a ∧
      c ∈ deref (heap (scan comps)) a.
Proof. apply recorded_in_class. Qed.

Lemma recorded_set_in_one_class_witness :
  ∃ a, matched_connectors
         (scan [Comp 0 IsConstraint [1; 2]; Comp 1 IsConnection [2; 3; 2]]) !! 2
         = Some a ∧
       matched_connectors
         (scan [Comp 0 IsConstraint [1; 2]; Comp 1 IsConnection [2; 3; 2]]) !! 3
         = Some a.
Proof.
  destruct (recorded_set_in_one_class
              [Comp 0 IsConstraint [1; 2]; Comp 1 IsConnection [2; 3; 2]]
              (Comp 1 IsConnection [2; 3; 2]) [2; 3])
    as (_ & _ & _ & _ & a & g & _ & Hall).
  - vm_compute. right. left.
  - exists a. split.
    + apply Hall. left.
    + apply Hall. right. left.
Defined.

(** ** The references of the classes *)

Lemma validate_classes_dom groups h known m known' m' :
  validate_classes groups h known m = inr (known', m') →
  ∀ a, is_Some (known' !! a) ↔ is_Some (known !! a) ∨ a ∈ snd <$> groups.
Proof.
  revert known m. induction groups as [|g rest IH]; intros known m; simpl.
  - intros [= <- <-] a. split; [by left|]. by intros [?|[]%not_elem_of_nil].
  - rewrite run_bind.
    destruct (validate_and_expand_connector_set (deref h g.2) m)
      as [|[ref m1]]; [done|].
    intros H a. rewrite (IH _ _ H a), elem_of_cons.
    destruct (decide (a = g.2)) as [->|Hne].
    + rewrite lookup_insert_eq. split; [|intros _; left]; eauto.
    + rewrite lookup_insert_ne by done. naive_solver.
Qed.

Lemma collect_connectors_known comps m s known m' :
  collect_connectors comps m = inr ((s, known), m') →
  s = scan comps ∧
  ∀ a, is_Some (known !! a) ↔ is_Some (connector_groups s !! a).
Proof.
  unfold collect_connectors. cbv zeta. rewrite run_bind.
  destruct (validate_groups _ _ m) as [|[known0 m1]] eqn:Hv; [done|].
  intros [= <- <- <-]. split; [done|].
  destruct (scan_spec comps) as [Hwf _].
  intros a. unfold validate_groups in Hv.
  rewrite (validate_classes_dom _ _ _ _ _ _ Hv a), lookup_empty.
  assert (a ∈ (sorted_groups (group_values (scan comps))).*2 ↔
          is_Some (connector_groups (scan comps) !! a)) as <-; [|split].
  - rewrite list_elem_of_fmap. split.
    + intros ([g b] & -> & Hin). rewrite sorted_groups_perm in Hin.
      apply elem_of_group_values in Hin as (a & Ha).
      destruct (wf_grp _ Hwf a g b Ha) as (-> & _). eauto.
    + intros [[g b] Ha]. destruct (wf_grp _ Hwf a g b Ha) as (-> & _).
      exists (g, a). split; [done|]. rewrite sorted_groups_perm.
      apply elem_of_group_values. eauto.
  - by intros [[? [=]]|?].
  - by right.
Qed.

(** X4.  When [_collect_connectors] returns, [known_conn_sets] has an entry
    for every class and for nothing else, so that the lookup
    [known_conn_sets[id(matched_connectors[conn])]] of lines 268 and 365
    finds a reference for every record of the scan, the same one whichever
    member of the recorded set comes first; [_add_connections] then goes on
    to the fields of that reference. *)
Theorem recorded_connection_reference
    (comps : list comp) (m m' : model) (s : scan_state)
    (known : gmap nat (list (string * (nat * Z * nat))))
    (cp : comp) (fnd : list nat) :
  collect_connectors comps m = inr ((s, known), m') →
  (cp, fnd) ∈ constraint_list s ++ connection_list s →
  (∀ a, is_Some (known !! a) ↔ is_Some (connector_groups s !! a)) ∧
  ∃ a ref, known !! a = Some ref ∧
    (∀ c, c ∈ fnd → matched_connectors s !! c = Some a) ∧
    ∀ blk fnd' m1, fnd' ≡ₚ fnd →
      add_connections blk fnd' (matched_connectors s) known m1 =
      connect_fields blk (if decide (length fnd' = 1) then fnd' ++ fnd' else fnd')
        None (sorted_items ref) m1.
Proof.
  intros [-> Hdom]%collect_connectors_known Hin. split; [done|].
  destruct (recorded_in_class comps cp fnd Hin)
    as (_ & Hne & _ & _ & a & g & Hg & Hall).
  destruct (proj2 (Hdom a)) as [ref Href]; [eauto|].
  exists a, ref. split_and!; [done|by intros c [? _]%Hall|].
  intros blk fnd' m1 Hperm. unfold add_connections.
  destruct fnd' as [|c l].
  { apply Permutation_nil_l in Hperm. done. }
  assert (matched_connectors (scan comps) !! c = Some a) as Hc.
  { apply Hall. rewrite <-Hperm. left. }
  case_decide; simpl; by rewrite Hc, Href.
Qed.

Lemma recorded_connection_reference_witness :
  ∃ ref, ∀ m1,
    add_connections 5 [2; 1]
      (matched_connectors (scan [Comp 0 IsConnection [1; 2]]))
      {[0 := [("x", (10, (-1)%Z, 1))]]} m1
    = connect_fields 5 [2; 1] None (sorted_items ref) m1.
Proof.
  destruct (recorded_connection_reference [Comp 0 IsConnection [1; 2]]
              ex_model_pair ex_model_pair (scan [Comp 0 IsConnection [1; 2]])
              {[0 := [("x", (10, (-1)%Z, 1))]]}
              (Comp 0 IsConnection [1; 2]) [1; 2])
    as (_ & a & ref & _ & _ & Hrun).
  - vm_compute. reflexivity.
  - vm_compute. left.
  - exists ref. intros m1. apply (Hrun 5 [2; 1] m1). apply perm_swap.
Defined.

(** ** The canonical field reference *)

Lemma collect_field_get m c ref kv k :
  dict_get k (collect_field m c ref kv) =
  match dict_get k ref with
  | Some e => Some e
  | None =>
      if decide (k = kv.1) then
        match kv.2 with
        | Some v => Some (v, shape_code (get_conn m c) kv.1 (get_var m v), c)
        | None => None
        end
      else None
  end.
Proof.
  unfold collect_field. destruct (dict_has kv.1 ref) eqn:Hhas.
  - apply dict_has_true in Hhas as [e He].
    destruct (dict_get k ref) eqn:Hk; [done|].
    case_decide; [congruence|done].
  - apply dict_has_false in Hhas. destruct kv.2 as [v|].
    + destruct (decide (k = kv.1)) as [->|Hne].
      * by rewrite dict_get_set_eq, Hhas.
      * rewrite dict_get_set_ne by done. by destruct (dict_get k ref).
    + destruct (dict_get k ref) eqn:Hk; [done|]. by case_decide.
Qed.

Lemma collect_vars_get m c vars ref k :
  NoDup (fst <$> vars) →
  dict_get k (foldl (collect_field m c) ref vars) =
  match dict_get k ref with
  | Some e => Some e
  | None =>
      match dict_get k vars with
      | Some (Some v) => Some (v, shape_code (get_conn m c) k (get_var m v), c)
      | _ => None
      end
  end.
Proof.
  revert ref. induction vars as [|[k' ov] vars IH]; intros ref Hnd; simpl.
  - by destruct (dict_get k ref).
  - apply NoDup_cons in Hnd as [Hk' Hnd]. rewrite IH by done.
    rewrite collect_field_get. simpl.
    destruct (dict_get k ref) as [e|]; [done|].
    destruct (decide (k = k')) as [->|Hne]; [|done].
    destruct ov as [v|]; [done|].
    by rewrite (proj2 (dict_get_None_keys k' vars) Hk').
Qed.

Lemma collect_fields_get_acc m connectors ref k :
  (∀ c, c ∈ connectors → NoDup (fst <$> c_vars (get_conn m c))) →
  dict_get k (foldl (λ ref c, foldl (collect_field m c) ref
                                (c_vars (get_conn m c))) ref connectors) =
  match dict_get k ref with
  | Some e => Some e
  | None => first_writer m k connectors
  end.
Proof.
  revert ref. induction connectors as [|c rest IH]; intros ref Hnd; simpl.
  - by destruct (dict_get k ref).
  - rewrite IH by (intros c' Hc'; apply Hnd; by right).
    rewrite collect_vars_get by (apply Hnd; left).
    destruct (dict_get k ref) as [e|]; [done|].
    by destruct (dict_get k (c_vars (get_conn m c))) as [[v|]|].
Qed.

Lemma first_writer_Some m k connectors :
  is_Some (first_writer m k connectors) ↔ ∃ c, c ∈ connectors ∧ assigned m c k.
Proof.
  unfold assigned. induction connectors as [|c rest IH]; simpl.
  - split; [by intros [? [=]]|by intros (c & []%not_elem_of_nil & _)].
  - destruct (dict_get k (c_vars (get_conn m c))) as [[v|]|] eqn:Hk.
    + split; [|by eauto]. intros _. exists c. split; [left|eauto].
    + rewrite IH. split.
      * intros (c' & ? & ?). exists c'. split; [by right|done].
      * intros (c' & [->|?]%elem_of_cons & [v Hv]); [congruence|eauto].
    + rewrite IH. split.
      * intros (c' & ? & ?). exists c'. split; [by right|done].
      * intros (c' & [->|?]%elem_of_cons & [v Hv]); [congruence|eauto].
Qed.

(** X5.  The canonical reference (lines 113-129) has an entry for a field
    exactly when some connector of the class holds a variable for it, so no
    assigned field of a member is left out; the entry comes from the first
    such connector in the order in which the class yields its members, and
    holds that connector's variable, its shape code and the connector.  The
    [vars] of a connector is a dictionary: no key occurs twice in it. *)
Theorem canonical_reference_first_writer
    (m : model) (connectors : list nat) :
  (∀ c, c ∈ connectors → NoDup (fst <$> c_vars (get_conn m c))) →
  (∀ k, dict_get k (collect_fields m connectors) = first_writer m k connectors) ∧
  (∀ k, is_Some (dict_get k (collect_fields m connectors)) ↔
        ∃ c, c ∈ connectors ∧ assigned m c k) ∧
  (∀ pre c post k v,
     connectors = pre ++ c :: post →
     (∀ c', c' ∈ pre → ¬ assigned m c' k) →
     dict_get k (c_vars (get_conn m c)) = Some (Some v) →
     dict_get k (collect_fields m connectors) =
       Some (v, shape_code (get_conn m c) k (get_var m v), c)).
Proof.
  intros Hnd.
  assert (∀ k, dict_get k (collect_fields m connectors)
               = first_writer m k connectors) as Hget.
  { intros k. unfold collect_fields. by rewrite collect_fields_get_acc. }
  split_and!; [done| |].
  - intros k. by rewrite Hget, first_writer_Some.
  - intros pre c post k v -> Hpre Hv. rewrite Hget. clear Hget Hnd.
    induction pre as [|c' pre IH]; simpl.
    + by rewrite Hv.
    + destruct (dict_get k (c_vars (get_conn m c'))) as [[v'|]|] eqn:Hk.
      * destruct (Hpre c'); [left|]. by exists v'.
      * apply IH. intros c0 Hc0. apply Hpre. by right.
      * apply IH. intros c0 Hc0. apply Hpre. by right.
Qed.

Lemma canonical_reference_first_writer_witness :
  dict_get "flow" (collect_fields ex_model_aggregator [2; 1; 3])
    = Some (21, (-1)%Z, 2).
Proof.
  destruct (canonical_reference_first_writer ex_model_aggregator [2; 1; 3])
    as (_ & _ & H).
  - intros c Hc.
    apply elem_of_cons in Hc as [->|Hc]; [|apply elem_of_cons in Hc as [->|Hc]];
      [| |apply list_elem_of_singleton in Hc as ->];
      vm_compute; apply NoDup_singleton.
  - apply (H [] 2 [1; 3] "flow" 21); [done| |done].
    by intros c' ?%not_elem_of_nil.
Defined.

(** ** What validation and expansion leave alone *)

Lemma extends_refl m : extends m m.
Proof. by split_and!. Qed.

Lemma extends_trans m1 m2 m3 : extends m1 m2 → extends m2 m3 → extends m1 m3.
Proof.
  intros (Hv1 & Hb1 & Hw1 & Hc1 & Ha1) (Hv2 & Hb2 & Hw2 & Hc2 & Ha2).
  split_and!.
  - intros v V H. by apply Hv2, Hv1.
  - intros b. etrans; [apply Hb1|apply Hb2].
  - congruence.
  - intros c. destruct (Hc1 c) as (? & ? & ? & ? & ?).
    destruct (Hc2 c) as (? & ? & ? & ? & ?). split_and!; congruence.
  - intros c k v H. by apply Ha2, Ha1.
Qed.

Lemma copy_loop_frame v0 nv idx m m' :
  for_each idx (copy_element v0 nv) m = inr (tt, m') →
  m_conns m' = m_conns m ∧ m_blocks m' = m_blocks m ∧
  m_warnings m' = m_warnings m ∧
  ∀ w, w ≠ nv → m_vars m' !! w = m_vars m !! w.
Proof.
  revert m. induction idx as [|i idx IH]; intros m; simpl.
  - by intros [= <-].
  - rewrite run_bind. destruct (copy_element v0 nv i m) as [|[[] m1]] eqn:H1; [done|].
    apply copy_element_inr in H1 as (x & _ & ->).
    intros (-> & -> & -> & Hv)%IH. split_and!; [done..|].
    intros w Hw. rewrite Hv by done. simpl. by rewrite lookup_insert_ne.
Qed.

Lemma fill_field_frame c kv m m' :
  fill_field c kv m = inr (tt, m') →
  extends m m' ∧ ∀ c', c' ≠ c → get_conn m' c' = get_conn m c'.
Proof.
  intros [(nv0 & Hk & ->)|(Hun & m3 & Hloop & ->)]%fill_field_inr.
  { split; [apply extends_refl|done]. }
  apply copy_loop_frame in Hloop as (Hc & Hb & Hw & Hv). simpl in *.
  assert (∀ c0, get_conn m3 c0 = get_conn m c0) as Hconn3.
  { intros c0. unfold get_conn. by rewrite Hc. }
  split; [split_and!|].
  - intros v V HV. simpl. rewrite Hv.
    + rewrite lookup_insert_ne; [done|]. intros <-.
      by rewrite fresh_var_None in HV.
    + intros ->. by rewrite fresh_var_None in HV.
  - intros b. unfold get_block. simpl. rewrite Hb.
    destruct (decide (c_parent_block (get_conn m c) = b)) as [<-|Hne].
    + rewrite lookup_insert_eq. simpl. by apply prefix_app_r.
    + by rewrite lookup_insert_ne.
  - done.
  - intros c0. destruct (decide (c = c0)) as [<-|Hne].
    + rewrite get_conn_with_conn_eq. simpl. by rewrite Hconn3.
    + by rewrite get_conn_with_conn_ne, Hconn3.
  - intros c0 k v Hkv. destruct (decide (c = c0)) as [<-|Hne].
    + rewrite get_conn_with_conn_eq. simpl. rewrite Hconn3.
      rewrite dict_get_set_ne; [done|]. intros <-.
      destruct Hun as [Hun|Hun]; congruence.
    + by rewrite get_conn_with_conn_ne, Hconn3.
  - intros c' Hne. by rewrite get_conn_with_conn_ne, Hconn3.
Qed.

Lemma fill_connectors_frame eop refs m m' :
  fill_connectors eop refs m = inr (tt, m') →
  extends m m' ∧ ∀ c, c ∉ eop → get_conn m' c = get_conn m c.
Proof.
  unfold fill_connectors. intros Hrun.
  apply (for_each_keep eop (λ c, for_each refs (fill_field c)) (extends m)
           (λ mi, ∀ c, c ∉ eop → get_conn mi c = get_conn m c) m m');
    [| |apply extends_refl|done|done].
  - intros c m1 m2 _ H1 Hinner.
    apply (for_each_keep refs (fill_field c) (extends m) (λ _, True) m1 m2);
      [| |done|done|done]; [|done].
    intros kv ma mb _ Ha [Hf _]%fill_field_frame. by eapply extends_trans.
  - intros c m1 m2 Hc H1 Hq Hinner.
    assert (∀ c', c' ≠ c → get_conn m2 c' = get_conn m1 c') as Hsame.
    { apply (for_each_keep refs (fill_field c) (λ _, True)
               (λ mi, ∀ c', c' ≠ c → get_conn mi c' = get_conn m1 c') m1 m2);
        [done| |done|done|done].
      intros kv ma mb _ _ Ha [_ Hf]%fill_field_frame c' Hc'.
      by rewrite Hf, Ha. }
    intros c' Hc'. rewrite Hsame; [by apply Hq|]. by intros ->.
Qed.

Lemma check_connector_true m c ref p :
  check_connector m c ref p = inr true →
  p = true ∨
  ∃ entry, entry ∈ ref ∧ dict_get entry.1 (c_vars (get_conn m c)) = Some None.
Proof.
  revert p. induction ref as [|[k [[v0 n0] c0]] ref IH]; intros p; simpl.
  - intros [= ->]. by left.
  - destruct (dict_get k (c_vars (get_conn m c))) as [[v|]|] eqn:Hk; [| |done].
    + destruct (xorb _ _); [done|]. destruct (_ && negb _); [done|].
      destruct (_ && (0 <? _)); [done|].
      intros [?|(entry & ? & ?)]%IH; [by left|].
      right. exists entry. split; [by right|done].
    + intros _. right. exists (k, (v0, n0, c0)). split; [left|done].
Qed.

Lemma check_connectors_members m connectors ref acc eop :
  check_connectors m connectors ref acc = inr eop →
  ∀ c, c ∈ eop →
    c ∈ acc ∨
    (c ∈ connectors ∧
     (c_vars (get_conn m c) = [] ∨
      ∃ entry, entry ∈ ref ∧
        dict_get entry.1 (c_vars (get_conn m c)) = Some None)).
Proof.
  revert acc. induction connectors as [|c0 rest IH]; intros acc; simpl.
  - intros [= <-] c Hc. by left.
  - destruct (c_vars (get_conn m c0)) as [|kv0 vars] eqn:Hvars.
    + intros H c Hc.
      destruct (IH _ H c Hc) as [[?| ->%list_elem_of_singleton]%elem_of_app|[? ?]].
      * by left.
      * right. split; [left|by left].
      * right. split; [by right|done].
    + destruct (check_connector m c0 ref false) as [|partial] eqn:Hc0; [done|].
      intros H c Hc. destruct (IH _ H c Hc) as [Hacc|[? ?]].
      * destruct partial; [|by left].
        apply elem_of_app in Hacc as [?| ->%list_elem_of_singleton]; [by left|].
        right. split; [left|]. right.
        by destruct (check_connector_true _ _ _ _ Hc0) as [[=]|?].
      * right. split; [by right|done].
Qed.

Lemma validate_frame
    (m : model) (connectors : list nat)
    (ref : list (string * (nat * Z * nat))) (m' : model) :
  validate_and_expand_connector_set connectors m = inr (ref, m') →
  ref = collect_fields m connectors ∧
  extends m m' ∧
  (∀ c, c ∉ connectors → get_conn m' c = get_conn m c) ∧
  (∀ c, (∀ kv, kv ∈ ref → assigned m c kv.1) → get_conn m' c = get_conn m c) ∧
  ((∀ c kv, c ∈ connectors → kv ∈ ref → assigned m c kv.1) → m' = m).
Proof.
  rewrite validate_unfold.
  destruct (collect_fields m connectors) as [|e r] eqn:Href; [done|].
  destruct (check_connectors m connectors (e :: r) []) as [|eop] eqn:Hchk; [done|].
  rewrite run_bind.
  destruct (fill_connectors _ _ m) as [|[[] m1]] eqn:Hfill; [done|].
  intros [= <- <-].
  pose proof (check_connectors_members _ _ _ _ _ Hchk) as Hmem.
  assert (∀ c, (∀ kv, kv ∈ e :: r → assigned m c kv.1) → c ∉ eop) as Hfull.
  { intros c Hall Hc.
    destruct (Hmem c Hc) as [[]%not_elem_of_nil|[_ [Hnil|(entry & Hin & Hnone)]]].
    - destruct (Hall e) as [v Hv]; [left|]. by rewrite Hnil in Hv.
    - destruct (Hall entry Hin) as [v Hv]. congruence. }
  destruct (fill_connectors_frame _ _ _ _ Hfill) as [Hext Hout].
  split_and!; [done|done| | |].
  - intros c Hc. apply Hout. rewrite elem_of_sort_empty_or_partial.
    intros Hin. by destruct (Hmem c Hin) as [[]%not_elem_of_nil|[? _]].
  - intros c Hall. apply Hout. rewrite elem_of_sort_empty_or_partial.
    by apply Hfull.
  - intros Hall. assert (eop = []) as ->.
    { destruct eop as [|c eop]; [done|]. exfalso.
      destruct (Hmem c) as [[]%not_elem_of_nil|[Hc _]]; [left|].
      apply (Hfull c); [|left]. intros kv Hkv. by apply Hall. }
    by injection Hfill as <-.
Qed.

(** X6.  What a successful validation and expansion of a class leaves
    alone.  The reference returned is the one of lines 113-129.  Every
    variable of the model is as it was; every block has its old components
    first, so that components are only added, after the old ones; nothing is
    logged; every connector keeps its name, its parent block, its
    aggregators and extensives, and each field that held a variable holds
    that variable still.  A connector outside the class is not touched, and
    neither is a member that has every field of the reference assigned; when
    all members are such, the model is returned as it was. *)
Theorem validation_frame
    (m : model) (connectors : list nat)
    (ref : list (string * (nat * Z * nat))) (m' : model) :
  validate_and_expand_connector_set connectors m = inr (ref, m') →
  ref = collect_fields m connectors ∧
  extends m m' ∧
  (∀ c, c ∉ connectors → get_conn m' c = get_conn m c) ∧
  (∀ c, (∀ kv, kv ∈ ref → assigned m c kv.1) → get_conn m' c = get_conn m c) ∧
  ((∀ c kv, c ∈ connectors → kv ∈ ref → assigned m c kv.1) → m' = m).
Proof. apply validate_frame. Qed.

Lemma validation_frame_witness :
  validate_and_expand_connector_set [1; 2] ex_model_pair
    = inr ([("x", (10, (-1)%Z, 1))], ex_model_pair) ∧
  extends ex_model_pair ex_model_pair.
Proof.
  assert (validate_and_expand_connector_set [1; 2] ex_model_pair
            = inr ([("x", (10, (-1)%Z, 1))], ex_model_pair)) as Hrun
    by (vm_compute; reflexivity).
  split; [exact Hrun|].
  by destruct (validation_frame ex_model_pair [1; 2] _ _ Hrun) as (_ & ? & _).
Defined.

(** ** After validation, every member has every field *)

Lemma fill_field_assigns c kv m m' :
  fill_field c kv m = inr (tt, m') → assigned m' c kv.1.
Proof.
  intros [(nv0 & Hk & ->)|(Hun & m3 & Hloop & ->)]%fill_field_inr.
  - by exists nv0.
  - eexists. rewrite get_conn_with_conn_eq. simpl. apply dict_get_set_eq.
Qed.

Lemma fill_connectors_assigns eop refs m m' :
  fill_connectors eop refs m = inr (tt, m') →
  ∀ c kv, c ∈ eop → kv ∈ refs → assigned m' c kv.1.
Proof.
  unfold fill_connectors. intros Hrun.
  apply (for_each_inv eop (λ c, for_each refs (fill_field c)) (λ _, True)
           (λ c mi, ∀ kv, kv ∈ refs → assigned mi c kv.1)) in Hrun
    as [_ Hall]; [by eauto| | |done].
  - intros c m1 m2 _ _ Hinner. split; [done|].
    apply (for_each_inv refs (fill_field c) (λ _, True)
             (λ kv mi, assigned mi c kv.1)) in Hinner as [_ Hall]; [done| | |done].
    + intros kv ma mb _ _ Hf. split; [done|]. by eapply fill_field_assigns.
    + intros kv kv' ma mb _ _ Hq Hf. by eapply fill_field_keeps.
  - intros c c' m1 m2 _ _ Hq Hinner kv Hkv. specialize (Hq kv Hkv).
    apply (for_each_keep refs (fill_field c') (λ _, True)
             (λ mi, assigned mi c kv.1) m1 m2); [done| |done|done|done].
    intros kv' ma mb _ _ Ha Hf. by eapply fill_field_keeps.
Qed.

Lemma validate_assigns m connectors ref m' :
  validate_and_expand_connector_set connectors m = inr (ref, m') →
  ref ≠ [] ∧ extends m m' ∧
  ∀ c kv, c ∈ connectors → kv ∈ ref → assigned m' c kv.1.
Proof.
  rewrite validate_unfold.
  destruct (collect_fields m connectors) as [|e r] eqn:Href; [done|].
  destruct (check_connectors m connectors (e :: r) []) as [|eop] eqn:Hchk; [done|].
  rewrite run_bind.
  destruct (fill_connectors _ _ m) as [|[[] m1]] eqn:Hfill; [done|].
  intros [= <- <-].
  destruct (fill_connectors_frame _ _ _ _ Hfill) as [Hext _].
  split_and!; [done|done|].
  intros c kv Hc Hkv.
  destruct (dict_get kv.1 (c_vars (get_conn m c))) as [[v|]|] eqn:Hk.
  - exists v. by apply Hext.
  - eapply fill_connectors_assigns; [done| |].
    + apply elem_of_sort_empty_or_partial.
      eapply (check_connectors_eop _ _ _ _ _ Hchk); [done..|by right].
    + unfold sorted_items. by rewrite sorted_by_perm.
  - eapply fill_connectors_assigns; [done| |].
    + apply elem_of_sort_empty_or_partial.
      eapply (check_connectors_eop _ _ _ _ _ Hchk); [done..|by left].
    + unfold sorted_items. by rewrite sorted_by_perm.
Qed.

(** X7.  When validation and expansion of a class return, the reference is
    not empty and every member of the class holds a variable for every field
    of it: the members that had the field keep their variable, the others
    have been given one. *)
Theorem validation_assigns_every_field
    (m : model) (connectors : list nat)
    (ref : list (string * (nat * Z * nat))) (m' : model) :
  validate_and_expand_connector_set connectors m = inr (ref, m') →
  ref ≠ [] ∧
  ∀ c kv, c ∈ connectors → kv ∈ ref →
    ∃ v, dict_get kv.1 (c_vars (get_conn m' c)) = Some (Some v) ∧
      (∀ v0, dict_get kv.1 (c_vars (get_conn m c)) = Some (Some v0) → v = v0).
Proof.
  intros Hrun. destruct (validate_assigns _ _ _ _ Hrun) as (Hne & Hext & Hall).
  split; [done|]. intros c kv Hc Hkv. destruct (Hall c kv Hc Hkv) as [v Hv].
  exists v. split; [done|]. intros v0 Hv0.
  destruct Hext as (_ & _ & _ & _ & Hkeep). apply Hkeep in Hv0. congruence.
Qed.

Lemma validation_assigns_every_field_witness :
  ∃ m' v,
    validate_and_expand_connector_set [1; 4] ex_model_empty
      = inr ([("flow", (20, (-2)%Z, 1))], m') ∧
    dict_get "flow" (c_vars (get_conn m' 4)) = Some (Some v).
Proof.
  destruct (validate_and_expand_connector_set [1; 4] ex_model_empty)
    as [|[ref m']] eqn:Hrun; [by vm_compute in Hrun|].
  assert (ref = [("flow", (20, (-2)%Z, 1))]) as ->.
  { vm_compute in Hrun. by injection Hrun as <- _. }
  destruct (validation_assigns_every_field _ _ _ _ Hrun) as [_ Hall].
  destruct (Hall 4 ("flow", (20, (-2)%Z, 1))) as (v & Hv & _);
    [right; left|left|].
  by exists m', v.
Defined.



(** ** An aggregator on one side, an indexed variable on the other *)

Lemma dict_get_elem {V} k (x : V) d : dict_get k d = Some x → (k, x) ∈ d.
Proof.
  induction d as [|[k' v'] d IH]; simpl; [done|].
  destruct (decide (k = k')) as [->|Hne].
  - intros [= ->]. left.
  - intros H. right. by apply IH.
Qed.

Lemma collect_field_mono m c ref kv k :
  is_Some (dict_get k ref) → is_Some (dict_get k (collect_field m c ref kv)).
Proof. rewrite collect_field_get. by intros [e ->]. Qed.

Lemma collect_vars_mono m c vars ref k :
  is_Some (dict_get k ref) →
  is_Some (dict_get k (foldl (collect_field m c) ref vars)).
Proof.
  revert ref. induction vars as [|kv vars IH]; intros ref H; simpl; [done|].
  by apply IH, collect_field_mono.
Qed.

Lemma collect_vars_has m c vars ref k v :
  dict_get k vars = Some (Some v) →
  is_Some (dict_get k (foldl (collect_field m c) ref vars)).
Proof.
  revert ref. induction vars as [|[k' ov] vars IH]; intros ref; simpl; [done|].
  destruct (decide (k = k')) as [->|Hne].
  - intros [= ->]. apply collect_vars_mono. rewrite collect_field_get. simpl.
    destruct (dict_get k' ref); [done|]. by rewrite decide_True.
  - apply IH.
Qed.

Lemma collect_fields_has m connectors c k :
  c ∈ connectors → assigned m c k →
  is_Some (dict_get k (collect_fields m connectors)).
Proof.
  intros Hc [v Hv]. unfold collect_fields. generalize (@nil (string * (nat * Z * nat))).
  induction connectors as [|c' rest IH]; intros ref; simpl.
  { by apply not_elem_of_nil in Hc. }
  apply elem_of_cons in Hc as [<-|Hc]; [|by apply IH].
  assert (is_Some (dict_get k (foldl (collect_field m c) ref (c_vars (get_conn m c)))))
    as Hhere by (by eapply collect_vars_has).
  clear -Hhere. revert Hhere. generalize (foldl (collect_field m c) ref
                                            (c_vars (get_conn m c))).
  induction rest as [|c' rest IH]; intros ref' H; simpl; [done|].
  by apply IH, collect_vars_mono.
Qed.

Lemma disagreement_raises m connectors c entry mm :
  c ∈ connectors → c_vars (get_conn m c) ≠ [] →
  entry ∈ collect_fields m connectors → disagreement m c entry mm →
  ∃ mm', validate_and_expand_connector_set connectors m = inl (ValueError mm').
Proof.
  intros Hc Hne Hentry Hd.
  destruct (check_connectors m connectors (collect_fields m connectors) [])
    as [e|eop] eqn:Hchk.
  - pose proof Hchk as (_ & _ & mm' & _ & _ & _ & -> & _)%check_connectors_inl.
    exists mm'. apply validate_ValueError. split; [done|].
    intros Hnil. rewrite Hnil in Hentry. by apply not_elem_of_nil in Hentry.
  - by destruct (check_connectors_inr _ _ _ _ _ _ _ mm Hchk Hc Hne Hentry).
Qed.

(** X9.  An aggregator field does not go with an indexed variable.  When one
    member of a class exposes a field through an aggregator and another
    member holds an indexed variable for it, validation raises ValueError,
    whichever of the two the class yields first: the shape code -2 of the
    aggregator side and the element count of the indexed side differ in
    sign (line 165).  Only scalar variables pass beside an aggregator. *)
Theorem aggregator_with_indexed_variable_raises
    (m : model) (connectors : list nat) (a p : nat) (k : string) (va vp : nat) :
  a ∈ connectors → p ∈ connectors →
  dict_has k (c_aggregators (get_conn m a)) = true →
  dict_get k (c_vars (get_conn m a)) = Some (Some va) →
  dict_has k (c_aggregators (get_conn m p)) = false →
  dict_get k (c_vars (get_conn m p)) = Some (Some vp) →
  v_is_indexed (get_var m vp) = Some true →
  ∃ mm, validate_and_expand_connector_set connectors m = inl (ValueError mm).
Proof.
  intros Ha Hp Hagg Hva Hplain Hvp Hidx.
  destruct (collect_fields_has m connectors a k Ha) as [[[v0 n0] c0] Hk];
    [by exists va|].
  apply dict_get_elem in Hk.
  assert (shape_code (get_conn m a) k (get_var m va) = (-2)%Z) as Hsa.
  { unfold shape_code. by rewrite Hagg. }
  assert (0 ≤ shape_code (get_conn m p) k (get_var m vp))%Z as Hsp.
  { unfold shape_code. rewrite Hplain, Hidx. simpl. lia. }
  destruct (decide (0 ≤ n0)%Z) as [Hn|Hn].
  - eapply (disagreement_raises m connectors a); [done| |done|].
    + intros Hnil. by rewrite Hnil in Hva.
    + eapply dis_mixed; [done|]. rewrite Hsa. split; [lia|done].
  - eapply (disagreement_raises m connectors p); [done| |done|].
    + intros Hnil. by rewrite Hnil in Hvp.
    + eapply dis_mixed; [done|]. split; [done|]. intros _. done.
Qed.

Lemma aggregator_with_indexed_variable_raises_witness :
  ∃ mm, validate_and_expand_connector_set [1; 2] ex_model_aggregator_indexed
          = inl (ValueError mm).
Proof.
  apply (aggregator_with_indexed_variable_raises ex_model_aggregator_indexed
           [1; 2] 1 2 "flow" 20 11).
  - left.
  - right. left.
  - reflexivity.
  - reflexivity.
  - reflexivity.
  - reflexivity.
  - reflexivity.
Defined.

(** ** Connections whose members declare nothing extensive *)

Lemma extensive_steps_none blk k st conn_set m :
  (∀ c, c ∈ conn_set → extensive_type (get_conn m c) k = None) →
  extensive_steps blk k st conn_set m = inr (st, m).
Proof.
  induction conn_set as [|c rest IH]; intros Hnone; simpl; [done|].
  rewrite run_bind. unfold extensive_step at 1. rewrite run_bind, run_gets.
  rewrite (Hnone c) by left. rewrite run_ret. apply IH.
  intros c' Hc'. apply Hnone. by right.
Qed.





(** ** The rule of an indexed field after validation *)

Lemma shape_code_nonneg C k V :
  (0 ≤ shape_code C k V)%Z ↔
  dict_has k (c_aggregators C) = false ∧ v_is_indexed V = Some true.
Proof.
  unfold shape_code. destruct (dict_has k (c_aggregators C)).
  - split; [lia|by intros [? _]].
  - destruct (v_is_indexed V) as [[]|]; simpl; split; try lia; try done;
      by intros [_ ?].
Qed.

Lemma validate_inr_agree m connectors ref m' c entry mm :
  validate_and_expand_connector_set connectors m = inr (ref, m') →
  c ∈ connectors → c_vars (get_conn m c) ≠ [] → entry ∈ ref →
  ¬ disagreement m c entry mm.
Proof.
  rewrite validate_unfold.
  destruct (collect_fields m connectors) as [|e r] eqn:Href; [done|].
  destruct (check_connectors m connectors (e :: r) []) as [|eop] eqn:Hchk; [done|].
  rewrite run_bind.
  destruct (fill_connectors _ _ m) as [|[[] m1]] eqn:Hfill; [done|].
  intros [= <- <-]. by eapply check_connectors_inr.
Qed.

Lemma member_indexed_after_validation m connectors ref m' k v0 n0 c0 c :
  validate_and_expand_connector_set connectors m = inr (ref, m') →
  (∀ kv, kv ∈ ref → is_Some (m_vars m !! kv.2.1.1)) →
  (k, (v0, n0, c0)) ∈ ref → (0 ≤ n0)%Z → c ∈ connectors →
  (unassigned m c k → dict_has k (c_aggregators (get_conn m c)) = false) →
  ∃ v, dict_get k (c_vars (get_conn m' c)) = Some (Some v) ∧
    dict_has k (c_aggregators (get_conn m' c)) = false ∧
    v_is_indexed (get_var m' v) = Some true ∧
    ∀ i, i ∈ v_index_set (get_var m v0) ↔ i ∈ v_index_set (get_var m' v).
Proof.
  intros Hrun Hstore Hentry Hn Hc Hagg.
  destruct (validate_assigns _ _ _ _ Hrun) as (_ & Hext & _).
  pose proof Hext as (Hvars & _ & _ & Hattrs & Hkeep).
  destruct (Hattrs c) as (_ & _ & Haggs & _).
  destruct (dict_get k (c_vars (get_conn m c))) as [[v|]|] eqn:Hk.
  - assert (c_vars (get_conn m c) ≠ []) as Hne by (intros E; by rewrite E in Hk).
    assert (0 ≤ shape_code (get_conn m c) k (get_var m v))%Z as Hshape.
    { destruct (decide (0 ≤ shape_code (get_conn m c) k (get_var m v))%Z)
        as [|Hneg]; [done|].
      destruct (validate_inr_agree _ _ _ _ c (k, (v0, n0, c0))
                  (MixedIndexing k (c_name (get_conn m c0)) (c_name (get_conn m c)))
                  Hrun Hc Hne Hentry).
      eapply dis_mixed; [done|]. split; [done|]. intros Hn0. by destruct Hn0. }
    apply shape_code_nonneg in Hshape as [Hnoagg Hidx].
    assert (∀ i, i ∈ v_index_set (get_var m v0) ↔ i ∈ v_index_set (get_var m v))
      as Hsets.
    { apply sym_diff_length.
      destruct (0 <? length (sym_diff (v_index_set (get_var m v0))
                               (v_index_set (get_var m v)))) eqn:Hd; [|done].
      destruct (validate_inr_agree _ _ _ _ c (k, (v0, n0, c0))
                  (IndexSetMismatch k (c_name (get_conn m c0)) (c_name (get_conn m c)))
                  Hrun Hc Hne Hentry).
      eapply dis_indices; [done..|]. intros Hall.
      apply sym_diff_length in Hall. congruence. }
    assert (get_var m' v = get_var m v) as Hsame.
    { unfold get_var in Hidx |- *.
      destruct (m_vars m !! v) as [V|] eqn:HV; [|done].
      by rewrite (Hvars v V HV). }
    exists v. rewrite Hsame. split_and!; [by apply Hkeep|congruence|done..].
  - destruct (expansion_fills _ _ _ _ Hrun Hstore c (k, (v0, n0, c0)) Hc Hentry)
      as (nv & _ & _ & Hnv & _ & Hmir); [by right|].
    destruct Hmir as (_ & Hidx & Hset & _). simpl in *.
    rewrite bool_decide_eq_true_2 in Hidx, Hset by done.
    exists nv. split_and!; [done| |done|by rewrite Hset].
    rewrite Haggs. apply Hagg. by right.
  - destruct (expansion_fills _ _ _ _ Hrun Hstore c (k, (v0, n0, c0)) Hc Hentry)
      as (nv & _ & _ & Hnv & _ & Hmir); [by left|].
    destruct Hmir as (_ & Hidx & Hset & _). simpl in *.
    rewrite bool_decide_eq_true_2 in Hidx, Hset by done.
    exists nv. split_and!; [done| |done|by rewrite Hset].
    rewrite Haggs. apply Hagg. by left.
Qed.

Lemma rule_term_indexed_run k evar i c m v :
  dict_has k (c_aggregators (get_conn m c)) = false →
  dict_has k (c_extensives (get_conn m c)) = false →
  dict_get k (c_vars (get_conn m c)) = Some (Some v) →
  v_is_indexed (get_var m v) = Some true →
  i ∈ v_index_set (get_var m v) →
  rule_term k evar (Some [i]) c m = inr (TGetItem v (Some [i]), m).
Proof.
  intros Hagg Hext Hv Hidx Hi. unfold rule_term.
  rewrite run_bind, run_gets, Hagg, Hext, run_bind, (conn_var_run _ _ _ _ Hv).
  unfold var_getitem. rewrite run_bind, run_gets, Hidx.
  by rewrite decide_True.
Qed.

Lemma rule_terms_indexed_run k evar i conn_set m :
  (∀ c, c ∈ conn_set →
     ∃ v, dict_get k (c_vars (get_conn m c)) = Some (Some v) ∧
       dict_has k (c_aggregators (get_conn m c)) = false ∧
       dict_has k (c_extensives (get_conn m c)) = false ∧
       v_is_indexed (get_var m v) = Some true ∧
       i ∈ v_index_set (get_var m v)) →
  ∃ ts, rule_terms k evar (Some [i]) conn_set m = inr (ts, m) ∧
    Forall2 (λ c t, ∃ v, dict_get k (c_vars (get_conn m c)) = Some (Some v) ∧
                         t = TGetItem v (Some [i])) conn_set ts.
Proof.
  induction conn_set as [|c rest IH]; intros Hall; simpl.
  - exists []. split; [done|constructor].
  - destruct (Hall c) as (v & Hv & Hagg & Hext & Hidx & Hi); [left|].
    destruct IH as (ts & Hts & Hf); [intros c' ?; apply Hall; by right|].
    exists (TGetItem v (Some [i]) :: ts).
    rewrite run_bind, (rule_term_indexed_run _ _ _ _ _ v), run_bind, Hts by done.
    split; [done|]. constructor; [by exists v|done].
Qed.

(** X11.  After a class has been validated and expanded, the rule of the
    equality constraint of an indexed field (shape code not negative) can be
    evaluated at every index of the canonical index set: every member of the
    connector set, whether it had the field or was given it, holds an
    indexed variable with that index in its index set, and the rule returns
    the equality of the first two members' elements at the index, leaving
    the model as it is.  The members that lacked the field must not declare
    an aggregator for it, and no member an extensive type of the field's
    name; the canonical variables are variables of the model. *)
Theorem indexed_rule_after_validation
    (m : model) (connectors : list nat)
    (ref : list (string * (nat * Z * nat))) (m' : model)
    (k : string) (v0 : nat) (n0 : Z) (c0 : nat)
    (c1 c2 : nat) (rest : list nat) (evar : option nat) (i : nat) :
  validate_and_expand_connector_set connectors m = inr (ref, m') →
  (∀ kv, kv ∈ ref → is_Some (m_vars m !! kv.2.1.1)) →
  (k, (v0, n0, c0)) ∈ ref → (0 ≤ n0)%Z →
  (∀ c, c ∈ c1 :: c2 :: rest → c ∈ connectors) →
  (∀ c, c ∈ c1 :: c2 :: rest → unassigned m c k →
     dict_has k (c_aggregators (get_conn m c)) = false) →
  (∀ c, c ∈ c1 :: c2 :: rest → dict_has k (c_extensives (get_conn m c)) = false) →
  i ∈ v_index_set (get_var m v0) →
  ∃ v1 v2,
    dict_get k (c_vars (get_conn m' c1)) = Some (Some v1) ∧
    dict_get k (c_vars (get_conn m' c2)) = Some (Some v2) ∧
    rule k (c1 :: c2 :: rest) evar [i] m'
      = inr (EEq (TGetItem v1 (Some [i])) (TGetItem v2 (Some [i])), m').
Proof.
  intros Hrun Hstore Hentry Hn Hsub Hagg Hext Hi.
  destruct (validate_assigns _ _ _ _ Hrun) as (_ & (_ & _ & _ & Hattrs & _) & _).
  destruct (rule_terms_indexed_run k evar i (c1 :: c2 :: rest) m') as (ts & Hts & Hf).
  { intros c Hc.
    destruct (member_indexed_after_validation _ _ _ _ _ _ _ _ c
                Hrun Hstore Hentry Hn (Hsub c Hc) (Hagg c Hc))
      as (v & Hv & Hnoagg & Hidx & Hset).
    exists v. split_and!; [done|done| |done|by apply Hset].
    destruct (Hattrs c) as (_ & _ & _ & -> & _). by apply Hext. }
  apply Forall2_cons_inv_l in Hf as (t1 & ts1 & (v1 & Hv1 & ->) & Hf & ->).
  apply Forall2_cons_inv_l in Hf as (t2 & ts2 & (v2 & Hv2 & ->) & Hf & ->).
  exists v1, v2. split_and!; [done..|].
  unfold rule. by rewrite run_bind, Hts.
Qed.

Lemma indexed_rule_after_validation_witness :
  ∃ m' v1 v2,
    validate_and_expand_connector_set [2; 3] ex_model_indexed_pair
      = inr ([("x", (11, 2%Z, 2))], m') ∧
    rule "x" [3; 2] None [1] m'
      = inr (EEq (TGetItem v1 (Some [1])) (TGetItem v2 (Some [1])), m').
Proof.
  destruct (validate_and_expand_connector_set [2; 3] ex_model_indexed_pair)
    as [|[ref m']] eqn:Hrun; [by vm_compute in Hrun|].
  assert (ref = [("x", (11, 2%Z, 2))]) as ->.
  { vm_compute in Hrun. by injection Hrun as <- _. }
  destruct (indexed_rule_after_validation ex_model_indexed_pair [2; 3] _ m'
              "x" 11 2%Z 2 3 2 [] None 1 Hrun)
    as (v1 & v2 & _ & _ & Hrule).
  - intros kv Hkv. apply list_elem_of_singleton in Hkv as ->.
    vm_compute. eauto.
  - left.
  - lia.
  - intros c Hc.
    apply elem_of_cons in Hc as [->|Hc];
      [right; left|apply list_elem_of_singleton in Hc as ->; left].
  - intros c Hc _.
    apply elem_of_cons in Hc as [->|Hc];
      [|apply list_elem_of_singleton in Hc as ->]; vm_compute; reflexivity.
  - intros c Hc.
    apply elem_of_cons in Hc as [->|Hc];
      [|apply list_elem_of_singleton in Hc as ->]; vm_compute; reflexivity.
  - vm_compute. left.
  - by exists m', v1, v2.
Defined.

(** ** The expansion of a constraint *)

Lemma map_M_pure {A B} (f : A → M B) (g : A → B) (l : list A) m :
  (∀ x, x ∈ l → f x m = inr (g x, m)) →
  map_M f l m = inr (g <$> l, m).
Proof.
  induction l as [|x l IH]; intros H; simpl; [done|].
  rewrite run_bind, (H x) by left. rewrite run_bind, IH; [done|].
  intros y Hy. apply H. by right.
Qed.

Lemma substitution_pure k n0 idx conn_set m (g : nat → term) :
  (∀ c, c ∈ conn_set → substitution_term k n0 idx c m = inr (g c, m)) →
  substitution k n0 idx conn_set m = inr ((λ c, (c, g c)) <$> conn_set, m).
Proof.
  induction conn_set as [|c rest IH]; intros H; simpl; [done|].
  rewrite run_bind, (H c) by left. rewrite run_bind, IH; [done|].
  intros y Hy. apply H. by right.
Qed.

(** X12.  The expansion of a constraint after validation.  For a record
    whose connectors belong to a validated class and declare no aggregator
    for a field of the reference, the loop of lines 366-384 returns and
    leaves the model as it is; [cList] receives, for each field of the
    reference in the order of the field names, one constraint per index of
    the canonical index set when the field is indexed and one constraint
    otherwise; in each, every connector of the record is replaced, by the
    element of its own variable at that index, or by its variable. *)
Theorem constraint_expansion_after_validation
    (m : model) (connectors : list nat)
    (ref : list (string * (nat * Z * nat))) (m' : model)
    (c1 : nat) (rest : list nat) (matched : gmap nat nat)
    (known : gmap nat (list (string * (nat * Z * nat)))) (a : nat) :
  validate_and_expand_connector_set connectors m = inr (ref, m') →
  (∀ kv, kv ∈ ref → is_Some (m_vars m !! kv.2.1.1)) →
  (∀ c, c ∈ c1 :: rest → c ∈ connectors) →
  matched !! c1 = Some a →
  known !! a = Some ref →
  (∀ c kv, c ∈ c1 :: rest → kv ∈ ref →
     dict_has kv.1 (c_aggregators (get_conn m c)) = false) →
  expand_constraint (c1 :: rest) matched known m'
    = inr (expanded_constraints m m' (c1 :: rest) ref, m') ∧
  length (expanded_constraints m m' (c1 :: rest) ref)
    = sum_list ((λ kv, if (0 <=? kv.2.1.2)%Z
                       then length (v_index_set (get_var m kv.2.1.1)) else 1)
                  <$> sorted_items ref) ∧
  Forall (λ s, s.*1 = c1 :: rest) (expanded_constraints m m' (c1 :: rest) ref).
Proof.
  intros Hrun Hstore Hsub Hc1 Ha Hnoagg.
  destruct (validate_assigns _ _ _ _ Hrun) as (_ & Hext & Hall).
  pose proof Hext as (Hvars & _ & _ & Hattrs & _).
  split_and!.
  - unfold expand_constraint. rewrite Hc1, Ha. rewrite run_bind.
    rewrite (map_M_pure _
      (λ kv, (λ idx, member_term m' kv idx <$> (c1 :: rest))
               <$> field_iter (get_var m kv.2.1.1) kv.2.1.1 kv.2.1.2)); [done|].
    intros [k [[v0 n0] c0]] Hkv. unfold sorted_items in Hkv.
    rewrite sorted_by_perm in Hkv.
    unfold expand_field. rewrite run_bind, run_gets. cbn [fst snd].
    assert (get_var m' v0 = get_var m v0) as ->.
    { destruct (Hstore _ Hkv) as [V0 HV0]. simpl in HV0.
      unfold get_var. by rewrite HV0, (Hvars _ _ HV0). }
    apply map_M_pure. intros idx Hidx.
    rewrite (substitution_pure _ _ _ _ _
               (λ c, (member_term m' (k, (v0, n0, c0)) idx c).2)); [done|].
    intros c Hc. unfold substitution_term, member_term. cbn [fst snd].
    rewrite run_bind, run_gets.
    unfold field_iter in Hidx.
    destruct (Z.leb_spec 0 n0) as [Hn|Hn].
    + destruct (member_indexed_after_validation _ _ _ _ _ _ _ _ c
                  Hrun Hstore Hkv Hn (Hsub c Hc))
        as (v & Hv & _ & Hisidx & Hset).
      { intros _. by apply (Hnoagg c (k, (v0, n0, c0))). }
      rewrite run_bind, (conn_var_run _ _ _ _ Hv), Hv.
      unfold var_getitem. rewrite run_bind, run_gets, Hisidx.
      rewrite decide_True; [done|]. by apply Hset.
    + destruct (Hattrs c) as (_ & _ & -> & _).
      pose proof (Hnoagg c (k, (v0, n0, c0)) Hc Hkv) as Hna. cbn [fst] in Hna.
      rewrite Hna.
      destruct (Hall c (k, (v0, n0, c0)) (Hsub c Hc) Hkv) as [v Hv]. simpl in Hv.
      by rewrite run_bind, (conn_var_run _ _ _ _ Hv), Hv.
  - unfold expanded_constraints. rewrite length_concat, <-list_fmap_compose.
    f_equal. apply list_fmap_ext. intros _ kv _. simpl.
    rewrite length_fmap. unfold field_iter. by destruct (0 <=? kv.2.1.2)%Z.
  - unfold expanded_constraints. apply Forall_concat, Forall_fmap, Forall_forall.
    intros kv _. apply Forall_fmap, Forall_forall. intros idx _.
    unfold compose. rewrite <-list_fmap_compose.
    rewrite <-(list_fmap_id (c1 :: rest)) at 2. by apply list_fmap_ext.
Qed.

Lemma constraint_expansion_after_validation_witness :
  ∃ m' substs,
    validate_and_expand_connector_set [2; 3] ex_model_indexed_pair
      = inr ([("x", (11, 2%Z, 2))], m') ∧
    expand_constraint [3; 2] {[3 := 0]} {[0 := [("x", (11, 2%Z, 2))]]} m'
      = inr (substs, m') ∧
    length substs = 2.
Proof.
  destruct (validate_and_expand_connector_set [2; 3] ex_model_indexed_pair)
    as [|[ref m']] eqn:Hrun; [by vm_compute in Hrun|].
  assert (ref = [("x", (11, 2%Z, 2))]) as ->.
  { vm_compute in Hrun. by injection Hrun as <- _. }
  destruct (constraint_expansion_after_validation ex_model_indexed_pair [2; 3]
              _ m' 3 [2] {[3 := 0]} {[0 := [("x", (11, 2%Z, 2))]]} 0 Hrun)
    as (Hexp & Hlen & _).
  - intros kv Hkv. apply list_elem_of_singleton in Hkv as ->.
    vm_compute. eauto.
  - intros c Hc.
    apply elem_of_cons in Hc as [->|Hc];
      [right; left|apply list_elem_of_singleton in Hc as ->; left].
  - vm_compute. reflexivity.
  - vm_compute. reflexivity.
  - intros c kv Hc Hkv. apply list_elem_of_singleton in Hkv as ->.
    apply elem_of_cons in Hc as [->|Hc];
      [|apply list_elem_of_singleton in Hc as ->]; vm_compute; reflexivity.
  - exists m', (expanded_constraints ex_model_indexed_pair m' [3; 2]
                  [("x", (11, 2%Z, 2))]).
    split_and!; [done|exact Hexp|]. rewrite Hlen. vm_compute. reflexivity.
Defined.

(** ** The order in which connections are expanded *)

Lemma first_seen_snoc l x :
  first_seen (l ++ [x]) =
  if decide (x ∈ l) then first_seen l else first_seen l ++ [x].
Proof.
  rewrite <-!cs_update_first_seen, cs_update_snoc. unfold cs_add.
  rewrite !cs_update_first_seen.
  destruct (decide (x ∈ l)) as [Hx|Hx].
  - rewrite decide_True; [done|]. by apply elem_of_first_seen.
  - rewrite decide_False; [done|]. by rewrite elem_of_first_seen.
Qed.

Lemma odict_get_fmap {V} (g : nat → V) p keys :
  odict_get p ((λ q, (q, g q)) <$> keys) =
  if decide (p ∈ keys) then Some (g p) else None.
Proof.
  induction keys as [|q keys IH].
  - by destruct (decide (p ∈ [])) as [[]%not_elem_of_nil|].
  - rewrite fmap_cons. cbn [odict_get].
    destruct (decide (p ∈ q :: keys)) as [Hin|Hin];
      destruct (decide (p = q)) as [->|Hne]; try done.
    + rewrite IH. rewrite decide_True; [done|].
      by apply elem_of_cons in Hin as [?|?].
    + destruct Hin. left.
    + rewrite IH. rewrite decide_False; [done|]. intros ?. apply Hin. by right.
Qed.

Lemma odict_set_fmap_hit {V} (g : nat → V) p v keys :
  NoDup keys → p ∈ keys →
  odict_set p v ((λ q, (q, g q)) <$> keys) =
  (λ q, (q, if decide (q = p) then v else g q)) <$> keys.
Proof.
  induction keys as [|q keys IH]; intros Hnd Hp;
    [by apply not_elem_of_nil in Hp|].
  apply NoDup_cons in Hnd as [Hq Hnd]. rewrite !fmap_cons. cbn [odict_set].
  destruct (decide (p = q)) as [->|Hne].
  - rewrite decide_True by done. f_equal.
    apply list_fmap_ext. intros _ q' Hq'%list_elem_of_lookup_2.
    rewrite decide_False; [done|]. by intros ->.
  - rewrite decide_False by done. f_equal. apply IH; [done|].
    by apply elem_of_cons in Hp as [?|?].
Qed.

Lemma odict_set_fmap_miss {V} (g : nat → V) p v keys :
  p ∉ keys →
  odict_set p v ((λ q, (q, g q)) <$> keys) = ((λ q, (q, g q)) <$> keys) ++ [(p, v)].
Proof.
  induction keys as [|q keys IH]; intros Hp; [done|].
  apply not_elem_of_cons in Hp as [Hne Hp]. rewrite !fmap_cons. cbn [odict_set].
  rewrite decide_False by done. by rewrite IH.
Qed.

Lemma filter_none {A} (P : A → Prop) `{∀ x, Decision (P x)} (l : list A) :
  (∀ x, x ∈ l → ¬ P x) → filter P l = [].
Proof.
  induction l as [|x l IH]; intros Hl; [done|].
  rewrite filter_cons_False by (apply Hl; left). apply IH.
  intros y Hy. apply Hl. by right.
Qed.

Lemma filter_some {A} (P : A → Prop) `{∀ x, Decision (P x)} (l : list A) x :
  x ∈ l → P x → filter P l ≠ [].
Proof.
  intros Hx HP Hnil. assert (x ∈ filter P l) as Hin by (by apply list_elem_of_filter).
  rewrite Hnil in Hin. by apply not_elem_of_nil in Hin.
Qed.

Section build_connections_facts.
Context (is_simple : comp → bool) (parent_component : comp → nat)
        (new_block : comp → M nat) (new_indexed_block : nat → M nat)
        (block_at : nat → comp → M nat)
        (deactivate_connection : comp → M unit)
        (deactivate_component : nat → M unit)
        (matched : gmap nat nat)
        (known_conn_sets : gmap nat (list (string * (nat * Z * nat)))).

Lemma add_indexed_grouped (L : list (comp * list nat)) :
  foldl (add_indexed parent_component) [] L =
  (λ p, (p, filter (λ r, parent_component r.1 = p) L))
    <$> first_seen ((λ r, parent_component r.1) <$> L).
Proof.
  induction L as [|r L IH] using rev_ind; [done|].
  rewrite foldl_app. simpl. rewrite IH. unfold add_indexed.
  rewrite fmap_app. simpl. rewrite first_seen_snoc.
  rewrite (odict_get_fmap (λ p, filter (λ r0, parent_component r0.1 = p) L)).
  set (p := parent_component r.1).
  destruct (decide (p ∈ (λ r0, parent_component r0.1) <$> L)) as [Hp|Hp].
  - rewrite decide_True by (by apply elem_of_first_seen). simpl.
    rewrite odict_set_fmap_hit;
      [|apply NoDup_first_seen|by apply elem_of_first_seen].
    apply list_fmap_ext. intros _ q _. f_equal. rewrite filter_app.
    destruct (decide (q = p)) as [->|Hne].
    + by rewrite filter_cons_True.
    + rewrite filter_cons_False by (intros E; by apply Hne). by rewrite app_nil_r.
  - rewrite decide_False by (by rewrite elem_of_first_seen). simpl.
    rewrite odict_set_fmap_miss by (by rewrite elem_of_first_seen).
    rewrite fmap_app. simpl. f_equal.
    + apply list_fmap_ext. intros _ q Hq%list_elem_of_lookup_2. f_equal.
      rewrite filter_app, filter_cons_False, app_nil_r; [done|].
      intros E. apply Hp. fold p in E. rewrite E. by apply elem_of_first_seen.
    + do 2 f_equal. rewrite filter_app, filter_cons_True by done.
      rewrite (filter_none _ L); [done|].
      intros r0 Hr0 E. apply Hp. apply list_elem_of_fmap. by exists r0.
Qed.

Lemma build_simple_eq cl acc m :
  build_simple is_simple parent_component new_block deactivate_connection
    matched known_conn_sets cl acc m =
  (for_each (filter (λ r, is_simple r.1 = true) cl)
     (expand_simple new_block deactivate_connection matched known_conn_sets);;
   mret (foldl (add_indexed parent_component) acc
           (filter (λ r, is_simple r.1 = false) cl))) m.
Proof.
  revert acc m. induction cl as [|r cl IH]; intros acc m; [done|].
  simpl. destruct (is_simple r.1) eqn:Hr.
  - rewrite (filter_cons_True (λ r0 : comp * list nat, is_simple r0.1 = true))
      by done.
    rewrite (filter_cons_False (λ r0 : comp * list nat, is_simple r0.1 = false))
      by (rewrite Hr; done).
    simpl. rewrite !run_bind.
    destruct (expand_simple _ _ _ _ r m) as [|[[] m1]]; [done|].
    by rewrite IH.
  - rewrite (filter_cons_False (λ r0 : comp * list nat, is_simple r0.1 = true))
      by (rewrite Hr; done).
    rewrite (filter_cons_True (λ r0 : comp * list nat, is_simple r0.1 = false))
      by done.
    simpl. by rewrite IH.
Qed.

Lemma add_indexed_concat G r :
  concat (snd <$> add_indexed parent_component G r) ≡ₚ concat (snd <$> G) ++ [r].
Proof.
  unfold add_indexed. set (p := parent_component r.1).
  induction G as [|[q members] G IHG]; simpl; [done|].
  destruct (decide (p = q)) as [->|Hne]; simpl.
  - rewrite <-!app_assoc. f_equiv. apply Permutation_app_comm.
  - rewrite IHG. by rewrite app_assoc.
Qed.

Lemma grouped_concat cl :
  concat (snd <$> grouped is_simple parent_component cl)
    ≡ₚ filter (λ r, is_simple r.1 = false) cl.
Proof.
  unfold grouped. cbv zeta.
  generalize (filter (λ r : comp * list nat, is_simple r.1 = false) cl).
  intros L. rewrite <-add_indexed_grouped.
  induction L as [|r L IH] using rev_ind; [done|].
  rewrite foldl_app. simpl. etrans; [apply add_indexed_concat|].
  f_equiv. exact IH.
Qed.

(** X13.  The order of [_build_connections].  The simple connections are
    expanded first, each with a block of its own, in the order of
    [connection_list]; a connection that is not simple is only filed, under
    its parent component.  Then each parent component gets one block, the
    parents in the order in which the list first meets them, and the records
    of a parent are expanded in the order of the list.  No record is lost
    and none is expanded twice. *)
Theorem build_connections_order (connection_list : list (comp * list nat)) :
  (∀ m,
     build_connections is_simple parent_component new_block new_indexed_block
       block_at deactivate_connection deactivate_component matched
       known_conn_sets connection_list m =
     (for_each (filter (λ r, is_simple r.1 = true) connection_list)
        (expand_simple new_block deactivate_connection matched known_conn_sets);;
      for_each (grouped is_simple parent_component connection_list)
        (expand_indexed new_indexed_block block_at deactivate_component
           matched known_conn_sets)) m) ∧
  (∀ g, g ∈ grouped is_simple parent_component connection_list →
     g.2 = filter (λ r, parent_component r.1 = g.1)
             (filter (λ r, is_simple r.1 = false) connection_list) ∧
     g.2 ≠ []) ∧
  NoDup (fst <$> grouped is_simple parent_component connection_list) ∧
  concat (snd <$> grouped is_simple parent_component connection_list)
    ≡ₚ filter (λ r, is_simple r.1 = false) connection_list.
Proof.
  split_and!.
  - intros m. unfold build_connections. rewrite run_bind, build_simple_eq.
    rewrite !run_bind.
    destruct (for_each _ _ m) as [|[[] m1]]; [done|].
    rewrite run_ret. unfold grouped. cbv zeta. by rewrite add_indexed_grouped.
  - intros g. unfold grouped. cbv zeta.
    intros (p & -> & Hp)%list_elem_of_fmap. simpl. split; [done|].
    apply elem_of_first_seen, list_elem_of_fmap in Hp as (r & -> & Hr).
    by apply (filter_some _ _ r).
  - unfold grouped. cbv zeta. rewrite <-list_fmap_compose.
    match goal with |- NoDup (_ <$> ?l) =>
      replace (_ <$> l) with (id <$> l) by (by apply list_fmap_ext) end.
    rewrite list_fmap_id. apply NoDup_first_seen.
  - apply grouped_concat.
Qed.

End build_connections_facts.

(** ** The extensive variable of a field *)

Lemma dict_set_keys {V} k (v : V) d :
  is_Some (dict_get k d) → fst <$> dict_set k v d = fst <$> d.
Proof.
  induction d as [|[k' v'] d IH]; simpl; [by intros [? [=]]|].
  destruct (decide (k = k')) as [->|Hne]; simpl; [done|].
  intros H. f_equal. by apply IH.
Qed.

Lemma appended_obs C etype k e :
  extensive_type C k = Some etype →
  fst <$> c_extensives (appended C etype k e) = fst <$> c_extensives C ∧
  (∀ k', extensive_type (appended C etype k e) k' = extensive_type C k') ∧
  evars_of (appended C etype k e) k = evars_of C k ++ [e] ∧
  (∀ k', k' ≠ k → evars_of (appended C etype k e) k' = evars_of C k').
Proof.
  intros Hk.
  assert (∀ k', extensive_type (appended C etype k e) k' = extensive_type C k')
    as Htype by (intros k'; by apply append_evar_extensive).
  destruct (find_dict_get _ _ _ Hk) as [d Hd].
  split_and!; [|done| |].
  - simpl. apply dict_set_keys. eauto.
  - unfold evars_of. rewrite Htype, Hk. unfold appended. simpl.
    rewrite dict_get_set_eq, Hd. simpl. by rewrite dict_get_set_eq.
  - intros k' Hne. unfold evars_of. rewrite Htype.
    destruct (extensive_type C k') as [etype'|]; [|done]. unfold appended. simpl.
    destruct (decide (etype = etype')) as [<-|Hne'].
    + rewrite dict_get_set_eq, Hd. simpl. by rewrite dict_get_set_ne.
    + by rewrite dict_get_set_ne.
Qed.

Lemma evar_appended_refl m k e : evar_appended m m k e (λ _, 0).
Proof. intros c. split_and!; try done. simpl. by rewrite app_nil_r. Qed.

Lemma evar_appended_conns m m1 m2 k e n :
  (∀ c, get_conn m2 c = get_conn m1 c) →
  evar_appended m m1 k e n → evar_appended m m2 k e n.
Proof. intros Hc H c. rewrite Hc. apply H. Qed.

Lemma evar_appended_step m m1 k e n c etype :
  evar_appended m m1 k e n →
  extensive_type (get_conn m1 c) k = Some etype →
  evar_appended m (with_conn m1 c (appended (get_conn m1 c) etype k e)) k e
    (λ c', n c' + if decide (c' = c) then 1 else 0).
Proof.
  intros H Hk c'. destruct (H c') as (? & ? & ? & ? & ? & Hkeys & Htype & He & Ho).
  destruct (decide (c' = c)) as [->|Hne].
  - rewrite get_conn_with_conn_eq.
    destruct (appended_obs (get_conn m1 c) etype k e Hk) as (Hk1 & Ht1 & He1 & Ho1).
    split_and!; try done.
    + by rewrite Hk1.
    + intros k'. by rewrite Ht1.
    + rewrite He1, He, <-app_assoc. f_equal.
      by rewrite Nat.add_1_r, <-replicate_S_end.
    + intros k' Hk'. by rewrite Ho1, Ho.
  - rewrite get_conn_with_conn_ne by done.
    split_and!; try done. by rewrite Nat.add_0_r.
Qed.

Lemma evar_appended_ext m m' k e n n' :
  (∀ c, n c = n' c) → evar_appended m m' k e n → evar_appended m m' k e n'.
Proof. intros Hn H c. rewrite <-Hn. apply H. Qed.

Lemma append_evar_run c etype k e m :
  append_evar c etype k e m =
    inr (tt, with_conn m c (appended (get_conn m c) etype k e)).
Proof. reflexivity. Qed.

Lemma extensive_steps_once blk k cont e conn_set m0 m n :
  evar_appended m0 m k e n →
  ∃ m', extensive_steps blk k (cont, true, Some e) conn_set m =
          inr ((cont || bool_decide (declaring m0 k conn_set ≠ []), true, Some e),
               m') ∧
    m_vars m' = m_vars m ∧ m_blocks m' = m_blocks m ∧
    m_warnings m' = m_warnings m ∧
    evar_appended m0 m' k e
      (λ c, n c + length (filter (λ d, d = c) (declaring m0 k conn_set))).
Proof.
  revert cont m n. induction conn_set as [|c rest IH]; intros cont m n Hn.
  - exists m. simpl. rewrite orb_false_r. split_and!; [done..|].
    eapply evar_appended_ext; [|done]. intros c. simpl. lia.
  - simpl. rewrite run_bind. unfold extensive_step at 1.
    rewrite run_bind, run_gets.
    destruct (Hn c) as (_ & _ & _ & _ & _ & _ & Htype & _).
    rewrite Htype. unfold declaring.
    destruct (extensive_type (get_conn m0 c) k) as [etype|] eqn:Hk.
    + rewrite filter_cons_True by eauto. cbn [fst snd].
      rewrite run_bind, append_evar_run, run_ret.
      destruct (IH true (with_conn m c (appended (get_conn m c) etype k e))
                  (λ c', n c' + if decide (c' = c) then 1 else 0))
        as (m' & -> & Hv & Hb & Hw & Hn').
      { apply evar_appended_step; [exact Hn|]. by rewrite Htype. }
      exists m'. rewrite orb_true_r. split_and!; [done..|].
      eapply evar_appended_ext; [|exact Hn']. intros c'. unfold declaring.
      cbv beta. rewrite filter_cons. destruct (decide (c = c')) as [->|Hne].
      * rewrite decide_True by done. simpl. lia.
      * rewrite decide_False by done. lia.
    + rewrite filter_cons_False by (rewrite Hk; by intros [? [=]]).
      rewrite run_ret. apply IH. done.
Qed.

Lemma extensive_steps_app blk k st l1 l2 m :
  extensive_steps blk k st (l1 ++ l2) m =
  match extensive_steps blk k st l1 m with
  | inl e => inl e
  | inr (st', m') => extensive_steps blk k st' l2 m'
  end.
Proof.
  revert st m. induction l1 as [|c l1 IH]; intros st m; simpl; [done|].
  rewrite !run_bind. destruct (extensive_step blk k st c m) as [|[st1 m1]]; [done|].
  apply IH.
Qed.

Lemma extensive_steps_first blk k ev0 pre d1 post etype v1 m :
  (∀ c, c ∈ pre → extensive_type (get_conn m c) k = None) →
  extensive_type (get_conn m d1) k = Some etype →
  dict_get k (c_vars (get_conn m d1)) = Some (Some v1) →
  ∃ m', extensive_steps blk k (false, false, ev0) (pre ++ d1 :: post) m =
          inr ((bool_decide (declaring m k post ≠ []), true,
                Some (fresh (dom (m_vars m)))), m') ∧
    m_vars m' = <[fresh (dom (m_vars m)) :=
                    Var_new (Some (v_index_set (get_var m v1))) None None]>
                  (m_vars m) ∧
    m_blocks m' = <[blk := get_block m blk ++ [(k, CVar (fresh (dom (m_vars m))))]]>
                    (m_blocks m) ∧
    m_warnings m' = m_warnings m ∧
    evar_appended m m' k (fresh (dom (m_vars m)))
      (λ c, length (filter (λ d, d = c) (d1 :: declaring m k post))).
Proof.
  intros Hpre Hd1 Hv1. set (e := fresh (dom (m_vars m))).
  rewrite extensive_steps_app, (extensive_steps_none _ _ _ _ _ Hpre).
  simpl. rewrite run_bind. unfold extensive_step at 1.
  rewrite run_bind, run_gets, Hd1. simpl.
  rewrite run_bind, (conn_var_run _ _ _ _ Hv1).
  rewrite run_bind, run_gets, run_bind. unfold new_var_id. rewrite run_gets.
  rewrite run_bind. unfold set_var, modify at 1. rewrite run_bind.
  unfold add_component, modify at 1. rewrite run_bind, append_evar_run, run_ret.
  fold e.
  set (m2 := with_blocks (with_var m e _) blk _).
  edestruct (extensive_steps_once blk k false e post m
               (with_conn m2 d1 (appended (get_conn m2 d1) etype k e)))
    as (m' & Hrun & Hv & Hb & Hw & Hn).
  { apply (evar_appended_step m m2 k e (λ _, 0) d1 etype); [|done].
    eapply evar_appended_conns; [|apply evar_appended_refl]. done. }
  simpl in Hrun. exists m'. split_and!; [exact Hrun|by rewrite Hv|by rewrite Hb|
                                          by rewrite Hw|].
  eapply evar_appended_ext; [|exact Hn]. intros c. simpl.
  rewrite filter_cons. destruct (decide (d1 = c)) as [->|Hne].
  - rewrite decide_True by done. simpl. lia.
  - rewrite decide_False by done. lia.
Qed.

Lemma connect_field_extensive
    (m : model) (blk : nat) (ev0 : option nat)
    (kv : string * (nat * Z * nat))
    (pre : list nat) (d1 : nat) (post : list nat) (etype : string) (v1 : nat) :
  (∀ c, c ∈ pre → extensive_type (get_conn m c) kv.1 = None) →
  extensive_type (get_conn m d1) kv.1 = Some etype →
  dict_get kv.1 (c_vars (get_conn m d1)) = Some (Some v1) →
  ∃ m', connect_field blk (pre ++ d1 :: post) ev0 kv m
          = inr (Some (fresh (dom (m_vars m))), m') ∧
    m_vars m' = <[fresh (dom (m_vars m)) :=
                    Var_new (Some (v_index_set (get_var m v1))) None None]>
                  (m_vars m) ∧
    get_block m' blk =
      get_block m blk ++
      (kv.1, CVar (fresh (dom (m_vars m)))) ::
      (if decide (declaring m kv.1 post = [])
       then [(kv.1 +:+ "_equality",
              CConstraint (mkConstraint (v_index_set (get_var m' kv.2.1.1)) kv.1
                             (pre ++ d1 :: post) (Some (fresh (dom (m_vars m))))))]
       else []) ∧
    (∀ b, b ≠ blk → get_block m' b = get_block m b) ∧
    m_warnings m' = m_warnings m ∧
    evar_appended m m' kv.1 (fresh (dom (m_vars m)))
      (λ c, length (filter (λ d, d = c) (d1 :: declaring m kv.1 post))).
Proof.
  intros Hpre Hd1 Hv1.
  destruct (extensive_steps_first blk kv.1 ev0 pre d1 post etype v1 m Hpre Hd1 Hv1)
    as (m1 & Hrun & Hv & Hb & Hw & Hn).
  unfold connect_field. rewrite run_bind, Hrun. cbn [fst snd].
  destruct (decide (declaring m kv.1 post = [])) as [Hnil|Hne].
  - rewrite bool_decide_eq_false_2 by (by intros H; apply H).
    rewrite run_bind, run_gets. unfold add_component. rewrite run_bind.
    unfold modify. rewrite run_ret.
    eexists. split; [reflexivity|]. simpl.
    split_and!; [done| | |done|].
    + unfold get_block at 1. simpl. rewrite lookup_insert_eq. simpl.
      unfold get_block at 1. rewrite Hb, lookup_insert_eq. simpl.
      by rewrite <-app_assoc.
    + intros b Hne. unfold get_block. simpl.
      rewrite lookup_insert_ne by done. rewrite Hb. by rewrite lookup_insert_ne.
    + eapply evar_appended_conns; [|exact Hn]. done.
  - rewrite bool_decide_eq_true_2 by done. rewrite run_ret.
    exists m1. split_and!; [done..| | |done|done].
    + unfold get_block at 1. rewrite Hb, lookup_insert_eq. done.
    + intros b Hneb. unfold get_block. rewrite Hb. by rewrite lookup_insert_ne.
Qed.



(** ** The extensive variable and the rule *)

Lemma dict_has_keys {V W} k (d : list (string * V)) (d' : list (string * W)) :
  fst <$> d = fst <$> d' → dict_has k d = dict_has k d'.
Proof.
  intros Hk.
  destruct (dict_has k d') eqn:H'.
  - apply dict_has_true. apply dict_has_true in H'.
    destruct (dict_get k d) eqn:Hd; [done|].
    apply dict_get_None_keys in Hd. rewrite Hk in Hd.
    apply dict_get_None_keys in Hd. rewrite Hd in H'. by destruct H'.
  - apply dict_has_false. apply dict_has_false in H'.
    apply dict_get_None_keys. rewrite Hk. by apply dict_get_None_keys.
Qed.

Lemma rule_terms_plain_run k evar conn_set m :
  (∀ c, c ∈ conn_set →
     ∃ v, dict_get k (c_vars (get_conn m c)) = Some (Some v) ∧
       dict_has k (c_aggregators (get_conn m c)) = false ∧
       dict_has k (c_extensives (get_conn m c)) = false ∧
       v_is_indexed (get_var m v) = Some false) →
  ∃ ts, rule_terms k evar None conn_set m = inr (ts, m) ∧
    Forall2 (λ c t, ∃ v, dict_get k (c_vars (get_conn m c)) = Some (Some v) ∧
                         t = TGetItem v None) conn_set ts.
Proof.
  induction conn_set as [|c rest IH]; intros Hall; simpl.
  - exists []. split; [done|constructor].
  - destruct (Hall c) as (v & Hv & Hagg & Hext & Hidx); [left|].
    destruct IH as (ts & Hts & Hf); [intros c' ?; apply Hall; by right|].
    exists (TGetItem v None :: ts).
    rewrite run_bind, (rule_term_plain_run _ _ _ _ v), run_bind, Hts by done.
    split; [done|]. constructor; [by exists v|done].
Qed.

(** X15.  The extensive variable is not in the equality.  Take a connector
    set of scalar variables in which exactly one member declares the field
    extensive, under a type whose name is not the name of the field.  The
    field gets its extensive variable and its constraint
    [<field>_equality], whose closure refers to that variable; but the rule
    of the constraint, which asks whether the field's name is a key of
    [c.extensives] (line 299) where the loop before it asked whether it is a
    key of [c.extensives[etype]] (line 277), returns the equality of the
    first two members' own variables: the extensive variable is no operand
    of it. *)
Theorem extensive_variable_not_in_rule
    (m : model) (blk : nat) (ev0 : option nat)
    (kv : string * (nat * Z * nat))
    (pre : list nat) (d1 : nat) (post : list nat) (etype : string)
    (c1 c2 : nat) (rest : list nat) :
  pre ++ d1 :: post = c1 :: c2 :: rest →
  (∀ c, c ∈ pre ++ post → extensive_type (get_conn m c) kv.1 = None) →
  extensive_type (get_conn m d1) kv.1 = Some etype →
  (∀ c, c ∈ c1 :: c2 :: rest →
     dict_has kv.1 (c_aggregators (get_conn m c)) = false ∧
     dict_has kv.1 (c_extensives (get_conn m c)) = false ∧
     ∃ v, dict_get kv.1 (c_vars (get_conn m c)) = Some (Some v) ∧
       is_Some (m_vars m !! v) ∧ v_is_indexed (get_var m v) = Some false) →
  ∃ m' con v1 v2,
    connect_field blk (c1 :: c2 :: rest) ev0 kv m
      = inr (Some (fresh (dom (m_vars m))), m') ∧
    (kv.1 +:+ "_equality", CConstraint con) ∈ get_block m' blk ∧
    con_evar con = Some (fresh (dom (m_vars m))) ∧
    (kv.1, CVar (fresh (dom (m_vars m)))) ∈ get_block m' blk ∧
    dict_get kv.1 (c_vars (get_conn m c1)) = Some (Some v1) ∧
    dict_get kv.1 (c_vars (get_conn m c2)) = Some (Some v2) ∧
    rule (con_field con) (con_conn_set con) (con_evar con) [] m'
      = inr (EEq (TGetItem v1 None) (TGetItem v2 None), m').
Proof.
  intros Hcs Hnone Hd1 Hplain.
  destruct (Hplain d1) as (_ & _ & vd & Hvd & _).
  { rewrite <-Hcs. apply elem_of_app. right. left. }
  destruct (connect_field_extensive m blk ev0 kv pre d1 post etype vd)
    as (m' & Hrun & Hv & Hb & _ & _ & Hn); [|done|done|].
  { intros c Hc. apply Hnone, elem_of_app. by left. }
  assert (declaring m kv.1 post = []) as Hdecl.
  { apply filter_none. intros c Hc. rewrite Hnone; [by intros [? [=]]|].
    apply elem_of_app. by right. }
  rewrite decide_True in Hb by done. rewrite Hcs in Hrun, Hb.
  set (e := fresh (dom (m_vars m))) in *.
  destruct (rule_terms_plain_run kv.1 (Some e) (c1 :: c2 :: rest) m') as (ts & Hts & Hf).
  { intros c Hc. destruct (Hplain c Hc) as (Hagg & Hext & v & Hvc & [V HV] & Hidx).
    destruct (Hn c) as (_ & _ & Hvars & Haggs & _ & Hkeys & _).
    exists v. split_and!.
    - by rewrite Hvars.
    - by rewrite Haggs.
    - by rewrite (dict_has_keys _ _ _ Hkeys).
    - unfold get_var in Hidx |- *. rewrite Hv, lookup_insert_ne; [done|].
      intros <-. unfold e in HV. by rewrite fresh_var_None in HV. }
  apply Forall2_cons_inv_l in Hf as (t1 & ts1 & (v1 & Hv1 & ->) & Hf & ->).
  apply Forall2_cons_inv_l in Hf as (t2 & ts2 & (v2 & Hv2 & ->) & Hf & ->).
  destruct (Hn c1) as (_ & _ & Hvars1 & _). destruct (Hn c2) as (_ & _ & Hvars2 & _).
  rewrite Hvars1 in Hv1. rewrite Hvars2 in Hv2.
  eexists m', _, v1, v2. split_and!; [exact Hrun| | | |exact Hv1|exact Hv2|].
  - rewrite Hb. apply elem_of_app. right. right. left.
  - done.
  - rewrite Hb. apply elem_of_app. right. left.
  - simpl. unfold rule. by rewrite run_bind, Hts.
Qed.

Lemma extensive_variable_not_in_rule_witness :
  ∃ m' con,
    connect_field 5 [1; 2] None ("x", (10, (-1)%Z, 1)) ex_model_extensive_pair
      = inr (Some (fresh (dom (m_vars ex_model_extensive_pair))), m') ∧
    con_evar con = Some (fresh (dom (m_vars ex_model_extensive_pair))) ∧
    rule (con_field con) (con_conn_set con) (con_evar con) [] m'
      = inr (EEq (TGetItem 10 None) (TGetItem 12 None), m').
Proof.
  destruct (extensive_variable_not_in_rule ex_model_extensive_pair 5 None
              ("x", (10, (-1)%Z, 1)) [] 1 [2] "in" 1 2 [])
    as (m' & con & v1 & v2 & Hrun & _ & Hev & _ & Hv1 & Hv2 & Hrule).
  - reflexivity.
  - intros c Hc. apply list_elem_of_singleton in Hc as ->. vm_compute. reflexivity.
  - vm_compute. reflexivity.
  - intros c Hc.
    apply elem_of_cons in Hc as [->|Hc];
      [|apply list_elem_of_singleton in Hc as ->].
    + split_and!; [vm_compute; reflexivity..|].
      exists 10. split_and!; [vm_compute; reflexivity|vm_compute; eauto|
                               vm_compute; reflexivity].
    + split_and!; [vm_compute; reflexivity..|].
      exists 12. split_and!; [vm_compute; reflexivity|vm_compute; eauto|
                               vm_compute; reflexivity].
  - vm_compute in Hv1, Hv2. injection Hv1 as <-. injection Hv2 as <-.
    by exists m', con.
Defined.

(** ** The references of the classes come from the model as it was *)

Lemma foldl_ext_in {A B} (f g : A → B → A) (l : list B) a :
  (∀ a x, x ∈ l → f a x = g a x) → foldl f a l = foldl g a l.
Proof.
  revert a. induction l as [|x l IH]; intros a H; simpl; [done|].
  rewrite (H a x) by left. apply IH. intros a' y Hy. apply H. by right.
Qed.

Lemma collect_fields_same m m' cls :
  (∀ c, c ∈ cls → get_conn m' c = get_conn m c) →
  (∀ c k v, c ∈ cls → (k, Some v) ∈ c_vars (get_conn m c) →
     get_var m' v = get_var m v) →
  collect_fields m' cls = collect_fields m cls.
Proof.
  intros Hconn Hvar. unfold collect_fields. apply foldl_ext_in.
  intros ref c Hc. rewrite (Hconn c Hc). apply foldl_ext_in.
  intros ref' [k ov] Hkv. unfold collect_field. simpl.
  destruct (dict_has k ref'); [done|]. destruct ov as [v|]; [|done].
  by rewrite (Hconn c Hc), (Hvar c k v Hc Hkv).
Qed.

Lemma validate_classes_refs groups h known m0 m known' m' :
  NoDup (snd <$> groups) →
  (∀ g g' c, g ∈ groups → g' ∈ groups →
     c ∈ deref h g.2 → c ∈ deref h g'.2 → g.2 = g'.2) →
  (∀ c k v, (k, Some v) ∈ c_vars (get_conn m0 c) → is_Some (m_vars m0 !! v)) →
  extends m0 m →
  (∀ g c, g ∈ groups → c ∈ deref h g.2 → get_conn m c = get_conn m0 c) →
  validate_classes groups h known m = inr (known', m') →
  (∀ g, g ∈ groups → known' !! g.2 = Some (collect_fields m0 (deref h g.2))) ∧
  (∀ a, a ∉ snd <$> groups → known' !! a = known !! a).
Proof.
  intros Hnd Hdisj Hstore. revert known m.
  induction groups as [|g rest IH]; intros known m Hext Hsame; simpl.
  { intros [= <- <-]. split; [by intros g ?%not_elem_of_nil|done]. }
  rewrite run_bind.
  destruct (validate_and_expand_connector_set (deref h g.2) m)
    as [|[ref m1]] eqn:Hval; [done|].
  intros Hrest.
  destruct (validate_frame _ _ _ _ Hval) as (-> & Hext1 & Hout & _).
  rewrite fmap_cons in Hnd. apply NoDup_cons in Hnd as [Hg Hnd].
  assert (collect_fields m (deref h g.2) = collect_fields m0 (deref h g.2)) as Href.
  { apply collect_fields_same.
    - intros c Hc. apply (Hsame g c); [left|done].
    - intros c k v Hc Hkv. destruct (Hstore c k v Hkv) as [V HV].
      destruct Hext as (Hvars & _). unfold get_var. by rewrite HV, (Hvars _ _ HV). }
  destruct (IH Hnd) with (known := <[g.2 := collect_fields m (deref h g.2)]> known)
                         (m := m1) as [Hin Hnot].
  - intros g1 g2 c H1 H2. apply Hdisj; by right.
  - by eapply extends_trans.
  - intros g' c Hg' Hc. rewrite Hout; [apply (Hsame g' c); [by right|done]|].
    intros Hcg. apply Hg. rewrite (Hdisj g g' c); [|left|by right|done..].
    apply list_elem_of_fmap. by exists g'.
  - done.
  - split.
    + intros g' [->|Hg']%elem_of_cons; [|by apply Hin].
      rewrite Hnot by done. by rewrite lookup_insert_eq, Href.
    + intros a [Ha Harest]%not_elem_of_cons. rewrite Hnot by done.
      by rewrite lookup_insert_ne.
Qed.

(** X16.  When [_collect_connectors] returns, the reference that
    [known_conn_sets] holds for a class is the canonical reference of that
    class in the model as it was before any class was expanded: expanding
    one class changes neither the connectors of another class nor a
    variable that exists, so the order in which the classes are validated
    does not show in the references.  Every variable that a connector holds
    is a variable of the model. *)
Theorem class_references_from_original_model
    (comps : list comp) (m m' : model) (s : scan_state)
    (known : gmap nat (list (string * (nat * Z * nat)))) :
  collect_connectors comps m = inr ((s, known), m') →
  (∀ c k v, (k, Some v) ∈ c_vars (get_conn m c) → is_Some (m_vars m !! v)) →
  ∀ a, is_Some (connector_groups s !! a) →
    known !! a = Some (collect_fields m (deref (heap s) a)).
Proof.
  unfold collect_connectors. cbv zeta. rewrite run_bind.
  destruct (validate_groups _ _ m) as [|[known0 m1]] eqn:Hv; [done|].
  intros [= <- <- <-] Hstore a [[g b] Ha].
  destruct (scan_spec comps) as [Hwf _].
  destruct (wf_grp _ Hwf a g b Ha) as (-> & _).
  unfold validate_groups in Hv.
  assert (∀ g0, g0 ∈ sorted_groups (group_values (scan comps)) →
            connector_groups (scan comps) !! g0.2 = Some g0) as Hmem.
  { intros [g0 b0] Hin. rewrite sorted_groups_perm in Hin.
    apply elem_of_group_values in Hin as (a0 & Ha0).
    by destruct (wf_grp _ Hwf a0 g0 b0 Ha0) as (-> & _). }
  apply validate_classes_refs with (m0 := m) in Hv as [Hin _];
    [|..|apply extends_refl|done].
  - apply (Hin (g, a)). rewrite sorted_groups_perm. apply elem_of_group_values.
    eauto.
  - rewrite sorted_groups_perm. unfold group_values.
    rewrite <-list_fmap_compose.
    rewrite (list_fmap_ext _ fst (map_to_list (connector_groups (scan comps)))).
    + apply NoDup_fst_map_to_list.
    + intros i [a0 [g0 b0]] Hl. simpl.
      apply list_elem_of_lookup_2, elem_of_map_to_list in Hl.
      by destruct (wf_grp _ Hwf a0 g0 b0 Hl) as (-> & _).
  - intros g1 g2 c H1 H2 Hc1 Hc2.
    apply Hmem in H1, H2. destruct g1 as [i1 a1], g2 as [i2 a2]. simpl in *.
    destruct (wf_grp _ Hwf a1 i1 a1 H1) as (_ & _ & _ & _ & _ & Hall1).
    destruct (wf_grp _ Hwf a2 i2 a2 H2) as (_ & _ & _ & _ & _ & Hall2).
    specialize (Hall1 c Hc1). specialize (Hall2 c Hc2). congruence.
  - done.
Qed.

Lemma class_references_from_original_model_witness :
  ∃ s known m',
    collect_connectors [Comp 0 IsConnection [1; 4]] ex_model_empty
      = inr ((s, known), m') ∧
    known !! 0 = Some (collect_fields ex_model_empty [1; 4]).
Proof.
  destruct (collect_connectors [Comp 0 IsConnection [1; 4]] ex_model_empty)
    as [|[[s known] m']] eqn:Hrun; [by vm_compute in Hrun|].
  assert (s = scan [Comp 0 IsConnection [1; 4]]) as Hs.
  { by apply collect_connectors_known in Hrun as [-> _]. }
  exists s, known, m'. split; [done|].
  assert (deref (heap s) 0 = [1; 4]) as <- by (rewrite Hs; vm_compute; reflexivity).
  apply (class_references_from_original_model _ _ _ _ _ Hrun).
  - intros c k v Hkv.
    destruct (decide (c = 1)) as [->|H1].
    + vm_compute in Hkv. apply list_elem_of_singleton in Hkv.
      injection Hkv as _ ->. vm_compute. eauto.
    + destruct (decide (c = 4)) as [->|H4].
      * vm_compute in Hkv. by apply not_elem_of_nil in Hkv.
      * unfold get_conn in Hkv.
        replace (m_conns ex_model_empty !! c) with (@None Connector) in Hkv.
        -- by apply not_elem_of_nil in Hkv.
        -- symmetry. unfold ex_model_empty. simpl.
           rewrite !lookup_insert_ne by done. apply lookup_empty.
  - rewrite Hs. vm_compute. eauto.
Defined.

(** ** The names of the synthesized variables, in order *)

Lemma check_connector_value m c ref p b :
  check_connector m c ref p = inr b →
  b = p || existsb (λ entry, bool_decide (dict_get entry.1 (c_vars (get_conn m c))
                                          = Some None)) ref.
Proof.
  revert p. induction ref as [|[k [[v0 n0] c0]] ref IH]; intros p; simpl.
  - intros [= <-]. by rewrite orb_false_r.
  - destruct (dict_get k (c_vars (get_conn m c))) as [[v|]|] eqn:Hk; [| |done].
    + destruct (xorb _ _); [done|]. destruct (_ && negb _); [done|].
      destruct (_ && (0 <? _)); [done|].
      intros ->%IH. by rewrite bool_decide_eq_false_2.
    + intros ->%IH. rewrite bool_decide_eq_true_2 by done. simpl.
      by rewrite orb_true_r.
Qed.

Lemma check_connectors_filter m connectors ref acc eop :
  ref ≠ [] →
  check_connectors m connectors ref acc = inr eop →
  eop = acc ++ filter (λ c, needs_fill m ref c = true) connectors.
Proof.
  intros Href. revert acc.
  induction connectors as [|c rest IH]; intros acc; simpl.
  - intros [= <-]. by rewrite app_nil_r.
  - destruct (c_vars (get_conn m c)) as [|kv0 vars] eqn:Hvars.
    + intros ->%IH. rewrite filter_cons_True; [by rewrite <-app_assoc|].
      unfold needs_fill. by rewrite Hvars.
    + destruct (check_connector m c ref false) as [|partial] eqn:Hc; [done|].
      apply check_connector_value in Hc. simpl in Hc.
      intros ->%IH.
      assert (needs_fill m ref c = partial) as Hneeds.
      { unfold needs_fill. rewrite Hc, Hvars.
        by rewrite bool_decide_eq_false_2. }
      destruct partial.
      * rewrite filter_cons_True by done. by rewrite <-app_assoc.
      * rewrite filter_cons_False; [done|]. by rewrite Hneeds.
Qed.

Lemma fill_field_names c kv m m1 b :
  fill_field c kv m = inr (tt, m1) →
  fst <$> get_block m1 b =
  (fst <$> get_block m b) ++
    (if decide (c_parent_block (get_conn m c) = b ∧ unassigned m c kv.1)
     then [c_name (get_conn m c) +:+ ".auto." +:+ kv.1] else []).
Proof.
  intros [(nv0 & Hk & ->)|(Hun & m3 & Hloop & ->)]%fill_field_inr.
  - rewrite decide_False; [by rewrite app_nil_r|].
    intros [_ [H|H]]; congruence.
  - apply copy_loop_frame in Hloop as (_ & Hb & _). simpl in Hb.
    unfold get_block at 1. simpl. rewrite Hb.
    destruct (decide (c_parent_block (get_conn m c) = b)) as [<-|Hne].
    + rewrite lookup_insert_eq, decide_True by done. simpl.
      by rewrite fmap_app.
    + rewrite lookup_insert_ne by done. rewrite decide_False by (by intros [? _]).
      by rewrite app_nil_r.
Qed.

Lemma fill_field_other_keys c kv m m1 c' k' :
  fill_field c kv m = inr (tt, m1) →
  c' ≠ c ∨ k' ≠ kv.1 →
  dict_get k' (c_vars (get_conn m1 c')) = dict_get k' (c_vars (get_conn m c')).
Proof.
  intros [(nv0 & Hk & ->)|(Hun & m3 & Hloop & ->)]%fill_field_inr Hne; [done|].
  apply copy_loop_conns in Hloop. simpl in Hloop.
  assert (∀ c0, get_conn m3 c0 = get_conn m c0) as Hconn3.
  { intros c0. unfold get_conn. by rewrite Hloop. }
  destruct (decide (c = c')) as [<-|Hcc].
  - rewrite get_conn_with_conn_eq. simpl. rewrite Hconn3.
    rewrite dict_get_set_ne; [done|]. intros <-. by destruct Hne.
  - by rewrite get_conn_with_conn_ne, Hconn3.
Qed.

Lemma fill_fields_names c refs m m1 b :
  NoDup (fst <$> refs) →
  for_each refs (fill_field c) m = inr (tt, m1) →
  fst <$> get_block m1 b = (fst <$> get_block m b) ++ auto_names m [c] refs b ∧
  (∀ c' k', c' ≠ c → dict_get k' (c_vars (get_conn m1 c'))
                      = dict_get k' (c_vars (get_conn m c'))) ∧
  (∀ c', c_name (get_conn m1 c') = c_name (get_conn m c') ∧
         c_parent_block (get_conn m1 c') = c_parent_block (get_conn m c')).
Proof.
  unfold auto_names. simpl. rewrite app_nil_r.
  revert m. induction refs as [|kv refs IH]; intros m Hnd; simpl.
  - intros [= <-]. by rewrite app_nil_r.
  - rewrite fmap_cons in Hnd. apply NoDup_cons in Hnd as [Hkv Hnd].
    rewrite run_bind.
    destruct (fill_field c kv m) as [|[[] m2]] eqn:Hf; [done|].
    intros Hrest. destruct (IH m2 Hnd Hrest) as (Hnames & Hother & Hattr).
    pose proof (fill_field_frame _ _ _ _ Hf) as [(_ & _ & _ & Hattr2 & _) _].
    split_and!.
    + rewrite Hnames, (fill_field_names _ _ _ _ b Hf), <-app_assoc.
      do 2 f_equal. f_equal. apply list_fmap_ext.
      intros _ kv' Hkv'%list_elem_of_lookup_2.
      destruct (Hattr2 c) as (-> & -> & _).
      assert (kv'.1 ≠ kv.1) as Hne.
      { intros E. apply Hkv. rewrite <-E. apply list_elem_of_fmap. by exists kv'. }
      unfold unassigned.
      by rewrite (fill_field_other_keys _ _ _ _ c kv'.1 Hf) by (by right).
    + intros c' k' Hc'. rewrite Hother by done.
      apply (fill_field_other_keys _ _ _ _ c' k' Hf). by left.
    + intros c'. destruct (Hattr c') as [-> ->].
      by destruct (Hattr2 c') as (-> & -> & _).
Qed.

Lemma auto_names_same m m1 eop refs b :
  (∀ c, c ∈ eop →
     c_name (get_conn m1 c) = c_name (get_conn m c) ∧
     c_parent_block (get_conn m1 c) = c_parent_block (get_conn m c) ∧
     ∀ k, dict_get k (c_vars (get_conn m1 c)) = dict_get k (c_vars (get_conn m c))) →
  auto_names m1 eop refs b = auto_names m eop refs b.
Proof.
  intros H. unfold auto_names. f_equal. apply list_fmap_ext.
  intros _ c Hc%list_elem_of_lookup_2. destruct (H c Hc) as (-> & -> & Hk).
  f_equal. apply list_fmap_ext. intros _ kv _. unfold unassigned.
  by rewrite Hk.
Qed.

Lemma fill_connectors_names eop refs m m1 b :
  NoDup eop → NoDup (fst <$> refs) →
  fill_connectors eop refs m = inr (tt, m1) →
  fst <$> get_block m1 b = (fst <$> get_block m b) ++ auto_names m eop refs b.
Proof.
  unfold fill_connectors. intros Hnd Hrefs. revert m.
  induction eop as [|c eop IH]; intros m; simpl.
  - intros [= <-]. unfold auto_names. simpl. by rewrite app_nil_r.
  - apply NoDup_cons in Hnd as [Hc Hnd]. rewrite run_bind.
    destruct (for_each refs (fill_field c) m) as [|[[] m2]] eqn:Hin; [done|].
    intros Hrest.
    destruct (fill_fields_names c refs m m2 b Hrefs Hin) as (Hnames & Hother & Hattr).
    rewrite (IH Hnd m2 Hrest), Hnames, <-app_assoc. f_equal.
    rewrite (auto_names_same m m2 eop).
    + unfold auto_names. simpl. by rewrite app_nil_r.
    + intros c' Hc'. destruct (Hattr c') as [-> ->]. split_and!; [done..|].
      intros k. apply Hother. by intros ->.
Qed.

(** X17.  The variables that validation and expansion of a class
    synthesize, in order.  The connectors that are filled are the members of
    the class that are empty or have a field of the reference with the value
    None, in the order of their names when there are several; each gets its
    missing fields in the order of the field names.  Every block has, after
    its old components, the new variables in exactly that order, under the
    names [<connector>.auto.<field>], and nothing else. *)
Theorem synthesized_names_in_order
    (m : model) (connectors : list nat)
    (ref : list (string * (nat * Z * nat))) (m' : model) (b : nat) :
  validate_and_expand_connector_set connectors m = inr (ref, m') →
  NoDup connectors →
  fst <$> get_block m' b =
  (fst <$> get_block m b) ++
    auto_names m
      (sort_empty_or_partial m
         (filter (λ c, needs_fill m ref c = true) connectors))
      (sorted_items ref) b.
Proof.
  rewrite validate_unfold. intros Hrun Hnd.
  pose proof (collect_fields_keys m connectors) as Hkeys.
  destruct (collect_fields m connectors) as [|e r] eqn:Href; [done|].
  destruct (check_connectors m connectors (e :: r) []) as [|eop] eqn:Hchk; [done|].
  rewrite run_bind in Hrun.
  destruct (fill_connectors _ _ m) as [|[[] m1]] eqn:Hfill; [done|].
  injection Hrun as <- <-.
  apply check_connectors_filter in Hchk; [|done]. simpl in Hchk. subst eop.
  apply (fill_connectors_names _ _ _ _ b) in Hfill; [done| |].
  - unfold sort_empty_or_partial. case_decide.
    + rewrite sorted_by_perm. by apply NoDup_filter.
    + by apply NoDup_filter.
  - unfold sorted_items. by rewrite sorted_by_perm.
Qed.

Lemma synthesized_names_in_order_witness :
  ∃ m',
    validate_and_expand_connector_set [1; 4] ex_model_empty
      = inr ([("flow", (20, (-2)%Z, 1))], m') ∧
    fst <$> get_block m' 7 = ["d.auto.flow"].
Proof.
  destruct (validate_and_expand_connector_set [1; 4] ex_model_empty)
    as [|[ref m']] eqn:Hrun; [by vm_compute in Hrun|].
  assert (ref = [("flow", (20, (-2)%Z, 1))]) as ->.
  { vm_compute in Hrun. by injection Hrun as <- _. }
  exists m'. split; [done|].
  rewrite (synthesized_names_in_order _ _ _ _ 7 Hrun).
  - vm_compute. reflexivity.
  - apply NoDup_cons. split; [|apply NoDup_singleton].
    intros H%list_elem_of_singleton. discriminate.
Defined.
